(** * Lazy quadtree with range updates and range queries

    A shallow embedding of the [quadtree<T>] class template of the
    repository (the second document of the source file, lines 138-302)
    and of its example driver (lines 317-340), followed by the properties
    established about it.

    Conventions of the embedding:
    - [int] is a 32-bit two's complement integer, kept as a [Z] together
      with the wrap-around of every arithmetic operation ([Int.wrap]);
    - a [node_t*] is a value of the inductive type [node_t], whose
      constructor [NULL] is the null pointer; ownership is tree shaped,
      so a pointer and the node it owns are one value;
    - dereferencing [NULL], reading a member that no statement has
      assigned yet, and exhausting the recursion budget are the three
      ways a run can fail; they are kept apart in the type [result];
    - the helper members [tgt_r1 .. tgt_c2] travel as a [target] record,
      [delta] as an [option T] ([None] until the first update assigns
      it), and the pair [found]/[res] as an [option T] that is [None]
      exactly while [found] is false ([res] is never read then). *)

From Stdlib Require Import ZArith List Lia Bool.
Import ListNotations.
Local Open Scope Z_scope.

(** ** Machine integers *)

Module Int.

Definition min_int : Z := - 2 ^ 31.
Definition max_int : Z := 2 ^ 31 - 1.

(** Reduction of a mathematical integer to the signed 32-bit range. *)
Definition wrap (z : Z) : Z := (z + 2 ^ 31) mod 2 ^ 32 - 2 ^ 31.

Definition add (a b : Z) : Z := wrap (a + b).
Definition sub (a b : Z) : Z := wrap (a - b).
Definition mul (a b : Z) : Z := wrap (a * b).
(** [/] on [int] truncates towards zero. *)
Definition div (a b : Z) : Z := wrap (Z.quot a b).

Definition in_range (z : Z) : Prop := min_int <= z <= max_int.

End Int.

(** ** Outcomes of a run *)

Inductive result (A : Type) : Type :=
| Ok (a : A)
| NullDeref
| Indeterminate
| OutOfFuel.

Arguments Ok {A} a.
Arguments NullDeref {A}.
Arguments Indeterminate {A}.
Arguments OutOfFuel {A}.

Definition bind {A B : Type} (m : result A) (k : A -> result B) : result B :=
  match m with
  | Ok a => k a
  | NullDeref => NullDeref
  | Indeterminate => Indeterminate
  | OutOfFuel => OutOfFuel
  end.

Notation "x <- m ;; k" := (bind m (fun x => k))
  (at level 61, m at next level, right associativity).
Notation "' pat <- m ;; k" := (bind m (fun x => match x with pat => k end))
  (at level 61, pat pattern, m at next level, right associativity).

(** ** The four overridable operations *)

Record Policy (T : Type) : Type := {
  join_values : T -> T -> T;
  join_region : T -> Z -> T;
  join_value_with_delta : T -> T -> Z -> T;
  join_deltas : T -> T -> T
}.

Arguments join_values {T} _ _ _.
Arguments join_region {T} _ _ _.
Arguments join_value_with_delta {T} _ _ _ _.
Arguments join_deltas {T} _ _ _.

(** The definitions the class ships with (lines 142-156): "min" queries
    and "set" updates on a numerical [T]. *)
Definition stock : Policy Z := {|
  join_values := fun a b => Z.min a b;
  join_region := fun v _ => v;
  join_value_with_delta := fun _ d _ => d;
  join_deltas := fun _ d2 => d2
|}.

(** The alternative the header comment documents: "sum" queries and
    "increment" updates, on [T = int]. *)
Definition sum_increment : Policy Z := {|
  join_values := fun a b => Int.add a b;
  join_region := fun v area => Int.mul v area;
  join_value_with_delta := fun v d area => Int.add v (Int.mul d area);
  join_deltas := fun d1 d2 => Int.add d1 d2
|}.

(** ** Nodes *)

Inductive node_t (T : Type) : Type :=
| NULL
| Node (value : T) (delta : option T) (pending : bool)
       (child0 child1 child2 child3 : node_t T).

Arguments NULL {T}.
Arguments Node {T} value delta pending child0 child1 child2 child3.

(** [node_t(const T &v)]: [delta] is left unassigned. *)
Definition new_node_t {T : Type} (v : T) : node_t T :=
  Node v None false NULL NULL NULL NULL.

(** [n->value] *)
Definition value_of {T : Type} (n : node_t T) : result T :=
  match n with
  | NULL => NullDeref
  | Node v _ _ _ _ _ _ => Ok v
  end.

(** [n->pending = b] *)
Definition set_pending {T : Type} (n : node_t T) (b : bool) : result (node_t T) :=
  match n with
  | NULL => NullDeref
  | Node v dl _ ch0 ch1 ch2 ch3 => Ok (Node v dl b ch0 ch1 ch2 ch3)
  end.

Record target : Type := {
  tgt_r1 : Z;
  tgt_c1 : Z;
  tgt_r2 : Z;
  tgt_c2 : Z
}.

Definition MAXR : Z := 1000000000.
Definition MAXC : Z := 1000000000.

(** Recursion budget of the public operations.  The descent from the
    root halves both side lengths at each level, and 31 levels already
    reach rectangles of at most one row and one column
    ([update_rec_returns], [query_rec_returns]). *)
Definition max_depth : nat := 32.

Section Quadtree.

Context {T : Type}.
Variable P : Policy T.
Variable init : T.

(** [update_delta(node_t *&n, const T &d, int area)], lines 180-186. *)
Definition update_delta_area (n : node_t T) (d : T) (area : Z)
  : result (node_t T) :=
  let n := match n with
           | NULL => new_node_t (join_region P init area)
           | _ => n
           end in
  match n with
  | NULL => NullDeref
  | Node v dl p ch0 ch1 ch2 ch3 =>
      dl' <- (if p
              then match dl with
                   | Some d0 => Ok (join_deltas P d0 d)
                   | None => Indeterminate
                   end
              else Ok d) ;;
      Ok (Node v (Some dl') true ch0 ch1 ch2 ch3)
  end.

(** [update_delta(node_t *&n, int r1, int c1, int r2, int c2)], lines
    188-203.  The [delta] read at lines 192 and 196-199 is the member
    of the tree, not [n->delta]. *)
Definition update_delta (delta : option T) (n : node_t T)
           (r1 c1 r2 c2 : Z) : result (node_t T) :=
  match n with
  | NULL => NullDeref
  | Node v dl p ch0 ch1 ch2 ch3 =>
      if p then
        match delta with
        | None => Indeterminate
        | Some d =>
            let rmid := Int.div (Int.add r1 r2) 2 in
            let cmid := Int.div (Int.add c1 c2) 2 in
            let rlen := Int.add (Int.sub r2 r1) 1 in
            let clen := Int.add (Int.sub c2 c1) 1 in
            let v' := join_value_with_delta P v d (Int.mul rlen clen) in
            if 1 <? Int.mul rlen clen then
              let rlen1 := Int.add (Int.sub rmid r1) 1 in
              let rlen2 := Int.sub rlen rlen1 in
              let clen1 := Int.add (Int.sub cmid c1) 1 in
              let clen2 := Int.sub clen clen1 in
              ch0' <- update_delta_area ch0 d (Int.mul rlen1 clen1) ;;
              ch1' <- update_delta_area ch1 d (Int.mul rlen2 clen1) ;;
              ch2' <- update_delta_area ch2 d (Int.mul rlen1 clen2) ;;
              ch3' <- update_delta_area ch3 d (Int.mul rlen2 clen2) ;;
              Ok (Node v' dl false ch0' ch1' ch2' ch3')
            else Ok (Node v' dl false ch0 ch1 ch2 ch3)
        end
      else Ok (Node v dl false ch0 ch1 ch2 ch3)
  end.

(** The two tests on the node rectangle against the target. *)
Definition disjoint (tgt : target) (r1 c1 r2 c2 : Z) : bool :=
  (tgt_r2 tgt <? r1) || (r2 <? tgt_r1 tgt)
  || (tgt_c2 tgt <? c1) || (c2 <? tgt_c1 tgt).

Definition contained (tgt : target) (r1 c1 r2 c2 : Z) : bool :=
  (tgt_r1 tgt <=? r1) && (r2 <=? tgt_r2 tgt)
  && (tgt_c1 tgt <=? c1) && (c2 <=? tgt_c2 tgt).

(** The loop of lines 223-228 over [child[0..3]]. *)
Fixpoint join_children (found : bool) (v : T) (cs : list (node_t T))
  : result T :=
  match cs with
  | [] => Ok v
  | c :: cs' =>
      cv <- value_of c ;;
      join_children true (if found then join_values P v cv else cv) cs'
  end.

(** Private [update(node_t *&n, int r1, int c1, int r2, int c2)],
    lines 205-229. *)
Fixpoint update_rec (fuel : nat) (tgt : target) (d : T) (n : node_t T)
         (r1 c1 r2 c2 : Z) {struct fuel} : result (node_t T) :=
  match fuel with
  | O => OutOfFuel
  | S fuel' =>
      let n := match n with
               | NULL =>
                   new_node_t
                     (join_region P init
                        (Int.mul (Int.add (Int.sub r2 r1) 1)
                                 (Int.add (Int.sub c2 r1) 1)))
               | _ => n
               end in
      n <- update_delta (Some d) n r1 c1 r2 c2 ;;
      if disjoint tgt r1 c1 r2 c2 then Ok n
      else if contained tgt r1 c1 r2 c2 then
        n <- set_pending n true ;;
        update_delta (Some d) n r1 c1 r2 c2
      else
        let rmid := Int.div (Int.add r1 r2) 2 in
        let cmid := Int.div (Int.add c1 c2) 2 in
        match n with
        | NULL => NullDeref
        | Node v dl p ch0 ch1 ch2 ch3 =>
            ch0' <- update_rec fuel' tgt d ch0 r1 c1 rmid cmid ;;
            ch1' <- update_rec fuel' tgt d ch1 (Int.add rmid 1) c1 r2 cmid ;;
            ch2' <- update_rec fuel' tgt d ch2 r1 (Int.add cmid 1) rmid c2 ;;
            ch3' <- update_rec fuel' tgt d ch3
                      (Int.add rmid 1) (Int.add cmid 1) r2 c2 ;;
            v' <- join_children false v [ch0'; ch1'; ch2'; ch3'] ;;
            Ok (Node v' dl p ch0' ch1' ch2' ch3')
        end
  end.

(** [res = found ? join_values(res, v) : v; found = true;] *)
Definition accumulate (res : option T) (v : T) : option T :=
  Some (match res with
        | Some r => join_values P r v
        | None => v
        end).

(** Private [query(node_t *n, int r1, int c1, int r2, int c2)], lines
    231-254.  The node is reached through a pointer, so what
    [update_delta] changes in it stays changed: the visited node is
    returned next to the accumulator. *)
Fixpoint query_rec (fuel : nat) (tgt : target) (delta : option T)
         (n : node_t T) (r1 c1 r2 c2 : Z) (res : option T) {struct fuel}
  : result (node_t T * option T) :=
  match fuel with
  | O => OutOfFuel
  | S fuel' =>
      if disjoint tgt r1 c1 r2 c2 then Ok (n, res)
      else
        match n with
        | NULL =>
            let rlen :=
              Int.add (Int.sub (Z.min r2 (tgt_r2 tgt))
                               (Z.max r1 (tgt_r1 tgt))) 1 in
            let clen :=
              Int.add (Int.sub (Z.min c2 (tgt_c2 tgt))
                               (Z.max c1 (tgt_c1 tgt))) 1 in
            let v := join_region P init (Int.mul rlen clen) in
            Ok (NULL, accumulate res v)
        | _ =>
            n <- update_delta delta n r1 c1 r2 c2 ;;
            if contained tgt r1 c1 r2 c2 then
              v <- value_of n ;;
              Ok (n, accumulate res v)
            else
              let rmid := Int.div (Int.add r1 r2) 2 in
              let cmid := Int.div (Int.add c1 c2) 2 in
              match n with
              | NULL => NullDeref
              | Node v dl p ch0 ch1 ch2 ch3 =>
                  '(ch0', res) <-
                    query_rec fuel' tgt delta ch0 r1 c1 rmid cmid res ;;
                  '(ch1', res) <-
                    query_rec fuel' tgt delta ch1
                              (Int.add rmid 1) c1 r2 cmid res ;;
                  '(ch2', res) <-
                    query_rec fuel' tgt delta ch2
                              r1 (Int.add cmid 1) rmid c2 res ;;
                  '(ch3', res) <-
                    query_rec fuel' tgt delta ch3
                              (Int.add rmid 1) (Int.add cmid 1) r2 c2 res ;;
                  Ok (Node v dl p ch0' ch1' ch2' ch3', res)
              end
        end
  end.

End Quadtree.

(** ** The tree and its public operations *)

Record quadtree (T : Type) : Type := {
  root : node_t T;
  init : T;
  delta : option T
}.

Arguments root {T} _.
Arguments init {T} _.
Arguments delta {T} _.

Section Public.

Context {T : Type}.
Variable P : Policy T.

(** [quadtree(const T &v = T())], lines 267-270. *)
Definition construct (v : T) : quadtree T :=
  {| root := NULL; init := v; delta := None |}.

(** [update(int r1, int c1, int r2, int c2, const T &d)], lines 276-283. *)
Definition update (t : quadtree T) (r1 c1 r2 c2 : Z) (d : T)
  : result (quadtree T) :=
  let tgt := {| tgt_r1 := r1; tgt_c1 := c1; tgt_r2 := r2; tgt_c2 := c2 |} in
  n <- update_rec P (init t) max_depth tgt d (root t) 0 0 MAXR MAXC ;;
  Ok {| root := n; init := init t; delta := Some d |}.

(** [update(int r, int c, const T &d)], lines 285-287. *)
Definition update_point (t : quadtree T) (r c : Z) (d : T)
  : result (quadtree T) :=
  update t r c r c d.

(** [query(int r1, int c1, int r2, int c2)], lines 289-297. *)
Definition query (t : quadtree T) (r1 c1 r2 c2 : Z)
  : result (quadtree T * T) :=
  let tgt := {| tgt_r1 := r1; tgt_c1 := c1; tgt_r2 := r2; tgt_c2 := c2 |} in
  '(n, res) <-
    query_rec P (init t) max_depth tgt (delta t) (root t) 0 0 MAXR MAXC None ;;
  Ok ({| root := n; init := init t; delta := delta t |},
      match res with
      | Some v => v
      | None =>
          join_region P (init t)
            (Int.mul (Int.add (Int.sub r2 r1) 1) (Int.add (Int.sub c2 c1) 1))
      end).

(** [at(int r, int c)], lines 299-301. *)
Definition at_ (t : quadtree T) (r c : Z) : result (quadtree T * T) :=
  query t r c r c.

End Public.

(** ** The example driver, lines 317-340 *)

Definition main_updates : result (quadtree Z) :=
  t <- update_point stock (construct 0) 0 0 7 ;;
  t <- update_point stock t 0 1 6 ;;
  t <- update_point stock t 1 1 4 ;;
  t <- update_point stock t 2 1 1 ;;
  t <- update_point stock t 2 2 4 ;;
  t <- update stock t 0 2 3 2 9 ;;
  update stock t 2 0 2 2 9.

(** The double loop of lines 327-332: the values printed, row by row. *)
Fixpoint read_cells (t : quadtree Z) (cells : list (Z * Z))
  : result (quadtree Z * list Z) :=
  match cells with
  | [] => Ok (t, [])
  | (r, c) :: cells' =>
      '(t, v) <- at_ stock t r c ;;
      '(t, vs) <- read_cells t cells' ;;
      Ok (t, v :: vs)
  end.

Definition grid3 : list (Z * Z) :=
  [(0, 0); (0, 1); (0, 2); (1, 0); (1, 1); (1, 2); (2, 0); (2, 1); (2, 2)].

(** The whole of [main]: the printed grid and the five queried values. *)
Definition main_run : result (list Z * list Z) :=
  t <- main_updates ;;
  '(t, grid) <- read_cells t grid3 ;;
  '(t, q1) <- query stock t 0 0 0 1 ;;
  '(t, q2) <- query stock t 0 0 1 0 ;;
  '(t, q3) <- query stock t 1 1 2 2 ;;
  '(t, q4) <- query stock t 0 0 1000000000 1000000000 ;;
  t <- update stock t 0 500000000 0 500000000 (-100) ;;
  '(t, q5) <- query stock t 0 0 1000000000 1000000000 ;;
  Ok (grid, [q1; q2; q3; q4; q5]).

(** The path from the root through [child[0]] only: the node reached
    after [k] steps covers the rectangle whose corner is the cell (0,0). *)
Fixpoint descend0 {T : Type} (k : nat) (n : node_t T) : node_t T :=
  match k with
  | O => n
  | S k' =>
      match n with
      | NULL => NULL
      | Node _ _ _ ch0 _ _ _ => descend0 k' ch0
      end
  end.

(** A rectangle update that leaves deferred deltas below the node
    [0,1]x[0,1], followed by a point update far from it. *)
Definition deferred_then_far : result (quadtree Z) :=
  t <- update stock (construct 0) 0 0 1 1 5 ;;
  update_point stock t 10 10 7.

(** ** Predicates used in the statements *)

(** The pointer is not null. *)
Definition is_node {T : Type} (n : node_t T) : Prop :=
  match n with
  | NULL => False
  | Node _ _ _ _ _ _ _ => True
  end.

(** A run that does not dereference [NULL] and, when it completes,
    delivers a result satisfying [ok]. *)
Definition safe {A : Type} (ok : A -> Prop) (r : result A) : Prop :=
  match r with
  | Ok a => ok a
  | NullDeref => False
  | Indeterminate | OutOfFuel => True
  end.

(** [c] is what some call of the private update recursion left in the
    pointer it was given. *)
Definition left_by_update {T : Type} (P : Policy T) (i : T) (fuel : nat)
           (tgt : target) (d : T) (c : node_t T) : Prop :=
  exists n r1 c1 r2 c2, update_rec P i fuel tgt d n r1 c1 r2 c2 = Ok c.

(** A run that completes, with a result satisfying [ok]. *)
Definition returns {A : Type} (ok : A -> Prop) (r : result A) : Prop :=
  match r with
  | Ok a => ok a
  | NullDeref | Indeterminate | OutOfFuel => False
  end.

(** Every pending node of the subtree has had its [delta] member
    assigned. *)
Fixpoint node_ok {T : Type} (n : node_t T) : Prop :=
  match n with
  | NULL => True
  | Node _ dl p ch0 ch1 ch2 ch3 =>
      (p = true -> dl <> None)
      /\ node_ok ch0 /\ node_ok ch1 /\ node_ok ch2 /\ node_ok ch3
  end.

Definition children_ok {T : Type} (n : node_t T) : Prop :=
  match n with
  | NULL => True
  | Node _ _ _ ch0 ch1 ch2 ch3 =>
      node_ok ch0 /\ node_ok ch1 /\ node_ok ch2 /\ node_ok ch3
  end.

(** As long as no update has assigned the [delta] member of the tree,
    the tree has no node. *)
Definition tree_ok {T : Type} (t : quadtree T) : Prop :=
  node_ok (root t) /\ (delta t = None -> root t = NULL).

(** The trees a program can hold: what the constructor returns and what
    completed public calls leave behind. *)
Inductive reachable {T : Type} (P : Policy T) : quadtree T -> Prop :=
| reach_construct (v : T) : reachable P (construct v)
| reach_update (t t' : quadtree T) (r1 c1 r2 c2 : Z) (d : T) :
    reachable P t -> update P t r1 c1 r2 c2 d = Ok t' -> reachable P t'
| reach_query (t t' : quadtree T) (r1 c1 r2 c2 : Z) (v : T) :
    reachable P t -> query P t r1 c1 r2 c2 = Ok (t', v) -> reachable P t'.

(** One side [lo..hi] of a rectangle met by the descent from the root:
    within the bounds, and either non-empty or the empty range
    [hi+1..hi] that splitting a single row or column leaves. *)
Definition wf_side (lo hi : Z) : Prop :=
  0 <= lo /\ 0 <= hi /\ lo <= hi + 1 /\ hi <= 1000000000.

(** The side has at most [2^k] cells. *)
Definition fits_side (k : nat) (lo hi : Z) : Prop :=
  hi - lo + 1 <= 2 ^ Z.of_nat k.

(** ** Histories of public calls *)

Inductive op (T : Type) : Type :=
| Update (r1 c1 r2 c2 : Z) (d : T)
| Query (r1 c1 r2 c2 : Z).

Arguments Update {T} r1 c1 r2 c2 d.
Arguments Query {T} r1 c1 r2 c2.

(** The calls of a history, one after the other, on the same tree. *)
Fixpoint run {T : Type} (P : Policy T) (t : quadtree T) (ops : list (op T))
  : result (quadtree T) :=
  match ops with
  | [] => Ok t
  | Update r1 c1 r2 c2 d :: ops' =>
      t' <- update P t r1 c1 r2 c2 d ;; run P t' ops'
  | Query r1 c1 r2 c2 :: ops' =>
      ' (t', _) <- query P t r1 c1 r2 c2 ;; run P t' ops'
  end.

(** Two rectangles with no cell in common ([apart_iff_no_common_cell]). *)
Definition apart (u q : target) : Prop :=
  tgt_r2 u < tgt_r1 q \/ tgt_r2 q < tgt_r1 u
  \/ tgt_c2 u < tgt_c1 q \/ tgt_c2 q < tgt_c1 u.

(** The cell (r, c) lies in the rectangle. *)
Definition in_rect (q : target) (r c : Z) : Prop :=
  tgt_r1 q <= r <= tgt_r2 q /\ tgt_c1 q <= c <= tgt_c2 q.

(** No update of the history touches a cell of [q]. *)
Definition never_updated {T : Type} (q : target) (ops : list (op T)) : Prop :=
  Forall (fun o => match o with
                   | Update r1 c1 r2 c2 _ =>
                       apart {| tgt_r1 := r1; tgt_c1 := c1;
                                tgt_r2 := r2; tgt_c2 := c2 |} q
                   | Query _ _ _ _ => True
                   end) ops.

(** What the updates of a history that stay apart from [q] leave of the
    subtree [n] over [r1,r2]x[c1,c2]: wherever the descent of a query
    for [q] can come, no node is pending, and a node it would read still
    holds [v0]. *)
Fixpoint clean (q : target) (v0 : Z) (n : node_t Z) (r1 c1 r2 c2 : Z)
  : Prop :=
  match n with
  | NULL => True
  | Node v _ p ch0 ch1 ch2 ch3 =>
      disjoint q r1 c1 r2 c2 = true
      \/ (p = false
          /\ if contained q r1 c1 r2 c2 then v = v0
             else
               let rmid := Int.div (Int.add r1 r2) 2 in
               let cmid := Int.div (Int.add c1 c2) 2 in
               clean q v0 ch0 r1 c1 rmid cmid
               /\ clean q v0 ch1 (Int.add rmid 1) c1 r2 cmid
               /\ clean q v0 ch2 r1 (Int.add cmid 1) rmid c2
               /\ clean q v0 ch3 (Int.add rmid 1) (Int.add cmid 1) r2 c2)
  end.

(** ** The split of a rectangle *)

(** Lines 218-222 and 249-253: the rectangles that the private [update]
    and [query] hand to [child[0]], [child[1]], [child[2]] and
    [child[3]], in this order, with the midpoints as the code computes
    them. *)
Definition child_rectangles (r1 c1 r2 c2 : Z) : list (Z * Z * Z * Z) :=
  let rmid := Int.div (Int.add r1 r2) 2 in
  let cmid := Int.div (Int.add c1 c2) 2 in
  [(r1, c1, rmid, cmid);
   (Int.add rmid 1, c1, r2, cmid);
   (r1, Int.add cmid 1, rmid, c2);
   (Int.add rmid 1, Int.add cmid 1, r2, c2)].

(** Following the specification (4.2 step 5, 4.3 step 5, design notes):
    the four quadrants of [r1,r2]x[c1,c2] that the floor midpoints of
    its rows and columns cut out, under the names the specification
    gives them.  The specification gives the names no coordinates; they
    are read with the rows running from north to south and the columns
    from west to east, the way [main] prints the grid (lines 327-332:
    one row [i] per line, the columns [j] from left to right), so that
    north is the low rows and west the low columns. *)
Definition NW (r1 c1 r2 c2 : Z) : Z * Z * Z * Z :=
  (r1, c1, (r1 + r2) / 2, (c1 + c2) / 2).

Definition NE (r1 c1 r2 c2 : Z) : Z * Z * Z * Z :=
  (r1, (c1 + c2) / 2 + 1, (r1 + r2) / 2, c2).

Definition SW (r1 c1 r2 c2 : Z) : Z * Z * Z * Z :=
  ((r1 + r2) / 2 + 1, c1, r2, (c1 + c2) / 2).

Definition SE (r1 c1 r2 c2 : Z) : Z * Z * Z * Z :=
  ((r1 + r2) / 2 + 1, (c1 + c2) / 2 + 1, r2, c2).

(** Following the specification: the quadrants in the visiting order it
    names, NW, NE, SW, SE. *)
Definition quadrants_spec (r1 c1 r2 c2 : Z) : list (Z * Z * Z * Z) :=
  [NW r1 c1 r2 c2; NE r1 c1 r2 c2; SW r1 c1 r2 c2; SE r1 c1 r2 c2].

Definition on_rect {A : Type} (f : Z -> Z -> Z -> Z -> A) (q : Z * Z * Z * Z)
  : A :=
  let '(a, b, c, d) := q in f a b c d.

(** Following the specification: the ordered join of the four children's
    aggregates, the first taken as it is. *)
Definition ordered_join {T : Type} (P : Policy T) (a0 a1 a2 a3 : node_t T)
  : result T :=
  v0 <- value_of a0 ;;
  v1 <- value_of a1 ;;
  v2 <- value_of a2 ;;
  v3 <- value_of a3 ;;
  Ok (join_values P (join_values P (join_values P v0 v1) v2) v3).

(** Operations that tell the order of a join: [T] is a sequence type and
    [join_values] concatenates, which is associative and not
    commutative; updates "set".  With the empty sequence as [init], the
    join of any number of untouched cells is empty, which is what
    [join_region] returns. *)
Definition concatenation : Policy (list Z) := {|
  join_values := fun a b => a ++ b;
  join_region := fun v _ => v;
  join_value_with_delta := fun _ d _ => d;
  join_deltas := fun _ d2 => d2
|}.

(** The grid whose rows 0 and 1 are [1 2] and [3 4] in the columns 0
    and 1, all other cells empty. *)
Definition two_by_two : result (quadtree (list Z)) :=
  t <- update_point concatenation (construct []) 0 0 [1] ;;
  t <- update_point concatenation t 0 1 [2] ;;
  t <- update_point concatenation t 1 0 [3] ;;
  update_point concatenation t 1 1 [4].

(** The same four values in the rows 1 and 2, columns 1 and 2: the cells
    around the centre of the node over [0,3]x[0,3], one in each of its
    children. *)
Definition around_centre : result (quadtree (list Z)) :=
  t <- update_point concatenation (construct []) 1 1 [1] ;;
  t <- update_point concatenation t 1 2 [2] ;;
  t <- update_point concatenation t 2 1 [3] ;;
  update_point concatenation t 2 2 [4].

(** The ordered join of the answers to the queries over the rectangles
    [qs], the first taken as it is. *)
Fixpoint join_queries {T : Type} (P : Policy T) (t : quadtree T)
         (qs : list (Z * Z * Z * Z)) (res : option T) : result (option T) :=
  match qs with
  | [] => Ok res
  | q :: qs' =>
      ' (t', v) <- on_rect (query P t) q ;;
      join_queries P t' qs' (accumulate P res v)
  end.

(** ** Teardown and shape of the tree *)

(** [clean_up(node_t *n)], lines 256-264: the number of [delete]
    statements it executes, the children being freed before their
    parent. *)
Fixpoint clean_up {T : Type} (n : node_t T) : nat :=
  match n with
  | NULL => 0
  | Node _ _ _ ch0 ch1 ch2 ch3 =>
      clean_up ch0 + clean_up ch1 + clean_up ch2 + clean_up ch3 + 1
  end.

(** [~quadtree()], lines 272-274. *)
Definition destroy {T : Type} (t : quadtree T) : nat := clean_up (root t).

(** Every node of [n] is still there, at the same place, in [n']. *)
Fixpoint extends {T : Type} (n n' : node_t T) : Prop :=
  match n, n' with
  | NULL, _ => True
  | Node _ _ _ _ _ _ _, NULL => False
  | Node _ _ _ ch0 ch1 ch2 ch3, Node _ _ _ b0 b1 b2 b3 =>
      extends ch0 b0 /\ extends ch1 b1 /\ extends ch2 b2 /\ extends ch3 b3
  end.

(** Number of levels of the subtree. *)
Fixpoint height {T : Type} (n : node_t T) : nat :=
  match n with
  | NULL => 0
  | Node _ _ _ ch0 ch1 ch2 ch3 =>
      S (Nat.max (Nat.max (height ch0) (height ch1))
                 (Nat.max (height ch2) (height ch3)))
  end.

(** No node of the subtree carries a deferred delta. *)
Fixpoint no_pending {T : Type} (n : node_t T) : Prop :=
  match n with
  | NULL => True
  | Node _ _ p ch0 ch1 ch2 ch3 =>
      p = false
      /\ no_pending ch0 /\ no_pending ch1 /\ no_pending ch2 /\ no_pending ch3
  end.

(** The target of the point forms [update(r, c, d)] and [at(r, c)]. *)
Definition point (r c : Z) : target :=
  {| tgt_r1 := r; tgt_c1 := c; tgt_r2 := r; tgt_c2 := c |}.

(** ** Reading back what an update wrote *)

(** [n] is a node with a deferred delta. *)
Definition pending_node {T : Type} (n : node_t T) : Prop :=
  exists v dl ch0 ch1 ch2 ch3, n = Node v dl true ch0 ch1 ch2 ch3.

(** What resolving a pending node with the delta [d] of a "set" update
    leaves, [area] being the area of its rectangle as the code computes
    it: the value is [d], the node is not pending, and if the area
    exceeds one each child is a node with a deferred delta. *)
Definition resolved_with {T : Type} (d : T) (area : Z) (n : node_t T) : Prop :=
  exists dl b0 b1 b2 b3,
    n = Node d dl false b0 b1 b2 b3
    /\ node_ok b0 /\ node_ok b1 /\ node_ok b2 /\ node_ok b3
    /\ ((1 <? area) = true ->
        pending_node b0 /\ pending_node b1 /\ pending_node b2 /\ pending_node b3).

(** While the tree's [delta] member is [d], the private query for the
    cell (pr, pc) running over [n] completes and leaves the accumulator
    alone if the rectangle does not hold the cell, and at [d] if it
    does. *)
Definition reads_to (v0 d : Z) (pr pc : Z) (fuel : nat) (n : node_t Z)
           (r1 c1 r2 c2 : Z) : Prop :=
  forall res, res = None \/ res = Some d ->
    exists n',
      query_rec stock v0 fuel (point pr pc) (Some d) n r1 c1 r2 c2 res
      = Ok (n', if disjoint (point pr pc) r1 c1 r2 c2 then res else Some d).

(** ** Trees built by point updates *)

(** What the private query collects in a subtree that has no deferred
    delta: the descent of lines 231-254 without the calls of
    [update_delta], which find nothing to resolve there. *)
Fixpoint peek (v0 : Z) (tgt : target) (n : node_t Z) (r1 c1 r2 c2 : Z)
         (res : option Z) : option Z :=
  if disjoint tgt r1 c1 r2 c2 then res
  else
    match n with
    | NULL => accumulate stock res v0
    | Node v _ _ ch0 ch1 ch2 ch3 =>
        if contained tgt r1 c1 r2 c2 then accumulate stock res v
        else
          let rmid := Int.div (Int.add r1 r2) 2 in
          let cmid := Int.div (Int.add c1 c2) 2 in
          let res := peek v0 tgt ch0 r1 c1 rmid cmid res in
          let res := peek v0 tgt ch1 (Int.add rmid 1) c1 r2 cmid res in
          let res := peek v0 tgt ch2 r1 (Int.add cmid 1) rmid c2 res in
          peek v0 tgt ch3 (Int.add rmid 1) (Int.add cmid 1) r2 c2 res
    end.

(** The array a sequence of writes (r, c, d) describes, read at (r, c):
    the last value written there, or [cur] if there is none. *)
Fixpoint written (ws : list (Z * Z * Z)) (cur : Z) (r c : Z) : Z :=
  match ws with
  | [] => cur
  | (r', c', d) :: ws' =>
      written ws' (if (r =? r') && (c =? c') then d else cur) r c
  end.

(** The calls [update(r, c, d)] for a sequence of writes. *)
Definition point_updates (ws : list (Z * Z * Z)) : list (op Z) :=
  map (fun w => match w with (r, c, d) => Update r c r c d end) ws.

(** * Strongly connected components (Kosaraju)

    A shallow embedding of the first document of the source file, lines
    48-93: the recursive [DFS] and the body of [main] between reading
    the input and printing the result.  The numbers read from the input
    are the parameters of the model; vertices are [int]s, kept as [Z].
    Indexing an array or a vector out of its range, which the code does
    not check, is the failure [OutOfBounds]; exhausting the recursion
    budget is [Exhausted]. *)

Inductive outcome (A : Type) : Type :=
| Done (a : A)
| OutOfBounds
| Exhausted.

Arguments Done {A} a.
Arguments OutOfBounds {A}.
Arguments Exhausted {A}.

Definition and_then {A B : Type} (m : outcome A) (k : A -> outcome B)
  : outcome B :=
  match m with
  | Done a => k a
  | OutOfBounds => OutOfBounds
  | Exhausted => Exhausted
  end.

Notation "x <~ m ;; k" := (and_then m (fun x => k))
  (at level 61, m at next level, right associativity).

Definition MAXN : Z := 100.

(** [a[i]], read. *)
Definition get_at {A : Type} (l : list A) (i : Z) : outcome A :=
  if i <? 0 then OutOfBounds
  else match nth_error l (Z.to_nat i) with
       | Some a => Done a
       | None => OutOfBounds
       end.

Fixpoint set_nth {A : Type} (l : list A) (n : nat) (a : A) : option (list A) :=
  match l, n with
  | [], _ => None
  | _ :: l', O => Some (a :: l')
  | x :: l', S n' =>
      match set_nth l' n' a with
      | Some l'' => Some (x :: l'')
      | None => None
      end
  end.

(** [a[i] = x]. *)
Definition set_at {A : Type} (l : list A) (i : Z) (a : A) : outcome (list A) :=
  if i <? 0 then OutOfBounds
  else match set_nth l (Z.to_nat i) a with
       | Some l' => Done l'
       | None => OutOfBounds
       end.

(** The loop of lines 61-63 over [graph[i]], [dfs] being the recursive
    call. *)
Fixpoint visit_all (dfs : list bool -> list Z -> Z -> outcome (list bool * list Z))
         (js : list Z) (vis : list bool) (res : list Z)
  : outcome (list bool * list Z) :=
  match js with
  | [] => Done (vis, res)
  | j :: js' =>
      v <~ get_at vis j ;;
      st <~ (if v then Done (vis, res) else dfs vis res j) ;;
      visit_all dfs js' (fst st) (snd st)
  end.

(** [DFS(vector<int> graph[], vector<int> &res, int i)], lines 59-65;
    the global [vis] is threaded through. *)
Fixpoint DFS (fuel : nat) (graph : list (list Z)) (vis : list bool)
         (res : list Z) (i : Z) {struct fuel} : outcome (list bool * list Z) :=
  match fuel with
  | O => Exhausted
  | S fuel' =>
      vis <~ set_at vis i true ;;
      gi <~ get_at graph i ;;
      st <~ visit_all (DFS fuel' graph) gi vis res ;;
      Done (fst st, snd st ++ [i])
  end.

(** The values [0, 1, .., n-1] of a loop [for (int i = 0; i < n; i++)]. *)
Definition range (n : Z) : list Z := map Z.of_nat (seq 0 (Z.to_nat n)).

(** Recursion budget of the calls of [DFS] made by [main]: a call marks
    a vertex that was not marked, and [vis] has [MAXN] entries. *)
Definition dfs_fuel : nat := S (Z.to_nat MAXN).

(** Lines 69-72: [adj[a].push_back(b)] for each edge read. *)
Fixpoint read_edges (es : list (Z * Z)) (adj : list (list Z))
  : outcome (list (list Z)) :=
  match es with
  | [] => Done adj
  | (a, b) :: es' =>
      l <~ get_at adj a ;;
      adj <~ set_at adj a (l ++ [b]) ;;
      read_edges es' adj
  end.

(** Lines 73-74. *)
Fixpoint first_pass (vs : list Z) (adj : list (list Z)) (vis : list bool)
         (order : list Z) : outcome (list bool * list Z) :=
  match vs with
  | [] => Done (vis, order)
  | i :: vs' =>
      v <~ get_at vis i ;;
      st <~ (if v then Done (vis, order) else DFS dfs_fuel adj vis order i) ;;
      first_pass vs' adj (fst st) (snd st)
  end.

(** The inner loop of lines 76-77: [rev[adj[i][j]].push_back(i)]. *)
Fixpoint reverse_from (i : Z) (js : list Z) (rev : list (list Z))
  : outcome (list (list Z)) :=
  match js with
  | [] => Done rev
  | j :: js' =>
      l <~ get_at rev j ;;
      rev <~ set_at rev j (l ++ [i]) ;;
      reverse_from i js' rev
  end.

(** Lines 75-77. *)
Fixpoint reverse_graph (vs : list Z) (adj rev : list (list Z))
  : outcome (list (list Z)) :=
  match vs with
  | [] => Done rev
  | i :: vs' =>
      js <~ get_at adj i ;;
      rev <~ reverse_from i js rev ;;
      reverse_graph vs' adj rev
  end.

(** Line 78. *)
Fixpoint reset_vis (vs : list Z) (vis : list bool) : outcome (list bool) :=
  match vs with
  | [] => Done vis
  | i :: vs' =>
      vis <~ set_at vis i false ;;
      reset_vis vs' vis
  end.

(** Lines 80-85. *)
Fixpoint second_pass (os : list Z) (rev : list (list Z)) (vis : list bool)
         (SCC : list (list Z)) : outcome (list bool * list (list Z)) :=
  match os with
  | [] => Done (vis, SCC)
  | o :: os' =>
      v <~ get_at vis o ;;
      if v then second_pass os' rev vis SCC
      else
        st <~ DFS dfs_fuel rev vis [] o ;;
        second_pass os' rev (fst st) (SCC ++ [snd st])
  end.

(** [main], lines 67-85, for the input [nodes], [edges] and the list of
    the [edges] pairs read: the components that lines 86-91 print. *)
Definition kosaraju (nodes : Z) (es : list (Z * Z)) : outcome (list (list Z)) :=
  let empty := repeat (@nil Z) (Z.to_nat MAXN) in
  let vis := repeat false (Z.to_nat MAXN) in
  adj <~ read_edges es empty ;;
  st <~ first_pass (range nodes) adj vis [] ;;
  rev <~ reverse_graph (range nodes) adj empty ;;
  vis <~ reset_vis (range nodes) (fst st) ;;
  st2 <~ second_pass (List.rev (snd st)) rev vis [] ;;
  Done (snd st2).

(** The sample input of the header comment, lines 24-39. *)
Definition sample_edges : list (Z * Z) :=
  [(1, 2); (2, 3); (2, 5); (2, 6); (3, 4); (3, 7); (4, 3); (4, 8);
   (5, 1); (5, 6); (6, 7); (7, 6); (8, 4); (8, 7)].

(** ** Predicates used in the statements about the graph code *)

Definition visited (vis : list bool) (x : Z) : Prop := get_at vis x = Done true.

Definition white (vis : list bool) (x : Z) : Prop := get_at vis x = Done false.

(** Number of entries of [vis] still false. *)
Definition white_count (vis : list bool) : nat := length (filter negb vis).

(** [v] occurs in [graph[u]]. *)
Definition arc (graph : list (list Z)) (u v : Z) : Prop :=
  exists l, get_at graph u = Done l /\ In v l.

(** Paths along the arcs [E], of any length. *)
Inductive path (E : Z -> Z -> Prop) : Z -> Z -> Prop :=
| path_here (x : Z) : path E x x
| path_step (x y z : Z) : E x y -> path E y z -> path E x z.

(** Each of the two vertices is reachable from the other. *)
Definition mutual (E : Z -> Z -> Prop) (x y : Z) : Prop :=
  path E x y /\ path E y x.

(** [z] occurs in [l], and [y] occurs at or before that place. *)
Definition le_pos (l : list Z) (y z : Z) : Prop :=
  exists l1 l2, l = l1 ++ z :: l2 /\ (In y l1 \/ y = z).

(** An array of [n] adjacency vectors whose entries are indices of the
    array. *)
Definition wf_graph (graph : list (list Z)) (n : nat) : Prop :=
  length graph = n
  /\ forall u l v, get_at graph u = Done l -> In v l -> 0 <= v < Z.of_nat n.

(** The state of a depth-first traversal of [graph]: [blk] lists the
    vertices whose call of [DFS] has returned, in the order of their
    return, and [stack] those whose call is still running, outermost
    first. *)
Record dfs_inv (graph : list (list Z)) (vis : list bool)
       (blk stack : list Z) : Prop := {
  inv_length : length vis = length graph;
  inv_marked : forall x, visited vis x <-> In x blk \/ In x stack;
  inv_nodup : NoDup blk;
  inv_stack_nodup : NoDup stack;
  inv_apart : forall x, In x blk -> ~ In x stack;
  inv_closed : forall x y, In x blk -> arc graph x y -> visited vis y;
  inv_order :
    forall x y, In x blk -> path (arc graph) x y ->
      (exists z, mutual (arc graph) x z /\ le_pos blk y z)
      \/ (exists g, In g stack /\ mutual (arc graph) x g)
}.

(** What a call [DFS(graph, res, i)] made in the state [vis], [blk],
    [stack] comes to: it returns, having appended to [res] the vertices
    [L] it newly reached and then [i]. *)
Definition dfs_post (graph : list (list Z)) (vis : list bool) (res : list Z)
           (blk stack : list Z) (i : Z)
           (r : outcome (list bool * list Z)) : Prop :=
  exists vis' L,
    r = Done (vis', res ++ L ++ [i])
    /\ dfs_inv graph vis' (blk ++ L ++ [i]) stack
    /\ (forall x, In x L -> path (arc graph) i x)
    /\ (white_count vis' <= white_count vis)%nat.

(** The arcs the input describes. *)
Definition edge (es : list (Z * Z)) (a b : Z) : Prop := In (a, b) es.

(** Every endpoint of every edge is a vertex [0 <= v < nodes]. *)
Definition edges_in_range (nodes : Z) (es : list (Z * Z)) : Prop :=
  forall a b, In (a, b) es -> 0 <= a < nodes /\ 0 <= b < nodes.

(** The state of the loop of lines 80-85 over the reversed [order]:
    [SCC] holds the components found so far and [suf] the part of
    [order] the loop has gone through; [G] are the arcs of the input
    graph and [radj] is the array of the reversed arcs. *)
Record scc_inv (G : Z -> Z -> Prop) (radj : list (list Z)) (order : list Z)
       (vis : list bool) (SCC : list (list Z)) (suf : list Z) : Prop := {
  sinv_dfs : dfs_inv radj vis (concat SCC) [];
  sinv_done : forall z, In z suf -> visited vis z;
  sinv_sub : forall x, In x (concat SCC) -> In x order;
  sinv_nonempty : forall C, In C SCC -> C <> [];
  sinv_class :
    forall C x y, In C SCC -> In x C -> (In y C <-> mutual G x y);
  sinv_topo :
    forall l1 l2 x y, SCC = l1 ++ l2 -> In y (concat l1) -> G x y ->
                      In x (concat l1)
}.

(** A small graph for the instances: a cycle 0, 1, 2 and an arc out of
    it to 3. *)
Definition cycle_and_tail : list (Z * Z) := [(0, 1); (1, 2); (2, 0); (2, 3)].

(** [r] is not [Exhausted], and its result, if it has one, satisfies
    [P]. *)
Definition ends_with {A : Type} (P : A -> Prop) (r : outcome A) : Prop :=
  match r with
  | Done a => P a
  | OutOfBounds => True
  | Exhausted => False
  end.

(** The graph [cycle_and_tail] as an array of adjacency vectors. *)
Definition cycle_and_tail_adj : list (list Z) := [[1]; [2]; [0; 3]; []].

(** * Properties *)

(** ** Machine integers *)

Lemma wrap_id (z : Z) : Int.in_range z -> Int.wrap z = z.
Proof.
  unfold Int.in_range, Int.min_int, Int.max_int, Int.wrap. intros H.
  rewrite Z.mod_small; lia.
Qed.

Lemma wrap_range (z : Z) : Int.in_range (Int.wrap z).
Proof.
  unfold Int.in_range, Int.min_int, Int.max_int, Int.wrap.
  pose proof (Z.mod_pos_bound (z + 2 ^ 31) (2 ^ 32) ltac:(lia)). lia.
Qed.

Lemma wrap_congruent (z : Z) : (Int.wrap z) mod 2 ^ 32 = z mod 2 ^ 32.
Proof.
  unfold Int.wrap.
  rewrite <- Zminus_mod_idemp_l, Z.mod_mod by lia.
  rewrite Zminus_mod_idemp_l. f_equal. lia.
Qed.

Lemma wrap_overflow (z : Z) : Int.max_int < z -> Int.wrap z <> z.
Proof.
  intros H E. pose proof (wrap_range z) as R. rewrite E in R.
  unfold Int.in_range in R. lia.
Qed.

(** ** The reference scenario *)

(** C3: the driver's seven updates give the grid 7 6 9 / 0 4 9 / 9 9 9
    when read cell by cell with [at]; the four queries that follow return
    6, 0, 4 and 0; and after [update(0, 500000000, 0, 500000000, -100)]
    the query over the whole plane returns -100. *)
Theorem main_reference_scenario :
  main_run = Ok ([7; 6; 9; 0; 4; 9; 9; 9; 9], [6; 0; 4; 0; -100]).
Proof. vm_compute. reflexivity. Qed.

(** ** Resolving a pending node *)

(** What lines 189-202 do to a pending node whose children are absent:
    the value and the children receive the [delta] member of the tree;
    the node's own [delta] member is carried along unread. *)
Lemma update_delta_pending_fresh_children
      {T : Type} (P : Policy T) (i d v : T) (dl : option T) (r1 c1 r2 c2 : Z) :
  let rmid := Int.div (Int.add r1 r2) 2 in
  let cmid := Int.div (Int.add c1 c2) 2 in
  let rlen := Int.add (Int.sub r2 r1) 1 in
  let clen := Int.add (Int.sub c2 c1) 1 in
  let rlen1 := Int.add (Int.sub rmid r1) 1 in
  let rlen2 := Int.sub rlen rlen1 in
  let clen1 := Int.add (Int.sub cmid c1) 1 in
  let clen2 := Int.sub clen clen1 in
  let fresh area := Node (join_region P i area) (Some d) true NULL NULL NULL NULL in
  update_delta P i (Some d) (Node v dl true NULL NULL NULL NULL) r1 c1 r2 c2
  = Ok (if 1 <? Int.mul rlen clen
        then Node (join_value_with_delta P v d (Int.mul rlen clen)) dl false
                  (fresh (Int.mul rlen1 clen1)) (fresh (Int.mul rlen2 clen1))
                  (fresh (Int.mul rlen1 clen2)) (fresh (Int.mul rlen2 clen2))
        else Node (join_value_with_delta P v d (Int.mul rlen clen)) dl false
                  NULL NULL NULL NULL).
Proof.
  cbn -[Int.mul Int.add Int.sub Int.div Z.ltb].
  destruct (1 <? _); reflexivity.
Qed.

(** C1 (fails on the code; what the code does instead): after
    [update(0,0,1,1,5)] and [update(10,10,7)] the leaf of cell (0,0), 30
    levels below the root, is pending with stored delta 5 while the
    tree's [delta] member is 7; resolving such a leaf writes 7, the
    tree's member, into its value and leaves the stored 5 unread, so
    [at(0,0)] returns 7.  Without the second update it returns 5. *)
Theorem resolve_reads_tree_delta_not_stored :
  (exists t, deferred_then_far = Ok t
             /\ delta t = Some 7
             /\ descend0 30 (root t) = Node 0 (Some 5) true NULL NULL NULL NULL)
  /\ update_delta stock 0 (Some 7) (Node 0 (Some 5) true NULL NULL NULL NULL) 0 0 0 0
     = Ok (Node 7 (Some 5) false NULL NULL NULL NULL)
  /\ (t <- deferred_then_far ;; ' (_, v) <- at_ stock t 0 0 ;; Ok v) = Ok 7
  /\ (t <- update stock (construct 0) 0 0 1 1 5 ;;
      ' (_, v) <- at_ stock t 0 0 ;; Ok v) = Ok 5.
Proof.
  split; [| split; [| split]].
  - eexists. split; [vm_compute; reflexivity |]. split; reflexivity.
  - reflexivity.
  - vm_compute. reflexivity.
  - vm_compute. reflexivity.
Qed.

(** ** Locality *)

(** C2 (fails on the code; what the code does instead): on the tree left
    by [update(0,0,1,1,5)], [query(0,0,0,0)] is 5; the rectangle
    [10,10]x[10,10] is disjoint from [0,0]x[0,0], yet after
    [update(10,10,10,10,7)] the same query is 7. *)
Theorem far_update_changes_query :
  (t <- update stock (construct 0) 0 0 1 1 5 ;;
   ' (_, v) <- query stock t 0 0 0 0 ;; Ok v) = Ok 5
  /\ (t <- update stock (construct 0) 0 0 1 1 5 ;;
      t <- update stock t 10 10 10 10 7 ;;
      ' (_, v) <- query stock t 0 0 0 0 ;; Ok v) = Ok 7.
Proof. split; vm_compute; reflexivity. Qed.

(** ** Node creation in the update recursion *)

(** What lines 206-212 build for an absent node that the target does not
    meet: the area handed to [join_region] has [c2 - r1 + 1] as its
    second factor. *)
Lemma update_rec_creates
      {T : Type} (P : Policy T) (i d : T) (fuel : nat) (tgt : target)
      (r1 c1 r2 c2 : Z) :
  disjoint tgt r1 c1 r2 c2 = true ->
  update_rec P i (S fuel) tgt d NULL r1 c1 r2 c2
  = Ok (Node (join_region P i (Int.mul (Int.add (Int.sub r2 r1) 1)
                                       (Int.add (Int.sub c2 r1) 1)))
             None false NULL NULL NULL NULL).
Proof.
  intros H. cbn -[Int.mul Int.add Int.sub Int.div]. rewrite H. reflexivity.
Qed.

(** C5 (fails on the code; what the code does instead): for the absent
    quadrant R = [500000001,1000000000]x[0,500000000] of the root, the
    node the update recursion creates has no pending delta and no
    children, but its value is [join_region(init, 0)], whatever the four
    operations: the area handed over is
    [(r2-r1+1)*(c2-r1+1) = 500000000*0], whereas [area(R)] is the product
    of the side lengths 500000000 and 500000001 (128345344 as an [int]).
    Under the "sum" operations with [init = 1] the two differ in value:
    a query over R returns 0 after a point update elsewhere, and
    128345344 on the fresh tree. *)
Theorem update_creates_with_row_offset_area :
  (forall (T : Type) (P : Policy T) (i d : T),
      update_rec P i 1
                 {| tgt_r1 := 0; tgt_c1 := 0; tgt_r2 := 0; tgt_c2 := 0 |} d
                 NULL 500000001 0 1000000000 500000000
      = Ok (Node (join_region P i 0) None false NULL NULL NULL NULL))
  /\ Int.mul (Int.add (Int.sub 1000000000 500000001) 1)
             (Int.add (Int.sub 500000000 0) 1) = 128345344
  /\ join_region sum_increment 1 0 = 0
  /\ join_region sum_increment 1 128345344 = 128345344
  /\ (t <- update_point sum_increment (construct 1) 0 0 0 ;;
      ' (_, v) <- query sum_increment t 500000001 0 1000000000 500000000 ;;
      Ok v) = Ok 0
  /\ (' (_, v) <- query sum_increment (construct 1)
                    500000001 0 1000000000 500000000 ;;
      Ok v) = Ok 128345344.
Proof.
  split; [intros; vm_compute; reflexivity |].
  repeat split; vm_compute; reflexivity.
Qed.

(** ** Null pointers *)

Lemma safe_bind {A B : Type} (okA : A -> Prop) (okB : B -> Prop)
      (m : result A) (k : A -> result B) :
  safe okA m -> (forall a, okA a -> safe okB (k a)) -> safe okB (bind m k).
Proof. destruct m; simpl; auto. Qed.

Section NullSafety.

Context {T : Type}.
Variable P : Policy T.
Variable i : T.

Lemma update_delta_area_safe (n : node_t T) (d : T) (area : Z) :
  safe is_node (update_delta_area P i n d area).
Proof.
  destruct n as [| v dl p ch0 ch1 ch2 ch3]; simpl; [exact I |].
  destruct p; simpl; [destruct dl |]; simpl; exact I.
Qed.

Lemma update_delta_safe (dlt : option T) (n : node_t T) (r1 c1 r2 c2 : Z) :
  is_node n -> safe is_node (update_delta P i dlt n r1 c1 r2 c2).
Proof.
  destruct n as [| v dl p ch0 ch1 ch2 ch3]; simpl; [tauto | intros _].
  destruct p; [| exact I]. destruct dlt as [d |]; [| exact I].
  cbv zeta. destruct (1 <? _); [| exact I].
  repeat (eapply safe_bind; [apply update_delta_area_safe | intros ? _]).
  exact I.
Qed.

Lemma join_children_nodes (found : bool) (v : T) (cs : list (node_t T)) :
  Forall is_node cs -> safe (fun _ => True) (join_children P found v cs).
Proof.
  intros H. revert found v.
  induction H as [| c cs Hc _ IH]; intros found v; simpl; [exact I |].
  destruct c; simpl in *; [contradiction | apply IH].
Qed.

Lemma update_rec_safe (fuel : nat) (tgt : target) (d : T) :
  forall (n : node_t T) (r1 c1 r2 c2 : Z),
    safe is_node (update_rec P i fuel tgt d n r1 c1 r2 c2).
Proof.
  induction fuel as [| fuel IH]; intros n r1 c1 r2 c2; [exact I |].
  cbn [update_rec].
  eapply safe_bind.
  { apply update_delta_safe. destruct n; exact I. }
  intros n2 Hn2.
  destruct (disjoint tgt r1 c1 r2 c2); [exact Hn2 |].
  destruct (contained tgt r1 c1 r2 c2).
  - destruct n2; [contradiction |]. simpl set_pending. cbn [bind].
    apply update_delta_safe. exact I.
  - destruct n2 as [| v dl p ch0 ch1 ch2 ch3]; [contradiction |].
    cbv zeta.
    eapply safe_bind; [apply IH | intros a0 H0].
    eapply safe_bind; [apply IH | intros a1 H1].
    eapply safe_bind; [apply IH | intros a2 H2].
    eapply safe_bind; [apply IH | intros a3 H3].
    eapply safe_bind; [apply join_children_nodes; repeat constructor; assumption |].
    intros; exact I.
Qed.

End NullSafety.

(** C9: the private update recursion never dereferences a null pointer
    and always leaves a node behind, whatever the budget, the target and
    the subtree it starts from; a node is created even when its rectangle
    is disjoint from the target; hence the four children handed to the
    recomputation loop of a partially overlapping node are none of them
    null, and the loop reads their values without a null dereference. *)
Theorem update_rec_materializes_children :
  forall (T : Type) (P : Policy T) (i d : T) (tgt : target),
    (forall fuel n r1 c1 r2 c2,
        safe is_node (update_rec P i fuel tgt d n r1 c1 r2 c2))
    /\ (forall fuel r1 c1 r2 c2,
           disjoint tgt r1 c1 r2 c2 = true ->
           safe (fun n => is_node n /\ n <> NULL)
                (update_rec P i (S fuel) tgt d NULL r1 c1 r2 c2)
           /\ update_rec P i (S fuel) tgt d NULL r1 c1 r2 c2 <> OutOfFuel
           /\ update_rec P i (S fuel) tgt d NULL r1 c1 r2 c2 <> Indeterminate)
    /\ (forall fuel v ch0 ch1 ch2 ch3,
           Forall (left_by_update P i fuel tgt d) [ch0; ch1; ch2; ch3] ->
           Forall (fun c => c <> NULL) [ch0; ch1; ch2; ch3]
           /\ exists v', join_children P false v [ch0; ch1; ch2; ch3] = Ok v').
Proof.
  intros T P i d tgt. split; [| split].
  - intros. apply update_rec_safe.
  - intros fuel r1 c1 r2 c2 H.
    rewrite (update_rec_creates P i d fuel tgt r1 c1 r2 c2 H).
    simpl. repeat split; discriminate.
  - intros fuel v ch0 ch1 ch2 ch3 H.
    assert (Forall is_node [ch0; ch1; ch2; ch3]) as H'.
    { eapply Forall_impl; [| exact H].
      intros c (n & r1 & c1 & r2 & c2 & E).
      pose proof (update_rec_safe P i fuel tgt d n r1 c1 r2 c2) as S.
      rewrite E in S. exact S. }
    split.
    + eapply Forall_impl; [| exact H']. intros c Hc ->. exact Hc.
    + pose proof (join_children_nodes P false v _ H') as S.
      destruct (join_children P false v [ch0; ch1; ch2; ch3]) as [v' | | |] eqn:E.
      * exists v'. reflexivity.
      * contradiction.
      * exfalso. clear S H.
        repeat match goal with
               | H : Forall _ (_ :: _) |- _ => inversion H; subst; clear H
               end.
        destruct ch0, ch1, ch2, ch3; simpl in *; try contradiction; discriminate.
      * exfalso. clear S H.
        repeat match goal with
               | H : Forall _ (_ :: _) |- _ => inversion H; subst; clear H
               end.
        destruct ch0, ch1, ch2, ch3; simpl in *; try contradiction; discriminate.
Qed.

Lemma update_rec_materializes_children_witness :
  let tgt := {| tgt_r1 := 0; tgt_c1 := 0; tgt_r2 := 0; tgt_c2 := 0 |} in
  disjoint tgt 1 0 1 0 = true
  /\ update_rec stock 0 1 tgt 5 NULL 1 0 1 0 <> OutOfFuel
  /\ safe is_node (update_rec stock 0 2 tgt 5 NULL 0 0 1 1).
Proof.
  intros tgt.
  pose proof (update_rec_materializes_children Z stock 0 5 tgt) as (H1 & H2 & _).
  split; [reflexivity |].
  split; [exact (proj1 (proj2 (H2 0%nat 1 0 1 0 eq_refl))) | apply H1].
Defined.

(** ** Termination *)

(** *** Side lengths along the descent *)

Lemma wrap_small (z : Z) : -2147483648 <= z <= 2147483647 -> Int.wrap z = z.
Proof. intros H. apply wrap_id. unfold Int.in_range, Int.min_int, Int.max_int. lia. Qed.

Lemma mid_exact (lo hi : Z) :
  wf_side lo hi -> Int.div (Int.add lo hi) 2 = (lo + hi) / 2.
Proof.
  intros (H1 & H2 & H3 & H4). unfold Int.div, Int.add.
  rewrite (wrap_small (lo + hi)) by lia.
  rewrite Z.quot_div_nonneg by lia.
  apply wrap_small.
  pose proof (Z.div_le_upper_bound (lo + hi) 2 2147483647 ltac:(lia) ltac:(lia)).
  pose proof (Z.div_pos (lo + hi) 2 ltac:(lia) ltac:(lia)). lia.
Qed.

Lemma half_bounds (a : Z) : 2 * (a / 2) <= a <= 2 * (a / 2) + 1.
Proof. pose proof (Z.div_mod a 2 ltac:(lia)). pose proof (Z.mod_pos_bound a 2 ltac:(lia)). lia. Qed.

Lemma wf_low (lo hi : Z) :
  wf_side lo hi -> wf_side lo (Int.div (Int.add lo hi) 2).
Proof.
  intros H. rewrite (mid_exact lo hi H). destruct H as (H1 & H2 & H3 & H4).
  pose proof (half_bounds (lo + hi)). unfold wf_side. lia.
Qed.

Lemma succ_mid_exact (lo hi : Z) :
  wf_side lo hi -> Int.add (Int.div (Int.add lo hi) 2) 1 = (lo + hi) / 2 + 1.
Proof.
  intros H. rewrite (mid_exact lo hi H). destruct H as (H1 & H2 & H3 & H4).
  pose proof (half_bounds (lo + hi)). unfold Int.add. apply wrap_small. lia.
Qed.

Lemma wf_high (lo hi : Z) :
  wf_side lo hi -> wf_side (Int.add (Int.div (Int.add lo hi) 2) 1) hi.
Proof.
  intros H. rewrite (succ_mid_exact lo hi H). destruct H as (H1 & H2 & H3 & H4).
  pose proof (half_bounds (lo + hi)). unfold wf_side. lia.
Qed.

Lemma fits_low (k : nat) (lo hi : Z) :
  wf_side lo hi -> fits_side (S k) lo hi ->
  fits_side k lo (Int.div (Int.add lo hi) 2).
Proof.
  intros H F. rewrite (mid_exact lo hi H). destruct H as (H1 & H2 & H3 & H4).
  unfold fits_side in *. rewrite Nat2Z.inj_succ, Z.pow_succ_r in F by lia.
  pose proof (half_bounds (lo + hi)). lia.
Qed.

Lemma fits_high (k : nat) (lo hi : Z) :
  wf_side lo hi -> fits_side (S k) lo hi ->
  fits_side k (Int.add (Int.div (Int.add lo hi) 2) 1) hi.
Proof.
  intros H F. rewrite (succ_mid_exact lo hi H). destruct H as (H1 & H2 & H3 & H4).
  unfold fits_side in *. rewrite Nat2Z.inj_succ, Z.pow_succ_r in F by lia.
  pose proof (half_bounds (lo + hi)). lia.
Qed.

Lemma fits_zero (lo hi t1 t2 : Z) :
  wf_side lo hi -> fits_side 0 lo hi ->
  (t2 <? lo) = false -> (hi <? t1) = false ->
  (t1 <=? lo) = true /\ (hi <=? t2) = true.
Proof.
  intros (H1 & H2 & H3 & H4) F A B. unfold fits_side in F. simpl in F.
  apply Z.ltb_ge in A, B. split; apply Z.leb_le; lia.
Qed.

Lemma fits_root : fits_side 30 0 1000000000.
Proof. unfold fits_side. simpl. lia. Qed.

(** *** Completion of the private operations *)

Lemma returns_bind {A B : Type} (okA : A -> Prop) (okB : B -> Prop)
      (m : result A) (k : A -> result B) :
  returns okA m -> (forall a, okA a -> returns okB (k a)) ->
  returns okB (bind m k).
Proof. destruct m; simpl; auto; contradiction. Qed.

Lemma returns_Ok {A : Type} (ok : A -> Prop) (r : result A) :
  returns ok r -> exists a, r = Ok a /\ ok a.
Proof. destruct r; simpl; intros H; try contradiction. eauto. Qed.

Lemma disjoint_false (tgt : target) (r1 c1 r2 c2 : Z) :
  disjoint tgt r1 c1 r2 c2 = false ->
  (tgt_r2 tgt <? r1) = false /\ (r2 <? tgt_r1 tgt) = false
  /\ (tgt_c2 tgt <? c1) = false /\ (c2 <? tgt_c1 tgt) = false.
Proof.
  unfold disjoint. intros H.
  repeat (apply orb_false_iff in H; destruct H as [H ?]). auto.
Qed.

Lemma small_rectangle_base_case (tgt : target) (r1 c1 r2 c2 : Z) :
  wf_side r1 r2 -> wf_side c1 c2 ->
  fits_side 0 r1 r2 -> fits_side 0 c1 c2 ->
  disjoint tgt r1 c1 r2 c2 = false -> contained tgt r1 c1 r2 c2 = true.
Proof.
  intros Wr Wc Fr Fc H.
  apply disjoint_false in H. destruct H as (A & B & C & D).
  destruct (fits_zero _ _ _ _ Wr Fr A B) as [E1 E2].
  destruct (fits_zero _ _ _ _ Wc Fc C D) as [E3 E4].
  unfold contained. rewrite E1, E2, E3, E4. reflexivity.
Qed.

Section Completion.

Context {T : Type}.
Variable P : Policy T.
Variable i : T.

Lemma update_delta_area_returns (n : node_t T) (d : T) (area : Z) :
  node_ok n -> returns node_ok (update_delta_area P i n d area).
Proof.
  destruct n as [| v dl p ch0 ch1 ch2 ch3]; simpl.
  - intros _. split; [discriminate | tauto].
  - intros (Hp & Hc). destruct p; simpl.
    + destruct dl; [| exfalso; apply Hp; reflexivity].
      simpl. split; [discriminate | exact Hc].
    + split; [discriminate | exact Hc].
Qed.

Lemma update_delta_returns (d : T) (n : node_t T) (r1 c1 r2 c2 : Z) :
  is_node n -> children_ok n ->
  returns (fun n' => is_node n' /\ node_ok n')
          (update_delta P i (Some d) n r1 c1 r2 c2).
Proof.
  destruct n as [| v dl p ch0 ch1 ch2 ch3]; simpl; [tauto |].
  intros _ (H0 & H1 & H2 & H3).
  destruct p; simpl; [| repeat split; auto; discriminate].
  destruct (1 <? _); simpl; [| repeat split; auto; discriminate].
  eapply returns_bind; [apply update_delta_area_returns; assumption | intros a0 K0].
  eapply returns_bind; [apply update_delta_area_returns; assumption | intros a1 K1].
  eapply returns_bind; [apply update_delta_area_returns; assumption | intros a2 K2].
  eapply returns_bind; [apply update_delta_area_returns; assumption | intros a3 K3].
  simpl. repeat split; auto; discriminate.
Qed.

Lemma node_ok_children (n : node_t T) : node_ok n -> children_ok n.
Proof. destruct n; simpl; tauto. Qed.

Lemma join_children_returns (found : bool) (v : T) (cs : list (node_t T)) :
  Forall is_node cs -> returns (fun _ => True) (join_children P found v cs).
Proof.
  intros H. revert found v.
  induction H as [| c cs Hc _ IH]; intros found v; simpl; [exact I |].
  destruct c; simpl in *; [contradiction | apply IH].
Qed.

Lemma update_rec_returns (tgt : target) (d : T) (k : nat) :
  forall (fuel : nat) (n : node_t T) (r1 c1 r2 c2 : Z),
    (k < fuel)%nat ->
    wf_side r1 r2 -> wf_side c1 c2 ->
    fits_side k r1 r2 -> fits_side k c1 c2 ->
    node_ok n ->
    returns (fun n' => is_node n' /\ node_ok n')
            (update_rec P i fuel tgt d n r1 c1 r2 c2).
Proof.
  induction k as [| k IH]; intros fuel n r1 c1 r2 c2 Hk Wr Wc Fr Fc Hn;
    (destruct fuel as [| fuel]; [lia |]); cbn [update_rec].
  - eapply returns_bind.
    { apply update_delta_returns; destruct n; simpl in *; tauto. }
    intros n2 (N2 & K2).
    destruct (disjoint tgt r1 c1 r2 c2) eqn:D; [simpl; auto |].
    rewrite (small_rectangle_base_case tgt r1 c1 r2 c2 Wr Wc Fr Fc D).
    destruct n2; [contradiction |]. simpl set_pending. cbn [bind].
    apply update_delta_returns; simpl in *; tauto.
  - eapply returns_bind.
    { apply update_delta_returns; destruct n; simpl in *; tauto. }
    intros n2 (N2 & K2).
    destruct (disjoint tgt r1 c1 r2 c2) eqn:D; [simpl; auto |].
    destruct (contained tgt r1 c1 r2 c2) eqn:C.
    + destruct n2; [contradiction |]. simpl set_pending. cbn [bind].
      apply update_delta_returns; simpl in *; tauto.
    + destruct n2 as [| v dl p ch0 ch1 ch2 ch3]; [contradiction |].
      destruct K2 as (Kp & K0 & K1 & K2 & K3). cbv zeta.
      assert (k < fuel)%nat as Hk' by lia.
      pose proof (wf_low _ _ Wr) as Wr1. pose proof (wf_high _ _ Wr) as Wr2.
      pose proof (wf_low _ _ Wc) as Wc1. pose proof (wf_high _ _ Wc) as Wc2.
      pose proof (fits_low _ _ _ Wr Fr) as Fr1.
      pose proof (fits_high _ _ _ Wr Fr) as Fr2.
      pose proof (fits_low _ _ _ Wc Fc) as Fc1.
      pose proof (fits_high _ _ _ Wc Fc) as Fc2.
      eapply returns_bind; [apply IH; assumption | intros a0 (M0 & L0)].
      eapply returns_bind; [apply IH; assumption | intros a1 (M1 & L1)].
      eapply returns_bind; [apply IH; assumption | intros a2 (M2 & L2)].
      eapply returns_bind; [apply IH; assumption | intros a3 (M3 & L3)].
      eapply returns_bind;
        [apply join_children_returns; repeat constructor; assumption |].
      intros v' _. simpl. tauto.
Qed.

End Completion.

Section QueryCompletion.

Context {T : Type}.
Variable P : Policy T.
Variable i : T.

Lemma query_rec_null (fuel : nat) (tgt : target) (dlt : option T)
      (r1 c1 r2 c2 : Z) (res : option T) :
  exists res', query_rec P i (S fuel) tgt dlt NULL r1 c1 r2 c2 res
               = Ok (NULL, res').
Proof.
  cbn [query_rec]. destruct (disjoint tgt r1 c1 r2 c2); eexists; reflexivity.
Qed.

Lemma query_rec_returns (tgt : target) (d : T) (k : nat) :
  forall (fuel : nat) (n : node_t T) (r1 c1 r2 c2 : Z) (res : option T),
    (k < fuel)%nat ->
    wf_side r1 r2 -> wf_side c1 c2 ->
    fits_side k r1 r2 -> fits_side k c1 c2 ->
    node_ok n ->
    returns (fun nr => node_ok (fst nr))
            (query_rec P i fuel tgt (Some d) n r1 c1 r2 c2 res).
Proof.
  induction k as [| k IH]; intros fuel n r1 c1 r2 c2 res Hk Wr Wc Fr Fc Hn;
    (destruct fuel as [| fuel]; [lia |]); cbn [query_rec];
    (destruct (disjoint tgt r1 c1 r2 c2) eqn:D; [exact Hn |]);
    (destruct n as [| v0 dl0 p0 b0 b1 b2 b3]; [exact I |]).
  - eapply returns_bind.
    { apply update_delta_returns; simpl in *; tauto. }
    intros n2 (N2 & K2).
    rewrite (small_rectangle_base_case tgt r1 c1 r2 c2 Wr Wc Fr Fc D).
    destruct n2; [contradiction |]. simpl. exact K2.
  - eapply returns_bind.
    { apply update_delta_returns; simpl in *; tauto. }
    intros n2 (N2 & K2).
    destruct (contained tgt r1 c1 r2 c2) eqn:C.
    + destruct n2; [contradiction |]. simpl. exact K2.
    + destruct n2 as [| v dl p ch0 ch1 ch2 ch3]; [contradiction |].
      destruct K2 as (Kp & K0 & K1 & K2 & K3). cbv zeta.
      assert (k < fuel)%nat as Hk' by lia.
      pose proof (wf_low _ _ Wr) as Wr1. pose proof (wf_high _ _ Wr) as Wr2.
      pose proof (wf_low _ _ Wc) as Wc1. pose proof (wf_high _ _ Wc) as Wc2.
      pose proof (fits_low _ _ _ Wr Fr) as Fr1.
      pose proof (fits_high _ _ _ Wr Fr) as Fr2.
      pose proof (fits_low _ _ _ Wc Fc) as Fc1.
      pose proof (fits_high _ _ _ Wc Fc) as Fc2.
      eapply returns_bind; [apply IH; assumption | intros [a0 s0] L0].
      eapply returns_bind; [apply IH; assumption | intros [a1 s1] L1].
      eapply returns_bind; [apply IH; assumption | intros [a2 s2] L2].
      eapply returns_bind; [apply IH; assumption | intros [a3 s3] L3].
      simpl in *. tauto.
Qed.

End QueryCompletion.

(** *** The public operations, unfolded once *)

Lemma update_eq {T : Type} (P : Policy T) (t : quadtree T)
      (r1 c1 r2 c2 : Z) (d : T) :
  update P t r1 c1 r2 c2 d
  = (n <- update_rec P (init t) max_depth
            {| tgt_r1 := r1; tgt_c1 := c1; tgt_r2 := r2; tgt_c2 := c2 |}
            d (root t) 0 0 MAXR MAXC ;;
     Ok {| root := n; init := init t; delta := Some d |}).
Proof. reflexivity. Qed.

Lemma query_eq {T : Type} (P : Policy T) (t : quadtree T) (r1 c1 r2 c2 : Z) :
  query P t r1 c1 r2 c2
  = (' (n, res) <-
       query_rec P (init t) max_depth
         {| tgt_r1 := r1; tgt_c1 := c1; tgt_r2 := r2; tgt_c2 := c2 |}
         (delta t) (root t) 0 0 MAXR MAXC None ;;
     Ok ({| root := n; init := init t; delta := delta t |},
         match res with
         | Some v => v
         | None =>
             join_region P (init t)
               (Int.mul (Int.add (Int.sub r2 r1) 1) (Int.add (Int.sub c2 c1) 1))
         end)).
Proof. reflexivity. Qed.

(** *** Completion of the public operations *)

Lemma wf_side_root : wf_side 0 1000000000.
Proof. unfold wf_side. lia. Qed.

Lemma update_returns {T : Type} (P : Policy T) (t : quadtree T)
      (r1 c1 r2 c2 : Z) (d : T) :
  tree_ok t -> returns tree_ok (update P t r1 c1 r2 c2 d).
Proof.
  intros [Hn _]. rewrite update_eq.
  eapply returns_bind.
  - apply (update_rec_returns P (init t) _ d 30); unfold max_depth, MAXR, MAXC;
      auto using wf_side_root, fits_root; lia.
  - intros n [Nn Kn]. simpl. split; [exact Kn | discriminate].
Qed.

Lemma query_returns {T : Type} (P : Policy T) (t : quadtree T)
      (r1 c1 r2 c2 : Z) :
  tree_ok t -> returns (fun tv => tree_ok (fst tv)) (query P t r1 c1 r2 c2).
Proof.
  intros [Hn Hd]. rewrite query_eq.
  destruct (delta t) as [d |] eqn:E.
  - eapply returns_bind.
    + apply (query_rec_returns P (init t) _ d 30); unfold max_depth, MAXR, MAXC;
        auto using wf_side_root, fits_root; lia.
    + intros [n res] Kn. simpl in *. split; [exact Kn | discriminate].
  - rewrite (Hd eq_refl). unfold max_depth.
    destruct (query_rec_null P (init t) 31
                {| tgt_r1 := r1; tgt_c1 := c1; tgt_r2 := r2; tgt_c2 := c2 |}
                None 0 0 MAXR MAXC None) as [res' ->].
    simpl. split; [exact I | reflexivity].
Qed.

Lemma reachable_ok {T : Type} (P : Policy T) (t : quadtree T) :
  reachable P t -> tree_ok t.
Proof.
  induction 1 as [v | t t' r1 c1 r2 c2 d _ IH E | t t' r1 c1 r2 c2 v _ IH E].
  - split; [exact I | reflexivity].
  - pose proof (update_returns P t r1 c1 r2 c2 d IH) as R.
    rewrite E in R. exact R.
  - pose proof (query_returns P t r1 c1 r2 c2 IH) as R.
    rewrite E in R. exact R.
Qed.

(** *** A larger budget changes nothing *)

Section FuelMonotone.

Context {T : Type}.
Variable P : Policy T.
Variable i : T.

Lemma update_rec_fuel_mono (fuel : nat) :
  forall (fuel' : nat) (tgt : target) (d : T) (n : node_t T)
         (r1 c1 r2 c2 : Z) (n' : node_t T),
    (fuel <= fuel')%nat ->
    update_rec P i fuel tgt d n r1 c1 r2 c2 = Ok n' ->
    update_rec P i fuel' tgt d n r1 c1 r2 c2 = Ok n'.
Proof.
  induction fuel as [| fuel IH]; intros fuel' tgt d n r1 c1 r2 c2 n' Hle H;
    [discriminate |].
  destruct fuel' as [| fuel']; [lia |].
  assert (fuel <= fuel')%nat as Hle' by lia.
  cbn [update_rec] in *.
  destruct (update_delta P i (Some d) _ r1 c1 r2 c2) as [n2 | | |];
    cbn [bind] in *; try discriminate.
  destruct (disjoint tgt r1 c1 r2 c2); [exact H |].
  destruct (contained tgt r1 c1 r2 c2); [exact H |].
  destruct n2 as [| v dl p ch0 ch1 ch2 ch3]; [exact H |].
  cbv zeta in *.
  repeat match type of H with
         | bind (update_rec P i fuel ?t ?d ?c ?a1 ?a2 ?a3 ?a4) _ = Ok _ =>
             let E := fresh "E" in
             destruct (update_rec P i fuel t d c a1 a2 a3 a4) eqn:E;
             cbn [bind] in H; try discriminate H;
             rewrite (IH fuel' _ _ _ _ _ _ _ _ Hle' E); cbn [bind]
         end.
  exact H.
Qed.

Lemma query_rec_fuel_mono (fuel : nat) :
  forall (fuel' : nat) (tgt : target) (dlt : option T) (n : node_t T)
         (r1 c1 r2 c2 : Z) (res : option T) (out : node_t T * option T),
    (fuel <= fuel')%nat ->
    query_rec P i fuel tgt dlt n r1 c1 r2 c2 res = Ok out ->
    query_rec P i fuel' tgt dlt n r1 c1 r2 c2 res = Ok out.
Proof.
  induction fuel as [| fuel IH];
    intros fuel' tgt dlt n r1 c1 r2 c2 res out Hle H; [discriminate |].
  destruct fuel' as [| fuel']; [lia |].
  assert (fuel <= fuel')%nat as Hle' by lia.
  cbn [query_rec] in *.
  destruct (disjoint tgt r1 c1 r2 c2); [exact H |].
  destruct n as [| v0 dl0 p0 b0 b1 b2 b3]; [exact H |].
  destruct (update_delta P i dlt _ r1 c1 r2 c2) as [n2 | | |];
    cbn [bind] in *; try discriminate.
  destruct (contained tgt r1 c1 r2 c2); [exact H |].
  destruct n2 as [| v dl p ch0 ch1 ch2 ch3]; [exact H |].
  cbv zeta in *.
  repeat match type of H with
         | bind (query_rec P i fuel ?t ?d ?c ?a1 ?a2 ?a3 ?a4 ?s) _ = Ok _ =>
             let E := fresh "E" in
             let a := fresh "a" in
             destruct (query_rec P i fuel t d c a1 a2 a3 a4 s) as [a | | |] eqn:E;
             cbn [bind] in H; try discriminate H;
             rewrite (IH fuel' _ _ _ _ _ _ _ _ _ Hle' E); cbn [bind];
             destruct a
         end.
  exact H.
Qed.

End FuelMonotone.

(** C8: on every tree a program can hold, each of the four public
    operations called with [r1 <= r2], [c1 <= c2] and all coordinates in
    [0, MAXR] x [0, MAXC] runs to completion: the descent reaches a base
    case within the budget, without a null dereference and without
    reading an unassigned member, and a larger budget gives the same
    result. *)
Theorem public_operations_complete :
  forall (T : Type) (P : Policy T) (t : quadtree T)
         (r1 c1 r2 c2 : Z) (d : T),
    reachable P t ->
    0 <= r1 <= r2 /\ r2 <= MAXR ->
    0 <= c1 <= c2 /\ c2 <= MAXC ->
    let tgt := {| tgt_r1 := r1; tgt_c1 := c1; tgt_r2 := r2; tgt_c2 := c2 |} in
    (exists t', update P t r1 c1 r2 c2 d = Ok t' /\ reachable P t')
    /\ (exists t' v, query P t r1 c1 r2 c2 = Ok (t', v) /\ reachable P t')
    /\ (exists t', update_point P t r1 c1 d = Ok t' /\ reachable P t')
    /\ (exists t' v, at_ P t r1 c1 = Ok (t', v) /\ reachable P t')
    /\ (forall fuel, (max_depth <= fuel)%nat ->
          update_rec P (init t) fuel tgt d (root t) 0 0 MAXR MAXC
          = update_rec P (init t) max_depth tgt d (root t) 0 0 MAXR MAXC)
    /\ (forall fuel, (max_depth <= fuel)%nat ->
          query_rec P (init t) fuel tgt (delta t) (root t) 0 0 MAXR MAXC None
          = query_rec P (init t) max_depth tgt (delta t) (root t)
                      0 0 MAXR MAXC None).
Proof.
  intros T P t r1 c1 r2 c2 d R _ _. cbv zeta.
  pose proof (reachable_ok P t R) as K.
  assert (forall a b c e x, exists t',
             update P t a b c e x = Ok t' /\ reachable P t') as U.
  { intros a b c e x.
    destruct (returns_Ok _ _ (update_returns P t a b c e x K)) as (t' & E & _).
    exists t'. split; [exact E | exact (reach_update P t t' a b c e x R E)]. }
  assert (forall a b c e, exists t' v,
             query P t a b c e = Ok (t', v) /\ reachable P t') as Q.
  { intros a b c e.
    destruct (returns_Ok _ _ (query_returns P t a b c e K)) as ([t' v] & E & _).
    exists t', v. split; [exact E | exact (reach_query P t t' a b c e v R E)]. }
  split; [apply U |]. split; [apply Q |].
  split; [apply U |]. split; [apply Q |]. split.
  - intros fuel Hf.
    destruct (U r1 c1 r2 c2 d) as (t' & E & _). rewrite update_eq in E.
    destruct (update_rec P (init t) max_depth _ d (root t) 0 0 MAXR MAXC)
      as [n | | |] eqn:E'; try discriminate E.
    exact (update_rec_fuel_mono P (init t) max_depth fuel _ _ _ _ _ _ _ _ Hf E').
  - intros fuel Hf.
    destruct (Q r1 c1 r2 c2) as (t' & v & E & _). rewrite query_eq in E.
    destruct (query_rec P (init t) max_depth _ (delta t) (root t)
                        0 0 MAXR MAXC None) as [n | | |] eqn:E';
      try discriminate E.
    exact (query_rec_fuel_mono P (init t) max_depth fuel _ _ _ _ _ _ _ _ _ Hf E').
Qed.

Lemma public_operations_complete_witness :
  reachable stock (construct 0)
  /\ (0 <= 0 <= 3 /\ 3 <= MAXR)
  /\ (0 <= 2 <= 2 /\ 2 <= MAXC)
  /\ (exists t', update stock (construct 0) 0 2 3 2 9 = Ok t'
                 /\ reachable stock t')
  /\ (exists t' v, query stock (construct 0) 0 2 3 2 = Ok (t', v)
                   /\ reachable stock t').
Proof.
  assert (0 <= 0 <= 3 /\ 3 <= MAXR) as Hr by (unfold MAXR; lia).
  assert (0 <= 2 <= 2 /\ 2 <= MAXC) as Hc by (unfold MAXC; lia).
  pose proof (public_operations_complete Z stock (construct 0) 0 2 3 2 9
                (reach_construct stock 0) Hr Hc) as H.
  split; [apply reach_construct |]. split; [exact Hr |]. split; [exact Hc |].
  split; [exact (proj1 H) | exact (proj1 (proj2 H))].
Defined.

(** ** Repeating an update under the stock operations *)

Lemma update_delta_Ok_shape {T : Type} (P : Policy T) (i : T)
      (dlt : option T) (n n' : node_t T) (r1 c1 r2 c2 : Z) :
  update_delta P i dlt n r1 c1 r2 c2 = Ok n' ->
  exists v dl ch0 ch1 ch2 ch3, n' = Node v dl false ch0 ch1 ch2 ch3.
Proof.
  destruct n as [| v dl p ch0 ch1 ch2 ch3]; simpl; [discriminate |].
  destruct p.
  - destruct dlt as [d |]; [| discriminate]. cbv zeta.
    destruct (1 <? _).
    + destruct (update_delta_area P i ch0 d _); cbn [bind]; try discriminate.
      destruct (update_delta_area P i ch1 d _); cbn [bind]; try discriminate.
      destruct (update_delta_area P i ch2 d _); cbn [bind]; try discriminate.
      destruct (update_delta_area P i ch3 d _); cbn [bind]; try discriminate.
      intros [= <-]. repeat eexists.
    + intros [= <-]. repeat eexists.
  - intros [= <-]. repeat eexists.
Qed.

(** Resolving a node that is not pending changes nothing. *)
Lemma update_delta_not_pending {T : Type} (P : Policy T) (i : T)
      (dlt : option T) (v : T) (dl : option T) (ch0 ch1 ch2 ch3 : node_t T)
      (r1 c1 r2 c2 : Z) :
  update_delta P i dlt (Node v dl false ch0 ch1 ch2 ch3) r1 c1 r2 c2
  = Ok (Node v dl false ch0 ch1 ch2 ch3).
Proof. reflexivity. Qed.

Lemma join_children_first {T : Type} (P : Policy T) (v w : T)
      (c : node_t T) (cs : list (node_t T)) :
  join_children P false v (c :: cs) = join_children P false w (c :: cs).
Proof. reflexivity. Qed.

Section Idempotence.

Variable i : Z.

Lemma update_delta_area_idem (n n' : node_t Z) (d area : Z) :
  update_delta_area stock i n d area = Ok n' ->
  update_delta_area stock i n' d area = Ok n'.
Proof.
  destruct n as [| v dl p ch0 ch1 ch2 ch3]; simpl.
  - intros [= <-]. reflexivity.
  - destruct p; simpl.
    + destruct dl; simpl; [| discriminate]. intros [= <-]. reflexivity.
    + intros [= <-]. reflexivity.
Qed.

Lemma update_delta_contained_idem (d v : Z) (dl : option Z)
      (ch0 ch1 ch2 ch3 : node_t Z) (r1 c1 r2 c2 : Z)
      (v' : Z) (dl' : option Z) (p' : bool) (b0 b1 b2 b3 : node_t Z) :
  update_delta stock i (Some d) (Node v dl true ch0 ch1 ch2 ch3) r1 c1 r2 c2
  = Ok (Node v' dl' p' b0 b1 b2 b3) ->
  update_delta stock i (Some d) (Node v' dl' true b0 b1 b2 b3) r1 c1 r2 c2
  = Ok (Node v' dl' p' b0 b1 b2 b3).
Proof.
  cbn -[Int.mul Int.add Int.sub Int.div Z.ltb update_delta_area].
  destruct (1 <? _).
  - destruct (update_delta_area stock i ch0 d _) as [a0 | | |] eqn:E0;
      cbn [bind]; try discriminate.
    destruct (update_delta_area stock i ch1 d _) as [a1 | | |] eqn:E1;
      cbn [bind]; try discriminate.
    destruct (update_delta_area stock i ch2 d _) as [a2 | | |] eqn:E2;
      cbn [bind]; try discriminate.
    destruct (update_delta_area stock i ch3 d _) as [a3 | | |] eqn:E3;
      cbn [bind]; try discriminate.
    intros [= <- <- <- <- <- <- <-].
    rewrite (update_delta_area_idem _ _ _ _ E0). cbn [bind].
    rewrite (update_delta_area_idem _ _ _ _ E1). cbn [bind].
    rewrite (update_delta_area_idem _ _ _ _ E2). cbn [bind].
    rewrite (update_delta_area_idem _ _ _ _ E3). cbn [bind].
    reflexivity.
  - intros [= <- <- <- <- <- <- <-]. reflexivity.
Qed.

Lemma update_rec_idem (fuel : nat) :
  forall (tgt : target) (d : Z) (n n' : node_t Z) (r1 c1 r2 c2 : Z),
    update_rec stock i fuel tgt d n r1 c1 r2 c2 = Ok n' ->
    update_rec stock i fuel tgt d n' r1 c1 r2 c2 = Ok n'.
Proof.
  induction fuel as [| fuel IH]; intros tgt d n n' r1 c1 r2 c2 H;
    [discriminate |].
  cbn [update_rec] in H.
  destruct (update_delta stock i (Some d) _ r1 c1 r2 c2) as [n2 | | |] eqn:E2;
    cbn [bind] in H; try discriminate.
  destruct (update_delta_Ok_shape _ _ _ _ _ _ _ _ _ E2)
    as (v & dl & ch0 & ch1 & ch2 & ch3 & ->).
  clear E2.
  destruct (disjoint tgt r1 c1 r2 c2) eqn:D.
  { injection H as <-. cbn [update_rec].
    rewrite update_delta_not_pending. cbn [bind].
    rewrite D. reflexivity. }
  destruct (contained tgt r1 c1 r2 c2) eqn:C.
  { cbn [set_pending bind] in H.
    destruct (update_delta_Ok_shape _ _ _ _ _ _ _ _ _ H)
      as (v' & dl' & b0 & b1 & b2 & b3 & ->).
    cbn [update_rec].
    rewrite update_delta_not_pending. cbn [bind]. rewrite D, C.
    cbn [set_pending bind].
    apply (update_delta_contained_idem _ _ _ _ _ _ _ _ _ _ _ _ _ _ _ _ _ _ H). }
  cbv zeta in H.
  destruct (update_rec stock i fuel tgt d ch0 _ _ _ _) as [a0 | | |] eqn:E0;
    cbn [bind] in H; try discriminate.
  destruct (update_rec stock i fuel tgt d ch1 _ _ _ _) as [a1 | | |] eqn:E1;
    cbn [bind] in H; try discriminate.
  destruct (update_rec stock i fuel tgt d ch2 _ _ _ _) as [a2 | | |] eqn:E3;
    cbn [bind] in H; try discriminate.
  destruct (update_rec stock i fuel tgt d ch3 _ _ _ _) as [a3 | | |] eqn:E4;
    cbn [bind] in H; try discriminate.
  destruct (join_children stock false v [a0; a1; a2; a3]) as [v' | | |] eqn:J;
    cbn [bind] in H; try discriminate.
  injection H as <-. cbn [update_rec].
  rewrite update_delta_not_pending. cbn [bind]. rewrite D, C. cbv zeta.
  rewrite (IH _ _ _ _ _ _ _ _ E0). cbn [bind].
  rewrite (IH _ _ _ _ _ _ _ _ E1). cbn [bind].
  rewrite (IH _ _ _ _ _ _ _ _ E3). cbn [bind].
  rewrite (IH _ _ _ _ _ _ _ _ E4). cbn [bind].
  rewrite (join_children_first stock v' v), J. reflexivity.
Qed.

End Idempotence.

Lemma update_idem (t t1 : quadtree Z) (r1 c1 r2 c2 d : Z) :
  update stock t r1 c1 r2 c2 d = Ok t1 ->
  update stock t1 r1 c1 r2 c2 d = Ok t1.
Proof.
  rewrite (update_eq stock t), (update_eq stock t1). intros H.
  destruct (update_rec stock (init t) max_depth _ d (root t) 0 0 MAXR MAXC)
    as [n | | |] eqn:E; cbn [bind] in H; try discriminate.
  injection H as <-. cbn [root init].
  rewrite (update_rec_idem _ _ _ _ _ _ _ _ _ _ E). reflexivity.
Qed.

(** C7: under the stock "set" operations, on every tree a program can
    hold, a rectangle update completes, and performing the same update
    once more leaves exactly the same tree; so every query that follows
    the repeated update returns what it returns after the single one, and
    leaves the same tree again.  The point form is the rectangle form
    with [r1 = r2] and [c1 = c2]. *)
Theorem repeated_update_idempotent :
  forall (t : quadtree Z) (r1 c1 r2 c2 d : Z),
    reachable stock t ->
    (exists t1,
        update stock t r1 c1 r2 c2 d = Ok t1
        /\ (t' <- update stock t r1 c1 r2 c2 d ;; update stock t' r1 c1 r2 c2 d)
           = Ok t1
        /\ forall q1 q2 q3 q4,
            (t' <- update stock t r1 c1 r2 c2 d ;;
             t'' <- update stock t' r1 c1 r2 c2 d ;;
             query stock t'' q1 q2 q3 q4)
            = (t' <- update stock t r1 c1 r2 c2 d ;; query stock t' q1 q2 q3 q4))
    /\ (exists t1,
           update_point stock t r1 c1 d = Ok t1
           /\ (t' <- update_point stock t r1 c1 d ;; update_point stock t' r1 c1 d)
              = Ok t1
           /\ forall q1 q2 q3 q4,
               (t' <- update_point stock t r1 c1 d ;;
                t'' <- update_point stock t' r1 c1 d ;;
                query stock t'' q1 q2 q3 q4)
               = (t' <- update_point stock t r1 c1 d ;;
                  query stock t' q1 q2 q3 q4)).
Proof.
  intros t r1 c1 r2 c2 d R.
  pose proof (reachable_ok stock t R) as K.
  assert (forall a b c e, exists t1,
             update stock t a b c e d = Ok t1
             /\ (t' <- update stock t a b c e d ;; update stock t' a b c e d)
                = Ok t1
             /\ forall q1 q2 q3 q4,
                 (t' <- update stock t a b c e d ;;
                  t'' <- update stock t' a b c e d ;;
                  query stock t'' q1 q2 q3 q4)
                 = (t' <- update stock t a b c e d ;;
                    query stock t' q1 q2 q3 q4)) as U.
  { intros a b c e.
    destruct (returns_Ok _ _ (update_returns stock t a b c e d K)) as (t1 & E & _).
    exists t1. rewrite E. cbn [bind].
    rewrite (update_idem _ _ _ _ _ _ _ E). cbn [bind]. auto. }
  split; [apply U | apply (U r1 c1 r1 c1)].
Qed.

Lemma repeated_update_idempotent_witness :
  reachable stock (construct 0)
  /\ exists t1,
      update stock (construct 0) 0 2 3 2 9 = Ok t1
      /\ (t' <- update stock (construct 0) 0 2 3 2 9 ;; update stock t' 0 2 3 2 9)
         = Ok t1.
Proof.
  split; [apply reach_construct |].
  destruct (proj1 (repeated_update_idempotent (construct 0) 0 2 3 2 9
                     (reach_construct stock 0))) as (t1 & E1 & E2 & _).
  exists t1. split; assumption.
Defined.

(** ** Regions no update has touched *)

Lemma apart_iff_no_common_cell (u q : target) :
  tgt_r1 u <= tgt_r2 u -> tgt_c1 u <= tgt_c2 u ->
  tgt_r1 q <= tgt_r2 q -> tgt_c1 q <= tgt_c2 q ->
  apart u q <-> (forall r c, in_rect u r c -> in_rect q r c -> False).
Proof.
  unfold apart, in_rect. intros Hu1 Hu2 Hq1 Hq2. split.
  - intros H r c Hu Hq. lia.
  - intros H.
    destruct (Z_lt_dec (tgt_r2 u) (tgt_r1 q)); [tauto |].
    destruct (Z_lt_dec (tgt_r2 q) (tgt_r1 u)); [tauto |].
    destruct (Z_lt_dec (tgt_c2 u) (tgt_c1 q)); [tauto |].
    destruct (Z_lt_dec (tgt_c2 q) (tgt_c1 u)); [tauto |].
    exfalso.
    apply (H (Z.max (tgt_r1 u) (tgt_r1 q)) (Z.max (tgt_c1 u) (tgt_c1 q))); lia.
Qed.

Lemma contained_true (tgt : target) (r1 c1 r2 c2 : Z) :
  contained tgt r1 c1 r2 c2 = true ->
  tgt_r1 tgt <= r1 /\ r2 <= tgt_r2 tgt /\ tgt_c1 tgt <= c1 /\ c2 <= tgt_c2 tgt.
Proof.
  unfold contained. intros H.
  repeat (apply andb_true_iff in H; destruct H as [H ?]).
  repeat split; apply Z.leb_le; assumption.
Qed.

Lemma disjoint_false_le (tgt : target) (r1 c1 r2 c2 : Z) :
  disjoint tgt r1 c1 r2 c2 = false ->
  r1 <= tgt_r2 tgt /\ tgt_r1 tgt <= r2 /\ c1 <= tgt_c2 tgt /\ tgt_c1 tgt <= c2.
Proof.
  intros H. apply disjoint_false in H. destruct H as (A & B & C & D).
  apply Z.ltb_ge in A, B, C, D. auto.
Qed.

Lemma disjoint_true_intro (tgt : target) (r1 c1 r2 c2 : Z) :
  tgt_r2 tgt < r1 \/ r2 < tgt_r1 tgt \/ tgt_c2 tgt < c1 \/ c2 < tgt_c1 tgt ->
  disjoint tgt r1 c1 r2 c2 = true.
Proof.
  unfold disjoint. intros H.
  destruct H as [H | [H | [H | H]]]; apply Z.ltb_lt in H; rewrite H;
    rewrite ?orb_true_r; reflexivity.
Qed.

(** A node that the query for [q] can reach is never inside an update
    that stays apart from [q]. *)
Lemma apart_not_contained (u q : target) (r1 c1 r2 c2 : Z) :
  apart u q -> disjoint q r1 c1 r2 c2 = false ->
  contained u r1 c1 r2 c2 = false.
Proof.
  intros A D. destruct (contained u r1 c1 r2 c2) eqn:C; [| reflexivity].
  apply contained_true in C. apply disjoint_false_le in D.
  unfold apart in A. lia.
Qed.

(** A node that the query for [q] would read is skipped by an update
    that stays apart from [q]. *)
Lemma apart_contained_disjoint (u q : target) (r1 c1 r2 c2 : Z) :
  apart u q -> contained q r1 c1 r2 c2 = true ->
  disjoint u r1 c1 r2 c2 = true.
Proof.
  intros A C. apply contained_true in C. apply disjoint_true_intro.
  unfold apart in A. lia.
Qed.

Section Untouched.

Variable q : target.
Variable v0 : Z.

Lemma clean_disjoint (n : node_t Z) (r1 c1 r2 c2 : Z) :
  disjoint q r1 c1 r2 c2 = true -> clean q v0 n r1 c1 r2 c2.
Proof. destruct n; simpl; auto. Qed.

Lemma update_rec_clean (fuel : nat) :
  forall (u : target) (d : Z) (n n' : node_t Z) (r1 c1 r2 c2 : Z),
    apart u q ->
    clean q v0 n r1 c1 r2 c2 ->
    update_rec stock v0 fuel u d n r1 c1 r2 c2 = Ok n' ->
    clean q v0 n' r1 c1 r2 c2.
Proof.
  induction fuel as [| fuel IH]; intros u d n n' r1 c1 r2 c2 A K H;
    [discriminate |].
  destruct (disjoint q r1 c1 r2 c2) eqn:Dq; [apply clean_disjoint; exact Dq |].
  cbn [update_rec] in H.
  set (n1 := match n with
             | NULL => new_node_t _
             | _ => n
             end) in H.
  assert (exists v dl ch0 ch1 ch2 ch3,
             n1 = Node v dl false ch0 ch1 ch2 ch3
             /\ clean q v0 n1 r1 c1 r2 c2) as (v & dl & ch0 & ch1 & ch2 & ch3 & E1 & K1).
  { subst n1. destruct n as [| v dl p ch0 ch1 ch2 ch3].
    - do 6 eexists. split; [reflexivity |].
      simpl. right. split; [reflexivity |].
      destruct (contained q r1 c1 r2 c2); simpl; tauto.
    - simpl in K. destruct K as [K | [-> K]]; [congruence |].
      do 6 eexists. split; [reflexivity |].
      simpl. right. split; [reflexivity | exact K]. }
  rewrite E1 in H, K1. clear E1 n1 K.
  rewrite update_delta_not_pending in H. cbn [bind] in H.
  destruct (disjoint u r1 c1 r2 c2) eqn:Du; [injection H as <-; exact K1 |].
  rewrite (apart_not_contained u q r1 c1 r2 c2 A Dq) in H.
  simpl in K1. destruct K1 as [K1 | [_ K1]]; [congruence |].
  destruct (contained q r1 c1 r2 c2) eqn:Cq.
  { rewrite (apart_contained_disjoint u q r1 c1 r2 c2 A Cq) in Du. discriminate. }
  cbv zeta in H, K1. destruct K1 as (K0 & K1 & K2 & K3).
  destruct (update_rec stock v0 fuel u d ch0 _ _ _ _) as [a0 | | |] eqn:E0;
    cbn [bind] in H; try discriminate.
  destruct (update_rec stock v0 fuel u d ch1 _ _ _ _) as [a1 | | |] eqn:E1;
    cbn [bind] in H; try discriminate.
  destruct (update_rec stock v0 fuel u d ch2 _ _ _ _) as [a2 | | |] eqn:E2;
    cbn [bind] in H; try discriminate.
  destruct (update_rec stock v0 fuel u d ch3 _ _ _ _) as [a3 | | |] eqn:E3;
    cbn [bind] in H; try discriminate.
  destruct (join_children stock false v [a0; a1; a2; a3]) as [v' | | |];
    cbn [bind] in H; try discriminate.
  injection H as <-. simpl. right. split; [reflexivity |].
  rewrite Cq. cbv zeta.
  repeat split; eapply IH; eauto.
Qed.

Lemma query_rec_clean (fuel : nat) :
  forall (tgt : target) (dlt : option Z) (n n' : node_t Z)
         (r1 c1 r2 c2 : Z) (res res' : option Z),
    clean q v0 n r1 c1 r2 c2 ->
    query_rec stock v0 fuel tgt dlt n r1 c1 r2 c2 res = Ok (n', res') ->
    clean q v0 n' r1 c1 r2 c2.
Proof.
  induction fuel as [| fuel IH];
    intros tgt dlt n n' r1 c1 r2 c2 res res' K H; [discriminate |].
  destruct (disjoint q r1 c1 r2 c2) eqn:Dq; [apply clean_disjoint; exact Dq |].
  cbn [query_rec] in H.
  destruct (disjoint tgt r1 c1 r2 c2); [injection H as <- <-; exact K |].
  destruct n as [| v dl p ch0 ch1 ch2 ch3]; [injection H as <- <-; exact I |].
  simpl in K. destruct K as [K | [-> K]]; [congruence |].
  rewrite update_delta_not_pending in H. cbn [bind] in H.
  destruct (contained tgt r1 c1 r2 c2).
  { cbn [value_of bind] in H. injection H as <- <-.
    simpl. right. split; [reflexivity | exact K]. }
  cbv zeta in H.
  destruct (query_rec stock v0 fuel tgt dlt ch0 _ _ _ _ _) as [[a0 s0] | | |] eqn:E0;
    cbn [bind] in H; try discriminate.
  destruct (query_rec stock v0 fuel tgt dlt ch1 _ _ _ _ _) as [[a1 s1] | | |] eqn:E1;
    cbn [bind] in H; try discriminate.
  destruct (query_rec stock v0 fuel tgt dlt ch2 _ _ _ _ _) as [[a2 s2] | | |] eqn:E2;
    cbn [bind] in H; try discriminate.
  destruct (query_rec stock v0 fuel tgt dlt ch3 _ _ _ _ _) as [[a3 s3] | | |] eqn:E3;
    cbn [bind] in H; try discriminate.
  injection H as <- <-. simpl. right. split; [reflexivity |].
  destruct (contained q r1 c1 r2 c2); [exact K |].
  cbv zeta in K. destruct K as (K0 & K1 & K2 & K3).
  repeat split; eapply IH; eauto.
Qed.

(** The query for [q] itself collects nothing but [v0]. *)
Lemma query_rec_clean_result (fuel : nat) :
  forall (dlt : option Z) (n n' : node_t Z)
         (r1 c1 r2 c2 : Z) (res res' : option Z),
    clean q v0 n r1 c1 r2 c2 ->
    (res = None \/ res = Some v0) ->
    query_rec stock v0 fuel q dlt n r1 c1 r2 c2 res = Ok (n', res') ->
    res' = None \/ res' = Some v0.
Proof.
  induction fuel as [| fuel IH];
    intros dlt n n' r1 c1 r2 c2 res res' K R H; [discriminate |].
  cbn [query_rec] in H.
  destruct (disjoint q r1 c1 r2 c2) eqn:Dq; [injection H as <- <-; exact R |].
  assert (accumulate stock res v0 = Some v0) as Acc.
  { unfold accumulate. destruct R as [-> | ->]; simpl; [reflexivity |].
    rewrite Z.min_id. reflexivity. }
  destruct n as [| v dl p ch0 ch1 ch2 ch3].
  { cbv zeta in H. simpl join_region in H. rewrite Acc in H.
    injection H as <- <-. right. reflexivity. }
  simpl in K. destruct K as [K | [-> K]]; [congruence |].
  rewrite update_delta_not_pending in H. cbn [bind] in H.
  destruct (contained q r1 c1 r2 c2).
  { cbn [value_of bind] in H. subst v. rewrite Acc in H.
    injection H as <- <-. right. reflexivity. }
  cbv zeta in H, K. destruct K as (K0 & K1 & K2 & K3).
  destruct (query_rec stock v0 fuel q dlt ch0 _ _ _ _ _) as [[a0 s0] | | |] eqn:E0;
    cbn [bind] in H; try discriminate.
  destruct (query_rec stock v0 fuel q dlt ch1 _ _ _ _ _) as [[a1 s1] | | |] eqn:E1;
    cbn [bind] in H; try discriminate.
  destruct (query_rec stock v0 fuel q dlt ch2 _ _ _ _ _) as [[a2 s2] | | |] eqn:E2;
    cbn [bind] in H; try discriminate.
  destruct (query_rec stock v0 fuel q dlt ch3 _ _ _ _ _) as [[a3 s3] | | |] eqn:E3;
    cbn [bind] in H; try discriminate.
  injection H as <- <-.
  pose proof (IH _ _ _ _ _ _ _ _ _ K0 R E0) as R0.
  pose proof (IH _ _ _ _ _ _ _ _ _ K1 R0 E1) as R1.
  pose proof (IH _ _ _ _ _ _ _ _ _ K2 R1 E2) as R2.
  exact (IH _ _ _ _ _ _ _ _ _ K3 R2 E3).
Qed.

End Untouched.

Lemma side_length_exact (lo hi : Z) :
  0 <= lo <= hi /\ hi <= 1000000000 ->
  Int.add (Int.sub hi lo) 1 = hi - lo + 1.
Proof.
  intros H. unfold Int.add, Int.sub.
  rewrite (wrap_small (hi - lo)) by lia. apply wrap_small. lia.
Qed.

Lemma update_init {T : Type} (P : Policy T) (t t' : quadtree T)
      (r1 c1 r2 c2 : Z) (d : T) :
  update P t r1 c1 r2 c2 d = Ok t' -> init t' = init t.
Proof.
  rewrite update_eq.
  destruct (update_rec P (init t) max_depth _ d (root t) 0 0 MAXR MAXC);
    cbn [bind]; try discriminate.
  intros [= <-]. reflexivity.
Qed.

Lemma query_init {T : Type} (P : Policy T) (t t' : quadtree T)
      (r1 c1 r2 c2 : Z) (v : T) :
  query P t r1 c1 r2 c2 = Ok (t', v) -> init t' = init t.
Proof.
  rewrite query_eq.
  destruct (query_rec P (init t) max_depth _ (delta t) (root t) 0 0 MAXR MAXC None)
    as [[n res] | | |]; cbn [bind]; try discriminate.
  intros [= <- _]. reflexivity.
Qed.

(** A history that never updates a cell of [q] keeps the tree clean for
    [q], and runs to completion. *)
Lemma run_clean (q : target) (ops : list (op Z)) :
  forall (t : quadtree Z),
    reachable stock t ->
    clean q (init t) (root t) 0 0 MAXR MAXC ->
    never_updated q ops ->
    exists t', run stock t ops = Ok t'
               /\ reachable stock t' /\ init t' = init t
               /\ clean q (init t') (root t') 0 0 MAXR MAXC.
Proof.
  induction ops as [| o ops IH]; intros t R K N.
  - exists t. simpl. auto.
  - inversion N as [| ? ? No N']; subst.
    destruct o as [r1 c1 r2 c2 d | r1 c1 r2 c2]; cbn [run].
    + destruct (returns_Ok _ _ (update_returns stock t r1 c1 r2 c2 d
                                  (reachable_ok stock t R))) as (t1 & E & _).
      rewrite E. cbn [bind].
      pose proof (update_init _ _ _ _ _ _ _ _ E) as I1.
      assert (clean q (init t1) (root t1) 0 0 MAXR MAXC) as K1.
      { rewrite I1. rewrite update_eq in E.
        destruct (update_rec stock (init t) max_depth _ d (root t) 0 0 MAXR MAXC)
          as [n | | |] eqn:E'; cbn [bind] in E; try discriminate.
        injection E as <-. cbn [root].
        exact (update_rec_clean q (init t) _ _ _ _ _ _ _ _ _ No K E'). }
      destruct (IH t1 (reach_update stock t t1 _ _ _ _ _ R E) K1 N')
        as (t' & E' & R' & I' & K').
      exists t'. rewrite <- I1, <- I'. auto.
    + destruct (returns_Ok _ _ (query_returns stock t r1 c1 r2 c2
                                  (reachable_ok stock t R))) as ([t1 w] & E & _).
      rewrite E. cbn [bind].
      pose proof (query_init _ _ _ _ _ _ _ _ E) as I1.
      assert (clean q (init t1) (root t1) 0 0 MAXR MAXC) as K1.
      { rewrite I1. rewrite query_eq in E.
        destruct (query_rec stock (init t) max_depth _ (delta t) (root t)
                            0 0 MAXR MAXC None)
          as [[n res] | | |] eqn:E'; cbn [bind] in E; try discriminate.
        injection E as <- _. cbn [root].
        exact (query_rec_clean q (init t) _ _ _ _ _ _ _ _ _ _ _ K E'). }
      destruct (IH t1 (reach_query stock t t1 _ _ _ _ _ R E) K1 N')
        as (t' & E' & R' & I' & K').
      exists t'. rewrite <- I1, <- I'. auto.
Qed.

Lemma query_fresh {T : Type} (P : Policy T) (v : T) (r1 c1 r2 c2 : Z) :
  0 <= r1 <= r2 /\ r2 <= MAXR ->
  0 <= c1 <= c2 /\ c2 <= MAXC ->
  query P (construct v) r1 c1 r2 c2
  = Ok (construct v,
        join_region P v (Int.mul (r2 - r1 + 1) (c2 - c1 + 1))).
Proof.
  unfold MAXR, MAXC. intros Hr Hc.
  rewrite query_eq. unfold construct, max_depth. cbn [root init delta query_rec].
  unfold disjoint. cbn [tgt_r1 tgt_c1 tgt_r2 tgt_c2].
  replace (r2 <? 0) with false by (symmetry; apply Z.ltb_ge; lia).
  replace (c2 <? 0) with false by (symmetry; apply Z.ltb_ge; lia).
  replace (MAXR <? r1) with false by (symmetry; apply Z.ltb_ge; unfold MAXR; lia).
  replace (MAXC <? c1) with false by (symmetry; apply Z.ltb_ge; unfold MAXC; lia).
  cbn [orb bind accumulate]. unfold MAXR, MAXC.
  rewrite (Z.min_r 1000000000 r2), (Z.max_r 0 r1) by lia.
  rewrite (Z.min_r 1000000000 c2), (Z.max_r 0 c1) by lia.
  rewrite !side_length_exact by lia. reflexivity.
Qed.

(** X14: a query over a rectangle within the bounds, no cell of which any
    update of the history has touched, completes and returns
    [join_region(init, A)] for the rectangle's area [A], computed as the
    [int] product [(r2-r1+1)*(c2-c1+1)]: on the freshly constructed tree
    for any choice of the four operations, and after any history of
    updates and queries for the operations the class ships with. *)
Theorem untouched_region_default :
  forall (r1 c1 r2 c2 : Z),
    0 <= r1 <= r2 /\ r2 <= MAXR ->
    0 <= c1 <= c2 /\ c2 <= MAXC ->
    let q := {| tgt_r1 := r1; tgt_c1 := c1; tgt_r2 := r2; tgt_c2 := c2 |} in
    (forall (T : Type) (P : Policy T) (v : T),
        query P (construct v) r1 c1 r2 c2
        = Ok (construct v,
              join_region P v (Int.mul (r2 - r1 + 1) (c2 - c1 + 1))))
    /\ (forall (v : Z) (ops : list (op Z)),
           never_updated q ops ->
           exists t t',
             run stock (construct v) ops = Ok t
             /\ query stock t r1 c1 r2 c2
                = Ok (t', join_region stock v
                            (Int.mul (r2 - r1 + 1) (c2 - c1 + 1)))).
Proof.
  intros r1 c1 r2 c2 Hr Hc q. split.
  - intros T P v. apply query_fresh; assumption.
  - intros v ops N.
    destruct (run_clean q ops (construct v) (reach_construct stock v) I N)
      as (t & E & R & In & K).
    cbn [init construct] in In.
    destruct (returns_Ok _ _ (query_returns stock t r1 c1 r2 c2
                                (reachable_ok stock t R))) as ([t' w] & Eq & _).
    exists t, t'. split; [exact E |]. rewrite Eq. do 2 f_equal.
    rewrite query_eq in Eq. fold q in Eq.
    destruct (query_rec stock (init t) max_depth q (delta t) (root t)
                        0 0 MAXR MAXC None) as [[n res] | | |] eqn:E';
      cbn [bind] in Eq; try discriminate.
    injection Eq as _ <-. rewrite In in *.
    destruct (query_rec_clean_result q v _ _ _ _ _ _ _ _ _ _ K (or_introl eq_refl) E')
      as [-> | ->]; reflexivity.
Qed.

Lemma untouched_region_default_witness :
  let history := [Update 0 0 1 1 5; Query 0 0 3 3; Update 7 7 7 7 2] in
  (0 <= 2 <= 3 /\ 3 <= MAXR)
  /\ (0 <= 2 <= 5 /\ 5 <= MAXC)
  /\ never_updated {| tgt_r1 := 2; tgt_c1 := 2; tgt_r2 := 3; tgt_c2 := 5 |}
                   history
  /\ exists t t',
      run stock (construct 0) history = Ok t
      /\ query stock t 2 2 3 5 = Ok (t', 0).
Proof.
  intros history.
  assert (0 <= 2 <= 3 /\ 3 <= MAXR) as Hr by (unfold MAXR; lia).
  assert (0 <= 2 <= 5 /\ 5 <= MAXC) as Hc by (unfold MAXC; lia).
  assert (never_updated
            {| tgt_r1 := 2; tgt_c1 := 2; tgt_r2 := 3; tgt_c2 := 5 |} history)
    as N.
  { repeat apply Forall_cons; try apply Forall_nil;
      try exact I; unfold apart; simpl; lia. }
  split; [exact Hr |]. split; [exact Hc |]. split; [exact N |].
  exact (proj2 (untouched_region_default 2 2 3 5 Hr Hc) 0 history N).
Defined.

(** C4 (fails on the code; what the code does): with the "sum" and
    "increment" operations of the header comment and [init = 1], after
    the single call [update(0, 0, 0)] neither [2,3]x[0,1] nor
    [0,1]x[2,3] holds an updated cell, each has area 4 and
    [join_region(init, 4)] is 4, yet the queries over them return 0 and
    8.  The update created the nodes over the two rectangles, and
    line 207 gave them the values [join_region(init, (3-2+1)*(1-2+1))]
    and [join_region(init, (1-0+1)*(3-0+1))], the column length being
    taken from [r1].  On the freshly constructed tree the same query
    returns 4. *)
Theorem untouched_region_reads_creation_area :
  let history := [Update 0 0 0 0 0] in
  never_updated {| tgt_r1 := 2; tgt_c1 := 0; tgt_r2 := 3; tgt_c2 := 1 |} history
  /\ never_updated {| tgt_r1 := 0; tgt_c1 := 2; tgt_r2 := 1; tgt_c2 := 3 |} history
  /\ join_region sum_increment 1 (Int.mul (3 - 2 + 1) (1 - 0 + 1)) = 4
  /\ join_region sum_increment 1 (Int.mul (1 - 0 + 1) (3 - 2 + 1)) = 4
  /\ (t <- run sum_increment (construct 1) history ;;
      ' (_, v) <- query sum_increment t 2 0 3 1 ;; Ok v) = Ok 0
  /\ (t <- run sum_increment (construct 1) history ;;
      ' (_, v) <- query sum_increment t 0 2 1 3 ;; Ok v) = Ok 8
  /\ (t <- update_point sum_increment (construct 1) 0 0 0 ;;
      ' (_, v) <- query sum_increment t 2 0 3 1 ;; Ok v) = Ok 0
  /\ (' (_, v) <- query sum_increment (construct 1) 2 0 3 1 ;; Ok v) = Ok 4.
Proof.
  intros history.
  split; [apply Forall_cons; [unfold apart; simpl; lia | apply Forall_nil] |].
  split; [apply Forall_cons; [unfold apart; simpl; lia | apply Forall_nil] |].
  repeat split; vm_compute; reflexivity.
Qed.

(** ** The split into quadrants *)

Lemma join_children_ordered {T : Type} (P : Policy T) (v : T)
      (a0 a1 a2 a3 : node_t T) :
  join_children P false v [a0; a1; a2; a3] = ordered_join P a0 a1 a2 a3.
Proof.
  unfold ordered_join.
  destruct a0; [reflexivity |]. destruct a1; [reflexivity |].
  destruct a2; [reflexivity |]. destruct a3; reflexivity.
Qed.

(** The rectangles of [child[0..3]] are the quadrants NW, SW, NE, SE. *)
Lemma child_rectangles_named (r1 c1 r2 c2 : Z) :
  wf_side r1 r2 -> wf_side c1 c2 ->
  child_rectangles r1 c1 r2 c2
  = [NW r1 c1 r2 c2; SW r1 c1 r2 c2; NE r1 c1 r2 c2; SE r1 c1 r2 c2].
Proof.
  intros Wr Wc. unfold child_rectangles, NW, SW, NE, SE. cbv zeta.
  rewrite !(succ_mid_exact r1 r2 Wr), !(succ_mid_exact c1 c2 Wc).
  rewrite !(mid_exact r1 r2 Wr), !(mid_exact c1 c2 Wc). reflexivity.
Qed.

(** C6 (as stated it fails on the code): the visiting order is not the
    NW, NE, SW, SE of the specification.  Already for [0,1]x[0,1] the
    rectangles of [child[0..3]] are not the quadrants in that order.
    With a join that concatenates, on the grid [1 2 / 3 4] the query
    over the four cells returns 1 3 2 4, the value the update stored in
    their node, which is the join of the cells taken in the order of
    [child[0..3]], while their join in the order NW, NE, SW, SE is
    1 2 3 4; and with the four values around the centre of [0,3]x[0,3],
    where the query itself descends, it returns 1 3 2 4 again. *)
Lemma visiting_order_is_not_NW_NE_SW_SE :
  child_rectangles 0 0 1 1 <> quadrants_spec 0 0 1 1
  /\ (t <- two_by_two ;;
      ' (_, v) <- query concatenation t 0 0 1 1 ;; Ok v) = Ok [1; 3; 2; 4]
  /\ (t <- two_by_two ;;
      join_queries concatenation t (quadrants_spec 0 0 1 1) None)
     = Ok (Some [1; 2; 3; 4])
  /\ (t <- two_by_two ;;
      join_queries concatenation t (child_rectangles 0 0 1 1) None)
     = Ok (Some [1; 3; 2; 4])
  /\ (t <- around_centre ;;
      ' (_, v) <- query concatenation t 1 1 2 2 ;; Ok v) = Ok [1; 3; 2; 4]
  /\ (t <- around_centre ;;
      join_queries concatenation t (quadrants_spec 0 0 3 3) None)
     = Ok (Some [1; 2; 3; 4]).
Proof.
  split; [vm_compute; discriminate |].
  repeat split; vm_compute; reflexivity.
Qed.

(** C6 (amended): on a rectangle that meets the target without lying
    inside it, the private update, which first creates the node when it
    is absent, and the private query at a node that exists both resolve
    the node and then descend into the same four quadrants, those the
    floor midpoints [(r1+r2)/2] and [(c1+c2)/2] cut out, in the same
    order [child[0]], [child[1]], [child[2]], [child[3]], which is
    NW, SW, NE, SE: low rows before high rows within low columns, then
    the same within high columns.  The update then stores as the node's
    value the ordered join of the four children's values in that order,
    the first child's value taken as it is, the old value playing no
    part.  The quadrants are again rectangles of the descent, so the
    same holds at every level below the root. *)
Theorem quadrants_same_split_in_child_order :
  forall (T : Type) (P : Policy T) (i d : T) (dlt : option T) (fuel : nat)
         (tgt : target) (n : node_t T) (r1 c1 r2 c2 : Z) (res : option T),
    wf_side r1 r2 -> wf_side c1 c2 ->
    disjoint tgt r1 c1 r2 c2 = false ->
    contained tgt r1 c1 r2 c2 = false ->
    let created :=
      match n with
      | NULL =>
          new_node_t
            (join_region P i
               (Int.mul (Int.add (Int.sub r2 r1) 1) (Int.add (Int.sub c2 r1) 1)))
      | _ => n
      end in
    child_rectangles r1 c1 r2 c2
    = [NW r1 c1 r2 c2; SW r1 c1 r2 c2; NE r1 c1 r2 c2; SE r1 c1 r2 c2]
    /\ update_rec P i (S fuel) tgt d n r1 c1 r2 c2
       = (n2 <- update_delta P i (Some d) created r1 c1 r2 c2 ;;
          match n2 with
          | NULL => NullDeref
          | Node v dl p ch0 ch1 ch2 ch3 =>
              a0 <- on_rect (update_rec P i fuel tgt d ch0) (NW r1 c1 r2 c2) ;;
              a1 <- on_rect (update_rec P i fuel tgt d ch1) (SW r1 c1 r2 c2) ;;
              a2 <- on_rect (update_rec P i fuel tgt d ch2) (NE r1 c1 r2 c2) ;;
              a3 <- on_rect (update_rec P i fuel tgt d ch3) (SE r1 c1 r2 c2) ;;
              v' <- ordered_join P a0 a1 a2 a3 ;;
              Ok (Node v' dl p a0 a1 a2 a3)
          end)
    /\ (is_node n ->
        query_rec P i (S fuel) tgt dlt n r1 c1 r2 c2 res
        = (n2 <- update_delta P i dlt n r1 c1 r2 c2 ;;
           match n2 with
           | NULL => NullDeref
           | Node v dl p ch0 ch1 ch2 ch3 =>
               ' (a0, s0) <- on_rect (query_rec P i fuel tgt dlt ch0)
                                     (NW r1 c1 r2 c2) res ;;
               ' (a1, s1) <- on_rect (query_rec P i fuel tgt dlt ch1)
                                     (SW r1 c1 r2 c2) s0 ;;
               ' (a2, s2) <- on_rect (query_rec P i fuel tgt dlt ch2)
                                     (NE r1 c1 r2 c2) s1 ;;
               ' (a3, s3) <- on_rect (query_rec P i fuel tgt dlt ch3)
                                     (SE r1 c1 r2 c2) s2 ;;
               Ok (Node v dl p a0 a1 a2 a3, s3)
           end))
    /\ Forall (on_rect (fun a b c e => wf_side a c /\ wf_side b e))
              (child_rectangles r1 c1 r2 c2).
Proof.
  intros T P i d dlt fuel tgt n r1 c1 r2 c2 res Wr Wc D C created.
  assert (Forall (on_rect (fun a b c e => wf_side a c /\ wf_side b e))
                 (child_rectangles r1 c1 r2 c2)) as W.
  { pose proof (wf_low _ _ Wr) as Wr1. pose proof (wf_high _ _ Wr) as Wr2.
    pose proof (wf_low _ _ Wc) as Wc1. pose proof (wf_high _ _ Wc) as Wc2.
    unfold child_rectangles. cbv zeta.
    repeat (apply Forall_cons; [split; assumption |]). apply Forall_nil. }
  split; [exact (child_rectangles_named r1 c1 r2 c2 Wr Wc) |].
  split; [| split; [| exact W]].
  - unfold NW, SW, NE, SE. cbn [on_rect].
    rewrite <- !(succ_mid_exact r1 r2 Wr), <- !(succ_mid_exact c1 c2 Wc).
    rewrite <- !(mid_exact r1 r2 Wr), <- !(mid_exact c1 c2 Wc).
    cbn [update_rec]. fold created. rewrite D, C. cbv zeta.
    reflexivity.
  - intros Hn. destruct n as [| v0 dl0 p0 b0 b1 b2 b3]; [contradiction |].
    unfold NW, SW, NE, SE. cbn [on_rect].
    rewrite <- !(succ_mid_exact r1 r2 Wr), <- !(succ_mid_exact c1 c2 Wc).
    rewrite <- !(mid_exact r1 r2 Wr), <- !(mid_exact c1 c2 Wc).
    cbn [query_rec]. rewrite D, C. cbv zeta. reflexivity.
Qed.

Lemma quadrants_same_split_in_child_order_witness :
  let tgt := {| tgt_r1 := 0; tgt_c1 := 0; tgt_r2 := 0; tgt_c2 := 0 |} in
  wf_side 0 1
  /\ disjoint tgt 0 0 1 1 = false
  /\ contained tgt 0 0 1 1 = false
  /\ update_rec stock 0 2 tgt 5 NULL 0 0 1 1
     = Ok (Node 0 None false
                (Node 5 None false NULL NULL NULL NULL)
                (Node 0 None false NULL NULL NULL NULL)
                (Node 0 None false NULL NULL NULL NULL)
                (Node 0 None false NULL NULL NULL NULL)).
Proof.
  intros tgt.
  assert (wf_side 0 1) as W by (unfold wf_side; lia).
  split; [exact W |]. split; [reflexivity |]. split; [reflexivity |].
  rewrite (proj1 (proj2 (quadrants_same_split_in_child_order
                           Z stock 0 5 None 1 tgt
                           NULL 0 0 1 1 None W W eq_refl eq_refl))).
  reflexivity.
Defined.

(** *** Empty quadrants of a single row

    The node over [29,29]x[0,1] has one row: its [child[1]] and
    [child[3]] stand for the empty row range [30,29].  The update
    recursion creates them with [init] and every later point update
    finds them disjoint from its target, yet the recomputation loop joins
    their values with those of the two cells. *)
Remark single_row_node_joins_empty_quadrants :
  (t <- update_point stock (construct 0) 29 0 5 ;;
   t <- update_point stock t 29 1 5 ;;
   ' (t, whole) <- query stock t 29 0 29 1 ;;
   ' (t, cell0) <- at_ stock t 29 0 ;;
   ' (_, cell1) <- at_ stock t 29 1 ;;
   Ok (whole, cell0, cell1)) = Ok (0, 5, 5).
Proof. vm_compute. reflexivity. Qed.

(** ** The areas handed to the operations *)

(** C10 (fails on the code at one site; what the code does): the areas are
    products in 32-bit arithmetic, so each lies in the [int] range and is
    congruent to the mathematical product modulo 2^32.  For the root
    rectangle, of (10^9+1)^2 = 1000000002000000001 cells, the area handed
    to [join_region] by a query on the fresh tree, and to [join_region]
    and [join_value_with_delta] by an update of the whole plane, is
    513381377, and the four quadrants are created with the 32-bit
    products of their side lengths.  At the node creation of the update
    recursion, however, the second factor is [c2 - r1 + 1]: for the
    quadrant [500000001,1000000000]x[0,500000000] the area handed to
    [join_region] is 0, not the product 128345344 of the side lengths
    reduced modulo 2^32. *)
Theorem area_arguments_are_int_products :
  (forall a b : Z,
      Int.in_range (Int.mul a b)
      /\ (Int.mul a b) mod 2 ^ 32 = (a * b) mod 2 ^ 32)
  /\ (MAXR - 0 + 1) * (MAXC - 0 + 1) = 1000000002000000001
  /\ Int.mul (MAXR - 0 + 1) (MAXC - 0 + 1) = 513381377
  /\ 1000000002000000001 mod 2 ^ 32 = 513381377
  /\ (forall (T : Type) (P : Policy T) (v : T),
         query P (construct v) 0 0 MAXR MAXC
         = Ok (construct v, join_region P v 513381377))
  /\ (forall (T : Type) (P : Policy T) (v d : T),
         update P (construct v) 0 0 MAXR MAXC d
         = Ok {| root :=
                   Node (join_value_with_delta P (join_region P v 513381377)
                                               d 513381377)
                        None false
                        (Node (join_region P v (Int.mul 500000001 500000001))
                              (Some d) true NULL NULL NULL NULL)
                        (Node (join_region P v (Int.mul 500000000 500000001))
                              (Some d) true NULL NULL NULL NULL)
                        (Node (join_region P v (Int.mul 500000001 500000000))
                              (Some d) true NULL NULL NULL NULL)
                        (Node (join_region P v (Int.mul 500000000 500000000))
                              (Some d) true NULL NULL NULL NULL);
                 init := v;
                 delta := Some d |})
  /\ (forall (T : Type) (P : Policy T) (v d : T),
         update_rec P v 1
                    {| tgt_r1 := 0; tgt_c1 := 0; tgt_r2 := 0; tgt_c2 := 0 |} d
                    NULL 500000001 0 1000000000 500000000
         = Ok (Node (join_region P v 0) None false NULL NULL NULL NULL))
  /\ Int.mul (1000000000 - 500000001 + 1) (500000000 - 0 + 1) = 128345344.
Proof.
  split.
  { intros a b. split; [apply wrap_range | apply wrap_congruent]. }
  split; [reflexivity |]. split; [reflexivity |]. split; [reflexivity |].
  split; [intros; vm_compute; reflexivity |].
  split; [intros; vm_compute; reflexivity |].
  split; [intros; vm_compute; reflexivity |].
  reflexivity.
Qed.

(** * Further properties of the quadtree *)

(** ** Repeating a query *)

Lemma query_rec_stable {T : Type} (P : Policy T) (i : T) (fuel : nat) :
  forall (tgt : target) (dlt : option T) (n n' : node_t T)
         (r1 c1 r2 c2 : Z) (res res' : option T),
    query_rec P i fuel tgt dlt n r1 c1 r2 c2 res = Ok (n', res') ->
    query_rec P i fuel tgt dlt n' r1 c1 r2 c2 res = Ok (n', res').
Proof.
  induction fuel as [| fuel IH];
    intros tgt dlt n n' r1 c1 r2 c2 res res' H; [discriminate |].
  cbn [query_rec] in H.
  destruct (disjoint tgt r1 c1 r2 c2) eqn:D.
  { injection H as <- <-. cbn [query_rec]. rewrite D. reflexivity. }
  destruct n as [| v0 dl0 p0 b0 b1 b2 b3].
  { injection H as <- <-. cbn [query_rec]. rewrite D. reflexivity. }
  destruct (update_delta P i dlt _ r1 c1 r2 c2) as [n2 | | |] eqn:E2;
    cbn [bind] in H; try discriminate.
  destruct (update_delta_Ok_shape _ _ _ _ _ _ _ _ _ E2)
    as (v & dl & ch0 & ch1 & ch2 & ch3 & ->).
  clear E2.
  destruct (contained tgt r1 c1 r2 c2) eqn:C.
  { cbn [value_of bind] in H. injection H as <- <-.
    cbn [query_rec]. rewrite D, update_delta_not_pending. cbn [bind].
    rewrite C. reflexivity. }
  cbv zeta in H.
  destruct (query_rec P i fuel tgt dlt ch0 _ _ _ _ _) as [[a0 s0] | | |] eqn:E0;
    cbn [bind] in H; try discriminate.
  destruct (query_rec P i fuel tgt dlt ch1 _ _ _ _ _) as [[a1 s1] | | |] eqn:E1;
    cbn [bind] in H; try discriminate.
  destruct (query_rec P i fuel tgt dlt ch2 _ _ _ _ _) as [[a2 s2] | | |] eqn:E3;
    cbn [bind] in H; try discriminate.
  destruct (query_rec P i fuel tgt dlt ch3 _ _ _ _ _) as [[a3 s3] | | |] eqn:E4;
    cbn [bind] in H; try discriminate.
  injection H as <- <-.
  cbn [query_rec]. rewrite D, update_delta_not_pending. cbn [bind].
  rewrite C. cbv zeta.
  rewrite (IH _ _ _ _ _ _ _ _ _ _ E0). cbn [bind].
  rewrite (IH _ _ _ _ _ _ _ _ _ _ E1). cbn [bind].
  rewrite (IH _ _ _ _ _ _ _ _ _ _ E3). cbn [bind].
  rewrite (IH _ _ _ _ _ _ _ _ _ _ E4). cbn [bind].
  reflexivity.
Qed.

(** X1: on every tree a program can hold, and for any choice of the four
    operations, a query completes, and the same query asked again
    returns the same value and leaves the tree exactly as the first one
    left it: what a query changes (the deferred deltas it resolves on its
    way) it changes once. *)
Theorem repeated_query_stable :
  forall (T : Type) (P : Policy T) (t : quadtree T) (r1 c1 r2 c2 : Z),
    reachable P t ->
    exists t1 v,
      query P t r1 c1 r2 c2 = Ok (t1, v)
      /\ query P t1 r1 c1 r2 c2 = Ok (t1, v).
Proof.
  intros T P t r1 c1 r2 c2 R.
  destruct (returns_Ok _ _ (query_returns P t r1 c1 r2 c2 (reachable_ok P t R)))
    as ([t1 v] & E & _).
  exists t1, v. split; [exact E |].
  rewrite (query_eq P t) in E. rewrite (query_eq P t1).
  destruct (query_rec P (init t) max_depth _ (delta t) (root t) 0 0 MAXR MAXC None)
    as [[n res] | | |] eqn:E'; cbn [bind] in E; try discriminate.
  injection E as <- <-. cbn [root init delta].
  rewrite (query_rec_stable P _ _ _ _ _ _ _ _ _ _ _ _ E'). reflexivity.
Qed.

Lemma repeated_query_stable_witness :
  exists t t1 v,
    reachable stock t
    /\ update stock (construct 0) 0 0 1 1 5 = Ok t
    /\ query stock t 0 0 0 0 = Ok (t1, v)
    /\ query stock t1 0 0 0 0 = Ok (t1, v).
Proof.
  destruct (returns_Ok _ _ (update_returns stock (construct 0) 0 0 1 1 5
                              (reachable_ok _ _ (reach_construct stock 0))))
    as (t & E & _).
  pose proof (reach_update stock _ _ _ _ _ _ _ (reach_construct stock 0) E) as R.
  destruct (repeated_query_stable Z stock t 0 0 0 0 R) as (t1 & v & E1 & E2).
  exists t, t1, v. auto.
Defined.

(** ** Nodes are never detached *)

Lemma extends_refl {T : Type} (n : node_t T) : extends n n.
Proof. induction n; simpl; auto. Qed.

Lemma extends_trans {T : Type} (a : node_t T) :
  forall b c, extends a b -> extends b c -> extends a c.
Proof.
  induction a as [| v dl p a0 IH0 a1 IH1 a2 IH2 a3 IH3]; intros b c Hab Hbc;
    [exact I |].
  destruct b as [| vb dlb pb b0 b1 b2 b3]; [contradiction |].
  destruct c as [| vc dlc pc c0 c1 c2 c3]; [contradiction |].
  simpl in *. destruct Hab as (A0 & A1 & A2 & A3).
  destruct Hbc as (B0 & B1 & B2 & B3).
  repeat split; [eapply IH0 | eapply IH1 | eapply IH2 | eapply IH3]; eassumption.
Qed.

Lemma extends_clean_up {T : Type} (n : node_t T) :
  forall n', extends n n' -> (clean_up n <= clean_up n')%nat.
Proof.
  induction n as [| v dl p a0 IH0 a1 IH1 a2 IH2 a3 IH3]; intros n' H;
    [simpl; lia |].
  destruct n' as [| v' dl' p' b0 b1 b2 b3]; [contradiction |].
  simpl in *. destruct H as (H0 & H1 & H2 & H3).
  specialize (IH0 _ H0). specialize (IH1 _ H1).
  specialize (IH2 _ H2). specialize (IH3 _ H3). lia.
Qed.

Section Extends.

Context {T : Type}.
Variable P : Policy T.
Variable i : T.

Lemma update_delta_area_extends (n n' : node_t T) (d : T) (area : Z) :
  update_delta_area P i n d area = Ok n' -> extends n n'.
Proof.
  destruct n as [| v dl p ch0 ch1 ch2 ch3]; [intros _; exact I |].
  simpl. destruct p; simpl.
  - destruct dl; simpl; [| discriminate].
    intros [= <-]. simpl. auto using extends_refl.
  - intros [= <-]. simpl. auto using extends_refl.
Qed.

Lemma update_delta_extends (dlt : option T) (n n' : node_t T)
      (r1 c1 r2 c2 : Z) :
  update_delta P i dlt n r1 c1 r2 c2 = Ok n' -> extends n n'.
Proof.
  destruct n as [| v dl p ch0 ch1 ch2 ch3]; [intros _; exact I |].
  simpl. destruct p.
  - destruct dlt as [d |]; [| discriminate]. cbv zeta.
    destruct (1 <? _).
    + destruct (update_delta_area P i ch0 d _) eqn:E0; cbn [bind]; try discriminate.
      destruct (update_delta_area P i ch1 d _) eqn:E1; cbn [bind]; try discriminate.
      destruct (update_delta_area P i ch2 d _) eqn:E2; cbn [bind]; try discriminate.
      destruct (update_delta_area P i ch3 d _) eqn:E3; cbn [bind]; try discriminate.
      intros [= <-]. simpl.
      repeat split; eapply update_delta_area_extends; eassumption.
    + intros [= <-]. simpl. auto using extends_refl.
  - intros [= <-]. simpl. auto using extends_refl.
Qed.

Lemma update_rec_extends (fuel : nat) :
  forall (tgt : target) (d : T) (n n' : node_t T) (r1 c1 r2 c2 : Z),
    update_rec P i fuel tgt d n r1 c1 r2 c2 = Ok n' -> extends n n'.
Proof.
  induction fuel as [| fuel IH]; intros tgt d n n' r1 c1 r2 c2 H;
    [discriminate |].
  cbn [update_rec] in H.
  set (n1 := match n with
             | NULL => new_node_t _
             | _ => n
             end) in H.
  assert (extends n n1) as X1.
  { subst n1. destruct n; [exact I | apply extends_refl]. }
  destruct (update_delta P i (Some d) n1 r1 c1 r2 c2) as [n2 | | |] eqn:E2;
    cbn [bind] in H; try discriminate.
  pose proof (update_delta_extends _ _ _ _ _ _ _ E2) as X2.
  apply (extends_trans _ _ _ X1). apply (extends_trans _ _ _ X2).
  destruct (disjoint tgt r1 c1 r2 c2); [injection H as <-; apply extends_refl |].
  destruct (contained tgt r1 c1 r2 c2).
  - destruct n2 as [| v dl p ch0 ch1 ch2 ch3]; [discriminate |].
    cbn [set_pending bind] in H.
    apply update_delta_extends in H. exact H.
  - destruct n2 as [| v dl p ch0 ch1 ch2 ch3]; [discriminate |].
    cbv zeta in H.
    destruct (update_rec P i fuel tgt d ch0 _ _ _ _) eqn:E0;
      cbn [bind] in H; try discriminate.
    destruct (update_rec P i fuel tgt d ch1 _ _ _ _) eqn:E1;
      cbn [bind] in H; try discriminate.
    destruct (update_rec P i fuel tgt d ch2 _ _ _ _) eqn:E3;
      cbn [bind] in H; try discriminate.
    destruct (update_rec P i fuel tgt d ch3 _ _ _ _) eqn:E4;
      cbn [bind] in H; try discriminate.
    destruct (join_children P false v _); cbn [bind] in H; try discriminate.
    injection H as <-. simpl. repeat split; eapply IH; eassumption.
Qed.

Lemma query_rec_extends (fuel : nat) :
  forall (tgt : target) (dlt : option T) (n n' : node_t T)
         (r1 c1 r2 c2 : Z) (res res' : option T),
    query_rec P i fuel tgt dlt n r1 c1 r2 c2 res = Ok (n', res') ->
    extends n n'.
Proof.
  induction fuel as [| fuel IH];
    intros tgt dlt n n' r1 c1 r2 c2 res res' H; [discriminate |].
  cbn [query_rec] in H.
  destruct (disjoint tgt r1 c1 r2 c2); [injection H as <- _; apply extends_refl |].
  destruct n as [| v0 dl0 p0 b0 b1 b2 b3]; [exact I |].
  destruct (update_delta P i dlt _ r1 c1 r2 c2) as [n2 | | |] eqn:E2;
    cbn [bind] in H; try discriminate.
  pose proof (update_delta_extends _ _ _ _ _ _ _ E2) as X2.
  apply (extends_trans _ _ _ X2).
  destruct (contained tgt r1 c1 r2 c2).
  - destruct (value_of n2); cbn [bind] in H; try discriminate.
    injection H as <- _. apply extends_refl.
  - destruct n2 as [| v dl p ch0 ch1 ch2 ch3]; [discriminate |].
    cbv zeta in H.
    destruct (query_rec P i fuel tgt dlt ch0 _ _ _ _ _) as [[a0 s0] | | |] eqn:E0;
      cbn [bind] in H; try discriminate.
    destruct (query_rec P i fuel tgt dlt ch1 _ _ _ _ _) as [[a1 s1] | | |] eqn:E1;
      cbn [bind] in H; try discriminate.
    destruct (query_rec P i fuel tgt dlt ch2 _ _ _ _ _) as [[a2 s2] | | |] eqn:E3;
      cbn [bind] in H; try discriminate.
    destruct (query_rec P i fuel tgt dlt ch3 _ _ _ _ _) as [[a3 s3] | | |] eqn:E4;
      cbn [bind] in H; try discriminate.
    injection H as <- _. simpl. repeat split; eapply IH; eassumption.
Qed.

End Extends.

(** X2: neither an update nor a query ever detaches or replaces a node:
    every node of the tree before the call is still there, at the same
    place, after it.  Nodes are freed by [clean_up] only, which frees
    each node of the tree it is given once; so the teardown after the
    call frees at least as many nodes as the teardown before it would
    have. *)
Theorem operations_never_detach_nodes :
  forall (T : Type) (P : Policy T) (t t' : quadtree T) (r1 c1 r2 c2 : Z),
    (forall d, update P t r1 c1 r2 c2 d = Ok t' ->
               extends (root t) (root t') /\ (destroy t <= destroy t')%nat)
    /\ (forall v, query P t r1 c1 r2 c2 = Ok (t', v) ->
                  extends (root t) (root t') /\ (destroy t <= destroy t')%nat).
Proof.
  intros T P t t' r1 c1 r2 c2.
  assert (extends (root t) (root t') ->
          extends (root t) (root t') /\ (destroy t <= destroy t')%nat) as K.
  { intros X. split; [exact X | apply extends_clean_up; exact X]. }
  split.
  - intros d E. apply K. rewrite update_eq in E.
    destruct (update_rec P (init t) max_depth _ d (root t) 0 0 MAXR MAXC)
      as [n | | |] eqn:E'; cbn [bind] in E; try discriminate.
    injection E as <-. cbn [root]. exact (update_rec_extends P _ _ _ _ _ _ _ _ _ _ E').
  - intros v E. apply K. rewrite query_eq in E.
    destruct (query_rec P (init t) max_depth _ (delta t) (root t) 0 0 MAXR MAXC None)
      as [[n res] | | |] eqn:E'; cbn [bind] in E; try discriminate.
    injection E as <- _. cbn [root].
    exact (query_rec_extends P _ _ _ _ _ _ _ _ _ _ _ _ E').
Qed.

Lemma operations_never_detach_nodes_witness :
  exists t t', 
    update stock (construct 0) 0 0 1 1 5 = Ok t
    /\ update stock t 3 3 3 3 7 = Ok t'
    /\ extends (root t) (root t') /\ (destroy t <= destroy t')%nat.
Proof.
  pose proof (reachable_ok _ _ (reach_construct stock 0)) as K0.
  destruct (returns_Ok _ _ (update_returns stock (construct 0) 0 0 1 1 5 K0))
    as (t & E & K).
  destruct (returns_Ok _ _ (update_returns stock t 3 3 3 3 7 K)) as (t' & E' & _).
  exists t, t'. split; [exact E |]. split; [exact E' |].
  exact (proj1 (operations_never_detach_nodes Z stock t t' 3 3 3 3) 7 E').
Defined.

(** ** Depth of the tree *)

Lemma side_length_wf (lo hi : Z) :
  wf_side lo hi -> Int.add (Int.sub hi lo) 1 = hi - lo + 1.
Proof.
  intros (H1 & H2 & H3 & H4). unfold Int.add, Int.sub.
  rewrite (wrap_small (hi - lo)) by lia. apply wrap_small. lia.
Qed.

(** A rectangle of at most one row and one column has no deferred
    delta to hand down. *)
Lemma small_rectangle_area (r1 c1 r2 c2 : Z) :
  wf_side r1 r2 -> wf_side c1 c2 ->
  fits_side 0 r1 r2 -> fits_side 0 c1 c2 ->
  (1 <? Int.mul (Int.add (Int.sub r2 r1) 1) (Int.add (Int.sub c2 c1) 1)) = false.
Proof.
  intros Wr Wc Fr Fc.
  rewrite (side_length_wf _ _ Wr), (side_length_wf _ _ Wc).
  destruct Wr as (A1 & A2 & A3 & A4). destruct Wc as (B1 & B2 & B3 & B4).
  unfold fits_side in *. simpl in Fr, Fc.
  apply Z.ltb_ge. unfold Int.mul.
  assert (r2 - r1 + 1 = 0 \/ r2 - r1 + 1 = 1) as [-> | ->] by lia;
    assert (c2 - c1 + 1 = 0 \/ c2 - c1 + 1 = 1) as [-> | ->] by lia;
    vm_compute; discriminate.
Qed.

Section Height.

Context {T : Type}.
Variable P : Policy T.
Variable i : T.

Lemma update_delta_area_height (n n' : node_t T) (d : T) (area : Z) :
  update_delta_area P i n d area = Ok n' ->
  height n' = Nat.max 1 (height n).
Proof.
  destruct n as [| v dl p ch0 ch1 ch2 ch3]; simpl.
  - intros [= <-]. reflexivity.
  - destruct p; simpl; [destruct dl; simpl; [| discriminate] |];
      intros [= <-]; simpl; lia.
Qed.

Lemma update_delta_height (k : nat) (dlt : option T) (n n' : node_t T)
      (r1 c1 r2 c2 : Z) :
  wf_side r1 r2 -> wf_side c1 c2 ->
  fits_side k r1 r2 -> fits_side k c1 c2 ->
  (height n <= S k)%nat ->
  update_delta P i dlt n r1 c1 r2 c2 = Ok n' ->
  (height n' <= S k)%nat.
Proof.
  intros Wr Wc Fr Fc Hn.
  destruct n as [| v dl p ch0 ch1 ch2 ch3]; [discriminate |].
  cbn [update_delta]. destruct p; [| intros [= <-]; exact Hn].
  destruct dlt as [d |]; [| discriminate]. cbv zeta.
  destruct (1 <? _) eqn:A; [| intros [= <-]; exact Hn].
  destruct k as [| k].
  { rewrite (small_rectangle_area _ _ _ _ Wr Wc Fr Fc) in A. discriminate. }
  destruct (update_delta_area P i ch0 d _) eqn:E0; cbn [bind]; try discriminate.
  destruct (update_delta_area P i ch1 d _) eqn:E1; cbn [bind]; try discriminate.
  destruct (update_delta_area P i ch2 d _) eqn:E2; cbn [bind]; try discriminate.
  destruct (update_delta_area P i ch3 d _) eqn:E3; cbn [bind]; try discriminate.
  intros [= <-].
  apply update_delta_area_height in E0, E1, E2, E3.
  cbn [height] in *. lia.
Qed.

Lemma update_rec_height (fuel : nat) :
  forall (k : nat) (tgt : target) (d : T) (n n' : node_t T) (r1 c1 r2 c2 : Z),
    wf_side r1 r2 -> wf_side c1 c2 ->
    fits_side k r1 r2 -> fits_side k c1 c2 ->
    (height n <= S k)%nat ->
    update_rec P i fuel tgt d n r1 c1 r2 c2 = Ok n' ->
    (height n' <= S k)%nat.
Proof.
  induction fuel as [| fuel IH];
    intros k tgt d n n' r1 c1 r2 c2 Wr Wc Fr Fc Hn H; [discriminate |].
  cbn [update_rec] in H.
  set (n1 := match n with
             | NULL => new_node_t _
             | _ => n
             end) in H.
  assert (height n1 <= S k)%nat as H1.
  { subst n1. destruct n; [simpl; lia | exact Hn]. }
  destruct (update_delta P i (Some d) n1 r1 c1 r2 c2) as [n2 | | |] eqn:E2;
    cbn [bind] in H; try discriminate.
  pose proof (update_delta_height k _ _ _ _ _ _ _ Wr Wc Fr Fc H1 E2) as H2.
  destruct (disjoint tgt r1 c1 r2 c2) eqn:D; [injection H as <-; exact H2 |].
  destruct (contained tgt r1 c1 r2 c2) eqn:C.
  - destruct n2 as [| v dl p ch0 ch1 ch2 ch3]; [discriminate |].
    cbn [set_pending bind] in H.
    exact (update_delta_height k _ (Node v dl true ch0 ch1 ch2 ch3) _ _ _ _ _
             Wr Wc Fr Fc H2 H).
  - destruct k as [| k].
    { rewrite (small_rectangle_base_case tgt _ _ _ _ Wr Wc Fr Fc D) in C.
      discriminate. }
    destruct n2 as [| v dl p ch0 ch1 ch2 ch3]; [discriminate |].
    cbv zeta in H.
    pose proof (wf_low _ _ Wr) as Wr1. pose proof (wf_high _ _ Wr) as Wr2.
    pose proof (wf_low _ _ Wc) as Wc1. pose proof (wf_high _ _ Wc) as Wc2.
    pose proof (fits_low _ _ _ Wr Fr) as Fr1.
    pose proof (fits_high _ _ _ Wr Fr) as Fr2.
    pose proof (fits_low _ _ _ Wc Fc) as Fc1.
    pose proof (fits_high _ _ _ Wc Fc) as Fc2.
    cbn [height] in H2.
    destruct (update_rec P i fuel tgt d ch0 _ _ _ _) eqn:E0;
      cbn [bind] in H; try discriminate.
    destruct (update_rec P i fuel tgt d ch1 _ _ _ _) eqn:E1;
      cbn [bind] in H; try discriminate.
    destruct (update_rec P i fuel tgt d ch2 _ _ _ _) eqn:E3;
      cbn [bind] in H; try discriminate.
    destruct (update_rec P i fuel tgt d ch3 _ _ _ _) eqn:E4;
      cbn [bind] in H; try discriminate.
    destruct (join_children P false v _); cbn [bind] in H; try discriminate.
    injection H as <-.
    apply (IH k) in E0; [| assumption .. | lia].
    apply (IH k) in E1; [| assumption .. | lia].
    apply (IH k) in E3; [| assumption .. | lia].
    apply (IH k) in E4; [| assumption .. | lia].
    cbn [height]. lia.
Qed.

Lemma query_rec_height (fuel : nat) :
  forall (k : nat) (tgt : target) (dlt : option T) (n n' : node_t T)
         (r1 c1 r2 c2 : Z) (res res' : option T),
    wf_side r1 r2 -> wf_side c1 c2 ->
    fits_side k r1 r2 -> fits_side k c1 c2 ->
    (height n <= S k)%nat ->
    query_rec P i fuel tgt dlt n r1 c1 r2 c2 res = Ok (n', res') ->
    (height n' <= S k)%nat.
Proof.
  induction fuel as [| fuel IH];
    intros k tgt dlt n n' r1 c1 r2 c2 res res' Wr Wc Fr Fc Hn H;
    [discriminate |].
  cbn [query_rec] in H.
  destruct (disjoint tgt r1 c1 r2 c2) eqn:D; [injection H as <- _; exact Hn |].
  destruct n as [| v0 dl0 p0 b0 b1 b2 b3]; [injection H as <- _; simpl; lia |].
  destruct (update_delta P i dlt _ r1 c1 r2 c2) as [n2 | | |] eqn:E2;
    cbn [bind] in H; try discriminate.
  pose proof (update_delta_height k _ _ _ _ _ _ _ Wr Wc Fr Fc Hn E2) as H2.
  destruct (contained tgt r1 c1 r2 c2) eqn:C.
  - destruct (value_of n2); cbn [bind] in H; try discriminate.
    injection H as <- _. exact H2.
  - destruct k as [| k].
    { rewrite (small_rectangle_base_case tgt _ _ _ _ Wr Wc Fr Fc D) in C.
      discriminate. }
    destruct n2 as [| v dl p ch0 ch1 ch2 ch3]; [discriminate |].
    cbv zeta in H.
    pose proof (wf_low _ _ Wr) as Wr1. pose proof (wf_high _ _ Wr) as Wr2.
    pose proof (wf_low _ _ Wc) as Wc1. pose proof (wf_high _ _ Wc) as Wc2.
    pose proof (fits_low _ _ _ Wr Fr) as Fr1.
    pose proof (fits_high _ _ _ Wr Fr) as Fr2.
    pose proof (fits_low _ _ _ Wc Fc) as Fc1.
    pose proof (fits_high _ _ _ Wc Fc) as Fc2.
    cbn [height] in H2.
    destruct (query_rec P i fuel tgt dlt ch0 _ _ _ _ _) as [[a0 s0] | | |] eqn:E0;
      cbn [bind] in H; try discriminate.
    destruct (query_rec P i fuel tgt dlt ch1 _ _ _ _ _) as [[a1 s1] | | |] eqn:E1;
      cbn [bind] in H; try discriminate.
    destruct (query_rec P i fuel tgt dlt ch2 _ _ _ _ _) as [[a2 s2] | | |] eqn:E3;
      cbn [bind] in H; try discriminate.
    destruct (query_rec P i fuel tgt dlt ch3 _ _ _ _ _) as [[a3 s3] | | |] eqn:E4;
      cbn [bind] in H; try discriminate.
    injection H as <- _.
    apply (IH k) in E0; [| assumption .. | lia].
    apply (IH k) in E1; [| assumption .. | lia].
    apply (IH k) in E3; [| assumption .. | lia].
    apply (IH k) in E4; [| assumption .. | lia].
    cbn [height]. lia.
Qed.

End Height.

(** X3: on every tree a program can hold, whatever the four operations,
    the tree has at most 31 levels: the root and one level for each of
    the 30 halvings that take a side of 10^9 + 1 cells down to a single
    cell.  The recursion of [clean_up], which follows the tree, is
    therefore at most 32 calls deep. *)
Theorem reachable_tree_height :
  forall (T : Type) (P : Policy T) (t : quadtree T),
    reachable P t -> (height (root t) <= 31)%nat.
Proof.
  intros T P t R.
  induction R as [v | t t' r1 c1 r2 c2 d _ IH E | t t' r1 c1 r2 c2 v _ IH E].
  - simpl. lia.
  - rewrite update_eq in E.
    destruct (update_rec P (init t) max_depth _ d (root t) 0 0 MAXR MAXC)
      as [n | | |] eqn:E'; cbn [bind] in E; try discriminate.
    injection E as <-. cbn [root].
    exact (update_rec_height P _ _ 30%nat _ _ _ _ _ _ _ _
             wf_side_root wf_side_root fits_root fits_root IH E').
  - rewrite query_eq in E.
    destruct (query_rec P (init t) max_depth _ (delta t) (root t) 0 0 MAXR MAXC None)
      as [[n res] | | |] eqn:E'; cbn [bind] in E; try discriminate.
    injection E as <- _. cbn [root].
    exact (query_rec_height P _ _ 30%nat _ _ _ _ _ _ _ _ _ _
             wf_side_root wf_side_root fits_root fits_root IH E').
Qed.

Lemma reachable_tree_height_witness :
  exists t,
    update stock (construct 0) 0 0 1 1 5 = Ok t
    /\ reachable stock t /\ (height (root t) <= 31)%nat.
Proof.
  destruct (returns_Ok _ _ (update_returns stock (construct 0) 0 0 1 1 5
                              (reachable_ok _ _ (reach_construct stock 0))))
    as (t & E & _).
  pose proof (reach_update stock _ _ _ _ _ _ _ (reach_construct stock 0) E) as R.
  exists t. split; [exact E |]. split; [exact R |].
  exact (reachable_tree_height Z stock t R).
Defined.

(** ** Reading back what an update wrote *)

Lemma point_disjoint_false (pr pc r1 c1 r2 c2 : Z) :
  disjoint (point pr pc) r1 c1 r2 c2 = false <->
  r1 <= pr <= r2 /\ c1 <= pc <= c2.
Proof.
  split.
  - intros H. apply disjoint_false_le in H. simpl in H. lia.
  - intros H. destruct (disjoint (point pr pc) r1 c1 r2 c2) eqn:D; [| reflexivity].
    unfold disjoint in D. simpl in D.
    repeat (apply orb_true_iff in D; destruct D as [D | D]);
      apply Z.ltb_lt in D; lia.
Qed.

Lemma point_contained_true (pr pc r1 c1 r2 c2 : Z) :
  contained (point pr pc) r1 c1 r2 c2 = true <->
  pr <= r1 /\ r2 <= pr /\ pc <= c1 /\ c2 <= pc.
Proof.
  split.
  - intros H. apply contained_true in H. simpl in H. exact H.
  - intros (A & B & C & D). unfold contained. simpl.
    apply Z.leb_le in A, B, C, D. rewrite A, B, C, D. reflexivity.
Qed.

(** A rectangle that holds the cell hands it to one of its quadrants. *)
Lemma point_in_some_quadrant (pr pc r1 c1 r2 c2 : Z) :
  wf_side r1 r2 -> wf_side c1 c2 ->
  disjoint (point pr pc) r1 c1 r2 c2 = false ->
  let rmid := Int.div (Int.add r1 r2) 2 in
  let cmid := Int.div (Int.add c1 c2) 2 in
  disjoint (point pr pc) r1 c1 rmid cmid = false
  \/ disjoint (point pr pc) (Int.add rmid 1) c1 r2 cmid = false
  \/ disjoint (point pr pc) r1 (Int.add cmid 1) rmid c2 = false
  \/ disjoint (point pr pc) (Int.add rmid 1) (Int.add cmid 1) r2 c2 = false.
Proof.
  intros Wr Wc D. cbv zeta.
  rewrite (succ_mid_exact _ _ Wr), (succ_mid_exact _ _ Wc).
  rewrite (mid_exact _ _ Wr), (mid_exact _ _ Wc).
  apply point_disjoint_false in D.
  rewrite !point_disjoint_false.
  pose proof (half_bounds (r1 + r2)). pose proof (half_bounds (c1 + c2)).
  lia.
Qed.

(** The area of a quadrant does not exceed that of the rectangle. *)
Lemma quadrant_area_le (r1 c1 r2 c2 a b : Z) :
  wf_side r1 r2 -> wf_side c1 c2 ->
  wf_side a b -> r1 <= a -> b <= r2 ->
  forall e f, wf_side e f -> c1 <= e -> f <= c2 ->
  (b - a + 1) * (f - e + 1) <= (r2 - r1 + 1) * (c2 - c1 + 1).
Proof.
  intros (A1 & A2 & A3 & A4) (B1 & B2 & B3 & B4) (C1 & C2 & C3 & C4) Ha Hb
         e f (D1 & D2 & D3 & D4) He Hf.
  apply Z.mul_le_mono_nonneg; lia.
Qed.

Lemma mid_between (lo hi : Z) :
  wf_side lo hi ->
  lo <= Int.add (Int.div (Int.add lo hi) 2) 1
  /\ Int.div (Int.add lo hi) 2 <= hi.
Proof.
  intros W. rewrite (succ_mid_exact _ _ W), (mid_exact _ _ W).
  destruct W as (H1 & H2 & H3 & H4). pose proof (half_bounds (lo + hi)). lia.
Qed.

Lemma update_delta_area_pending {T : Type} (P : Policy T) (i : T)
      (n n' : node_t T) (d : T) (area : Z) :
  update_delta_area P i n d area = Ok n' -> pending_node n'.
Proof.
  unfold pending_node.
  destruct n as [| v dl p ch0 ch1 ch2 ch3]; simpl.
  - intros [= <-]. repeat eexists.
  - destruct p; simpl; [destruct dl; simpl; [| discriminate] |];
      intros [= <-]; repeat eexists.
Qed.

Section ReadBack.

Variable v0 d : Z.
Variable pr pc : Z.

Lemma update_delta_area_Ok (n : node_t Z) (area : Z) :
  node_ok n ->
  exists n', update_delta_area stock v0 n d area = Ok n'
             /\ node_ok n' /\ pending_node n'.
Proof.
  intros K.
  destruct (returns_Ok _ _ (update_delta_area_returns stock v0 n d area K))
    as (n' & E & K').
  exists n'. split; [exact E |]. split; [exact K' |].
  exact (update_delta_area_pending _ _ _ _ _ _ E).
Qed.

Lemma update_delta_resolves (v : Z) (dl : option Z)
      (ch0 ch1 ch2 ch3 : node_t Z) (r1 c1 r2 c2 : Z) :
  node_ok ch0 -> node_ok ch1 -> node_ok ch2 -> node_ok ch3 ->
  exists n',
    update_delta stock v0 (Some d) (Node v dl true ch0 ch1 ch2 ch3) r1 c1 r2 c2
    = Ok n'
    /\ resolved_with d (Int.mul (Int.add (Int.sub r2 r1) 1)
                                (Int.add (Int.sub c2 c1) 1)) n'.
Proof.
  intros K0 K1 K2 K3. cbn [update_delta]. cbv zeta.
  destruct (1 <? _) eqn:A.
  - match goal with
    | |- context [update_delta_area stock v0 ch0 d ?a] =>
        destruct (update_delta_area_Ok ch0 a K0) as (b0 & E0 & N0 & P0);
        rewrite E0; cbn [bind]
    end.
    match goal with
    | |- context [update_delta_area stock v0 ch1 d ?a] =>
        destruct (update_delta_area_Ok ch1 a K1) as (b1 & E1 & N1 & P1);
        rewrite E1; cbn [bind]
    end.
    match goal with
    | |- context [update_delta_area stock v0 ch2 d ?a] =>
        destruct (update_delta_area_Ok ch2 a K2) as (b2 & E2 & N2 & P2);
        rewrite E2; cbn [bind]
    end.
    match goal with
    | |- context [update_delta_area stock v0 ch3 d ?a] =>
        destruct (update_delta_area_Ok ch3 a K3) as (b3 & E3 & N3 & P3);
        rewrite E3; cbn [bind]
    end.
    eexists. split; [reflexivity |].
    exists dl, b0, b1, b2, b3. split; [reflexivity |].
    do 4 (split; [assumption |]). intros _. repeat split; assumption.
  - eexists. split; [reflexivity |].
    exists dl, ch0, ch1, ch2, ch3. split; [reflexivity |].
    do 4 (split; [assumption |]). intros X. congruence.
Qed.

(** A query finds in a node still to be resolved what it finds in the
    node once resolved. *)
Lemma reads_to_unresolved (fuel : nat) (n n2 : node_t Z) (r1 c1 r2 c2 : Z) :
  update_delta stock v0 (Some d) n r1 c1 r2 c2 = Ok n2 ->
  reads_to v0 d pr pc fuel n2 r1 c1 r2 c2 ->
  reads_to v0 d pr pc fuel n r1 c1 r2 c2.
Proof.
  intros E H res Hres. destruct (H res Hres) as (n' & Q).
  destruct fuel as [| fuel]; [discriminate |].
  cbn [query_rec] in *.
  destruct (disjoint (point pr pc) r1 c1 r2 c2); [eexists; reflexivity |].
  destruct n as [| v dl p ch0 ch1 ch2 ch3]; [discriminate |].
  rewrite E. cbn [bind].
  destruct (update_delta_Ok_shape _ _ _ _ _ _ _ _ _ E)
    as (v' & dl' & b0 & b1 & b2 & b3 & ->).
  rewrite update_delta_not_pending in Q. cbn [bind] in Q.
  exists n'. exact Q.
Qed.

(** The accumulator after the four quadrants, one of which holds the
    cell. *)
Lemma thread_quadrants (res : option Z) (j0 j1 j2 j3 : bool) :
  res = None \/ res = Some d ->
  j0 = false \/ j1 = false \/ j2 = false \/ j3 = false ->
  (if j3 then if j2 then if j1 then if j0 then res else Some d
                         else Some d
              else Some d
   else Some d) = Some d.
Proof.
  intros [-> | ->] H; destruct j0, j1, j2, j3; try reflexivity;
    destruct H as [H | [H | [H | H]]]; discriminate.
Qed.

Lemma thread_step (res : option Z) (j : bool) :
  res = None \/ res = Some d ->
  (if j then res else Some d) = None \/ (if j then res else Some d) = Some d.
Proof. destruct j; auto. Qed.

(** The descent into the four quadrants of a node that is not pending,
    each child being read as [reads_to] says. *)
Lemma descend_reads (fuel : nat) (v : Z) (dl : option Z) (p : bool)
      (b0 b1 b2 b3 : node_t Z) (r1 c1 r2 c2 : Z) (res : option Z) :
  wf_side r1 r2 -> wf_side c1 c2 ->
  disjoint (point pr pc) r1 c1 r2 c2 = false ->
  let rmid := Int.div (Int.add r1 r2) 2 in
  let cmid := Int.div (Int.add c1 c2) 2 in
  reads_to v0 d pr pc fuel b0 r1 c1 rmid cmid ->
  reads_to v0 d pr pc fuel b1 (Int.add rmid 1) c1 r2 cmid ->
  reads_to v0 d pr pc fuel b2 r1 (Int.add cmid 1) rmid c2 ->
  reads_to v0 d pr pc fuel b3 (Int.add rmid 1) (Int.add cmid 1) r2 c2 ->
  res = None \/ res = Some d ->
  exists n',
    (' (a0, s0) <- query_rec stock v0 fuel (point pr pc) (Some d) b0
                     r1 c1 rmid cmid res ;;
     ' (a1, s1) <- query_rec stock v0 fuel (point pr pc) (Some d) b1
                     (Int.add rmid 1) c1 r2 cmid s0 ;;
     ' (a2, s2) <- query_rec stock v0 fuel (point pr pc) (Some d) b2
                     r1 (Int.add cmid 1) rmid c2 s1 ;;
     ' (a3, s3) <- query_rec stock v0 fuel (point pr pc) (Some d) b3
                     (Int.add rmid 1) (Int.add cmid 1) r2 c2 s2 ;;
     Ok (Node v dl p a0 a1 a2 a3, s3))
    = Ok (n', Some d).
Proof.
  intros Wr Wc D rmid cmid X0 X1 X2 X3 Hres.
  pose proof (point_in_some_quadrant pr pc r1 c1 r2 c2 Wr Wc D) as Cov.
  cbv zeta in Cov. fold rmid cmid in Cov.
  destruct (X0 res Hres) as (a0 & E0). rewrite E0. cbn [bind].
  pose proof (thread_step res (disjoint (point pr pc) r1 c1 rmid cmid) Hres) as H0.
  destruct (X1 _ H0) as (a1 & E1). rewrite E1. cbn [bind].
  pose proof (thread_step _ (disjoint (point pr pc) (Int.add rmid 1) c1 r2 cmid) H0)
    as H1.
  destruct (X2 _ H1) as (a2 & E2). rewrite E2. cbn [bind].
  pose proof (thread_step _ (disjoint (point pr pc) r1 (Int.add cmid 1) rmid c2) H1)
    as H2.
  destruct (X3 _ H2) as (a3 & E3). rewrite E3. cbn [bind].
  eexists. f_equal. f_equal.
  apply thread_quadrants; assumption.
Qed.

Lemma resolved_reads (k : nat) :
  forall (fuel : nat) (n : node_t Z) (r1 c1 r2 c2 : Z),
    (k < fuel)%nat ->
    wf_side r1 r2 -> wf_side c1 c2 ->
    fits_side k r1 r2 -> fits_side k c1 c2 ->
    (r2 - r1 + 1) * (c2 - c1 + 1) <= Int.max_int ->
    resolved_with d (Int.mul (Int.add (Int.sub r2 r1) 1)
                             (Int.add (Int.sub c2 c1) 1)) n ->
    reads_to v0 d pr pc fuel n r1 c1 r2 c2.
Proof.
  induction k as [| k IH]; intros fuel n r1 c1 r2 c2 Hk Wr Wc Fr Fc Ha
                                  (dl & b0 & b1 & b2 & b3 & -> & K0 & K1 & K2 & K3 & Hp)
                                  res Hres;
    (destruct fuel as [| fuel]; [lia |]); cbn [query_rec];
    (destruct (disjoint (point pr pc) r1 c1 r2 c2) eqn:D;
     [eexists; reflexivity |]);
    rewrite update_delta_not_pending; cbn [bind];
    (destruct (contained (point pr pc) r1 c1 r2 c2) eqn:C;
     [cbn [value_of bind]; eexists; f_equal; f_equal;
      unfold accumulate; destruct Hres as [-> | ->]; simpl;
      rewrite ?Z.min_id; reflexivity |]).
  - rewrite (small_rectangle_base_case _ _ _ _ _ Wr Wc Fr Fc D) in C. discriminate.
  - cbv zeta.
    assert ((1 <? Int.mul (Int.add (Int.sub r2 r1) 1) (Int.add (Int.sub c2 c1) 1))
            = true) as A.
    { rewrite (side_length_wf _ _ Wr), (side_length_wf _ _ Wc).
      apply Z.ltb_lt. unfold Int.mul.
      apply point_disjoint_false in D.
      assert (~ (pr <= r1 /\ r2 <= pr /\ pc <= c1 /\ c2 <= pc)) as NC.
      { intros X. apply point_contained_true in X. congruence. }
      unfold Int.max_int in Ha.
      rewrite wrap_small by nia. nia. }
    destruct (Hp A) as (P0 & P1 & P2 & P3).
    pose proof (wf_low _ _ Wr) as Wr1. pose proof (wf_high _ _ Wr) as Wr2.
    pose proof (wf_low _ _ Wc) as Wc1. pose proof (wf_high _ _ Wc) as Wc2.
    pose proof (fits_low _ _ _ Wr Fr) as Fr1.
    pose proof (fits_high _ _ _ Wr Fr) as Fr2.
    pose proof (fits_low _ _ _ Wc Fc) as Fc1.
    pose proof (fits_high _ _ _ Wc Fc) as Fc2.
    destruct (mid_between _ _ Wr) as [Mr1 Mr2].
    destruct (mid_between _ _ Wc) as [Mc1 Mc2].
    assert (k < fuel)%nat as Hk' by lia.
    assert (forall b a1 a2 e1 e2,
               pending_node b -> node_ok b ->
               wf_side a1 a2 -> wf_side e1 e2 ->
               fits_side k a1 a2 -> fits_side k e1 e2 ->
               r1 <= a1 -> a2 <= r2 -> c1 <= e1 -> e2 <= c2 ->
               reads_to v0 d pr pc fuel b a1 e1 a2 e2) as Child.
    { intros b a1 a2 e1 e2 (vb & dlb & x0 & x1 & x2 & x3 & ->)
             (_ & Y0 & Y1 & Y2 & Y3) Wa We Fa Fe L1 L2 L3 L4.
      destruct (update_delta_resolves vb dlb x0 x1 x2 x3 a1 e1 a2 e2 Y0 Y1 Y2 Y3)
        as (n2 & E & Rw).
      apply (reads_to_unresolved _ _ _ _ _ _ _ E).
      apply IH; try assumption.
      pose proof (quadrant_area_le r1 c1 r2 c2 a1 a2 Wr Wc Wa L1 L2 e1 e2 We L3 L4).
      lia. }
    destruct Wr as (Wr_1 & Wr_2 & Wr_3 & Wr_4) eqn:EWr.
    destruct Wc as (Wc_1 & Wc_2 & Wc_3 & Wc_4) eqn:EWc.
    apply descend_reads; try assumption.
    + apply Child; try assumption; lia.
    + apply Child; try assumption; lia.
    + apply Child; try assumption; lia.
    + apply Child; try assumption; lia.
Qed.

(** What an update over [u] leaves below a node is read back as [d] at
    every cell of [u]. *)
Lemma update_rec_reads (fuel : nat) :
  forall (k : nat) (u : target) (n n' : node_t Z) (r1 c1 r2 c2 : Z),
    wf_side r1 r2 -> wf_side c1 c2 ->
    fits_side k r1 r2 -> fits_side k c1 c2 ->
    node_ok n ->
    (tgt_r2 u - tgt_r1 u + 1) * (tgt_c2 u - tgt_c1 u + 1) <= Int.max_int ->
    in_rect u pr pc ->
    update_rec stock v0 fuel u d n r1 c1 r2 c2 = Ok n' ->
    forall fuel2, (k < fuel2)%nat ->
                  reads_to v0 d pr pc fuel2 n' r1 c1 r2 c2.
Proof.
  induction fuel as [| fuel IH];
    intros k u n n' r1 c1 r2 c2 Wr Wc Fr Fc Kn Ha Hin H fuel2 Hf;
    [discriminate |].
  cbn [update_rec] in H.
  set (n1 := match n with
             | NULL => new_node_t _
             | _ => n
             end) in H.
  assert (is_node n1 /\ children_ok n1) as [I1 K1].
  { subst n1. destruct n; simpl in *; tauto. }
  pose proof (update_delta_returns stock v0 d n1 r1 c1 r2 c2 I1 K1) as X.
  destruct (update_delta stock v0 (Some d) n1 r1 c1 r2 c2) as [n2 | | |] eqn:E2;
    try contradiction.
  cbn [bind] in H. simpl in X. destruct X as [_ K2].
  destruct (update_delta_Ok_shape _ _ _ _ _ _ _ _ _ E2)
    as (v & dl & ch0 & ch1 & ch2 & ch3 & ->).
  clear E2 I1 K1. destruct K2 as (_ & Y0 & Y1 & Y2 & Y3).
  destruct Hin as [Hr Hc].
  destruct (disjoint u r1 c1 r2 c2) eqn:Du.
  { injection H as <-. intros res Hres.
    destruct fuel2 as [| fuel2]; [lia |]. cbn [query_rec].
    assert (disjoint (point pr pc) r1 c1 r2 c2 = true) as Dp.
    { destruct (disjoint (point pr pc) r1 c1 r2 c2) eqn:Dp; [reflexivity |].
      apply point_disjoint_false in Dp.
      unfold disjoint in Du.
      repeat (apply orb_true_iff in Du; destruct Du as [Du | Du]);
        apply Z.ltb_lt in Du; lia. }
    rewrite Dp. eexists. reflexivity. }
  destruct (contained u r1 c1 r2 c2) eqn:Cu.
  { cbn [set_pending bind] in H.
    destruct (update_delta_resolves v dl ch0 ch1 ch2 ch3 r1 c1 r2 c2 Y0 Y1 Y2 Y3)
      as (n3 & E3 & Rw).
    rewrite E3 in H. injection H as <-.
    destruct (disjoint (point pr pc) r1 c1 r2 c2) eqn:Dp.
    - intros res Hres. destruct fuel2 as [| fuel2]; [lia |].
      cbn [query_rec]. rewrite Dp. eexists. reflexivity.
    - apply (resolved_reads k); try assumption.
      apply point_disjoint_false in Dp. apply contained_true in Cu.
      destruct Wr as (A1 & A2 & A3 & A4). destruct Wc as (B1 & B2 & B3 & B4).
      apply Z.le_trans with (2 := Ha).
      apply Z.mul_le_mono_nonneg; lia. }
  destruct k as [| k].
  { rewrite (small_rectangle_base_case u _ _ _ _ Wr Wc Fr Fc Du) in Cu.
    discriminate. }
  cbv zeta in H.
  pose proof (wf_low _ _ Wr) as Wr1. pose proof (wf_high _ _ Wr) as Wr2.
  pose proof (wf_low _ _ Wc) as Wc1. pose proof (wf_high _ _ Wc) as Wc2.
  pose proof (fits_low _ _ _ Wr Fr) as Fr1.
  pose proof (fits_high _ _ _ Wr Fr) as Fr2.
  pose proof (fits_low _ _ _ Wc Fc) as Fc1.
  pose proof (fits_high _ _ _ Wc Fc) as Fc2.
  destruct (update_rec stock v0 fuel u d ch0 _ _ _ _) as [a0 | | |] eqn:E0;
    cbn [bind] in H; try discriminate.
  destruct (update_rec stock v0 fuel u d ch1 _ _ _ _) as [a1 | | |] eqn:E1;
    cbn [bind] in H; try discriminate.
  destruct (update_rec stock v0 fuel u d ch2 _ _ _ _) as [a2 | | |] eqn:E3;
    cbn [bind] in H; try discriminate.
  destruct (update_rec stock v0 fuel u d ch3 _ _ _ _) as [a3 | | |] eqn:E4;
    cbn [bind] in H; try discriminate.
  destruct (join_children stock false v _) as [v' | | |];
    cbn [bind] in H; try discriminate.
  injection H as <-.
  intros res Hres. destruct fuel2 as [| fuel2]; [lia |].
  cbn [query_rec].
  destruct (disjoint (point pr pc) r1 c1 r2 c2) eqn:Dp; [eexists; reflexivity |].
  rewrite update_delta_not_pending. cbn [bind].
  assert (contained (point pr pc) r1 c1 r2 c2 = false) as Cp.
  { destruct (contained (point pr pc) r1 c1 r2 c2) eqn:Cp; [| reflexivity].
    apply point_contained_true in Cp. apply point_disjoint_false in Dp.
    assert (contained u r1 c1 r2 c2 = true) as X; [| congruence].
    unfold contained.
    replace (tgt_r1 u <=? r1) with true by (symmetry; apply Z.leb_le; lia).
    replace (r2 <=? tgt_r2 u) with true by (symmetry; apply Z.leb_le; lia).
    replace (tgt_c1 u <=? c1) with true by (symmetry; apply Z.leb_le; lia).
    replace (c2 <=? tgt_c2 u) with true by (symmetry; apply Z.leb_le; lia).
    reflexivity. }
  rewrite Cp. cbv zeta.
  assert (k < fuel2)%nat as Hf' by lia.
  assert (in_rect u pr pc) as Hin by (split; assumption).
  apply descend_reads; try assumption.
  - exact (IH k u _ _ _ _ _ _ Wr1 Wc1 Fr1 Fc1 Y0 Ha Hin E0 fuel2 Hf').
  - exact (IH k u _ _ _ _ _ _ Wr2 Wc1 Fr2 Fc1 Y1 Ha Hin E1 fuel2 Hf').
  - exact (IH k u _ _ _ _ _ _ Wr1 Wc2 Fr1 Fc2 Y2 Ha Hin E3 fuel2 Hf').
  - exact (IH k u _ _ _ _ _ _ Wr2 Wc2 Fr2 Fc2 Y3 Ha Hin E4 fuel2 Hf').
Qed.

End ReadBack.

(** X4: under the operations the class ships with, on every tree a
    program can hold: right after [update(r1,c1,r2,c2,d)] over a
    rectangle within the bounds whose number of cells fits an [int],
    [at(r,c)] returns [d] for every cell (r,c) of the rectangle. *)
Theorem update_then_at_reads_delta :
  forall (t : quadtree Z) (r1 c1 r2 c2 d r c : Z),
    reachable stock t ->
    0 <= r1 <= r2 /\ r2 <= MAXR ->
    0 <= c1 <= c2 /\ c2 <= MAXC ->
    (r2 - r1 + 1) * (c2 - c1 + 1) <= Int.max_int ->
    r1 <= r <= r2 -> c1 <= c <= c2 ->
    exists t1 t2,
      update stock t r1 c1 r2 c2 d = Ok t1
      /\ at_ stock t1 r c = Ok (t2, d).
Proof.
  intros t r1 c1 r2 c2 d r c R Hr Hc Ha Pr Pc.
  pose proof (reachable_ok stock t R) as K.
  destruct (returns_Ok _ _ (update_returns stock t r1 c1 r2 c2 d K))
    as (t1 & E & _).
  exists t1. rewrite E.
  rewrite update_eq in E.
  destruct (update_rec stock (init t) max_depth _ d (root t) 0 0 MAXR MAXC)
    as [n | | |] eqn:E'; cbn [bind] in E; try discriminate.
  injection E as <-.
  assert (reads_to (init t) d r c max_depth n 0 0 MAXR MAXC) as X.
  { apply (update_rec_reads (init t) d r c max_depth 30
             {| tgt_r1 := r1; tgt_c1 := c1; tgt_r2 := r2; tgt_c2 := c2 |}
             (root t) n 0 0 MAXR MAXC);
      try exact wf_side_root; try exact fits_root; try exact E'.
    - exact (proj1 K).
    - exact Ha.
    - split; simpl; assumption.
    - unfold max_depth. lia. }
  destruct (X None (or_introl eq_refl)) as (n' & Q).
  assert (disjoint (point r c) 0 0 MAXR MAXC = false) as D.
  { apply point_disjoint_false. unfold MAXR, MAXC in *. lia. }
  rewrite D in Q.
  unfold at_. rewrite query_eq. cbn [root init delta].
  fold (point r c). rewrite Q. cbn [bind].
  eexists. split; reflexivity.
Qed.

Lemma update_then_at_reads_delta_witness :
  reachable stock (construct 0)
  /\ (0 <= 0 <= 3 /\ 3 <= MAXR) /\ (0 <= 2 <= 2 /\ 2 <= MAXC)
  /\ (3 - 0 + 1) * (2 - 2 + 1) <= Int.max_int
  /\ exists t1 t2,
      update stock (construct 0) 0 2 3 2 9 = Ok t1
      /\ at_ stock t1 1 2 = Ok (t2, 9).
Proof.
  assert (0 <= 0 <= 3 /\ 3 <= MAXR) as Hr by (unfold MAXR; lia).
  assert (0 <= 2 <= 2 /\ 2 <= MAXC) as Hc by (unfold MAXC; lia).
  assert ((3 - 0 + 1) * (2 - 2 + 1) <= Int.max_int) as Ha
      by (unfold Int.max_int; lia).
  split; [apply reach_construct |].
  split; [exact Hr |]. split; [exact Hc |]. split; [exact Ha |].
  exact (update_then_at_reads_delta (construct 0) 0 2 3 2 9 1 2
           (reach_construct stock 0) Hr Hc Ha ltac:(lia) ltac:(lia)).
Defined.

(** The bound on the number of cells in X4 is needed: the quadrant
    [500000001,10^9]x[500000001,10^9] has 500000000^2 cells, its area as
    an [int] is negative, and line 193 then hands nothing down; the
    update reaches the node's value but no cell below it. *)
Remark large_update_not_handed_down :
  Int.mul 500000000 500000000 = -371654656
  /\ (t <- update stock (construct 0)
             500000001 500000001 1000000000 1000000000 5 ;;
      ' (t, whole) <- query stock t 500000001 500000001 1000000000 1000000000 ;;
      ' (_, cell) <- at_ stock t 600000000 600000000 ;;
      Ok (whole, cell)) = Ok (5, 0).
Proof. split; vm_compute; reflexivity. Qed.

(** ** Trees built by point updates *)

Lemma point_contained_cell (qr qc r1 c1 r2 c2 : Z) :
  disjoint (point qr qc) r1 c1 r2 c2 = false ->
  contained (point qr qc) r1 c1 r2 c2 = true ->
  r1 = qr /\ r2 = qr /\ c1 = qc /\ c2 = qc.
Proof.
  intros D C. apply point_disjoint_false in D. apply point_contained_true in C.
  lia.
Qed.

Lemma cell_area (qr qc : Z) :
  Int.mul (Int.add (Int.sub qr qr) 1) (Int.add (Int.sub qc qc) 1) = 1.
Proof. unfold Int.sub. rewrite !Z.sub_diag. reflexivity. Qed.

Lemma update_rec_point_no_pending {T : Type} (P : Policy T) (i : T)
      (fuel : nat) :
  forall (qr qc : Z) (d : T) (n n' : node_t T) (r1 c1 r2 c2 : Z),
    no_pending n ->
    update_rec P i fuel (point qr qc) d n r1 c1 r2 c2 = Ok n' ->
    no_pending n'.
Proof.
  induction fuel as [| fuel IH]; intros qr qc d n n' r1 c1 r2 c2 K H;
    [discriminate |].
  cbn [update_rec] in H.
  set (n1 := match n with
             | NULL => new_node_t _
             | _ => n
             end) in H.
  assert (exists v dl ch0 ch1 ch2 ch3,
             n1 = Node v dl false ch0 ch1 ch2 ch3
             /\ no_pending ch0 /\ no_pending ch1
             /\ no_pending ch2 /\ no_pending ch3)
    as (v & dl & ch0 & ch1 & ch2 & ch3 & -> & K0 & K1 & K2 & K3).
  { subst n1. destruct n as [| v dl p ch0 ch1 ch2 ch3].
    - do 6 eexists. split; [reflexivity |]. simpl. tauto.
    - simpl in K. destruct K as (-> & K). do 6 eexists.
      split; [reflexivity | exact K]. }
  rewrite update_delta_not_pending in H. cbn [bind] in H.
  destruct (disjoint (point qr qc) r1 c1 r2 c2) eqn:D.
  { injection H as <-. simpl. tauto. }
  destruct (contained (point qr qc) r1 c1 r2 c2) eqn:C.
  { destruct (point_contained_cell _ _ _ _ _ _ D C) as (-> & -> & -> & ->).
    cbn [set_pending bind update_delta] in H. cbv zeta in H.
    rewrite cell_area in H. simpl in H. injection H as <-. simpl. tauto. }
  cbv zeta in H.
  destruct (update_rec P i fuel (point qr qc) d ch0 _ _ _ _) eqn:E0;
    cbn [bind] in H; try discriminate.
  destruct (update_rec P i fuel (point qr qc) d ch1 _ _ _ _) eqn:E1;
    cbn [bind] in H; try discriminate.
  destruct (update_rec P i fuel (point qr qc) d ch2 _ _ _ _) eqn:E2;
    cbn [bind] in H; try discriminate.
  destruct (update_rec P i fuel (point qr qc) d ch3 _ _ _ _) eqn:E3;
    cbn [bind] in H; try discriminate.
  destruct (join_children P false v _); cbn [bind] in H; try discriminate.
  injection H as <-. simpl.
  split; [reflexivity |].
  split; [exact (IH _ _ _ _ _ _ _ _ _ K0 E0) |].
  split; [exact (IH _ _ _ _ _ _ _ _ _ K1 E1) |].
  split; [exact (IH _ _ _ _ _ _ _ _ _ K2 E2) | exact (IH _ _ _ _ _ _ _ _ _ K3 E3)].
Qed.

(** On a subtree without deferred deltas the private query changes
    nothing and collects what [peek] collects. *)
Lemma query_rec_peek (v0 : Z) (tgt : target) (dlt : option Z) (k : nat) :
  forall (fuel : nat) (n : node_t Z) (r1 c1 r2 c2 : Z) (res : option Z),
    (k < fuel)%nat ->
    wf_side r1 r2 -> wf_side c1 c2 ->
    fits_side k r1 r2 -> fits_side k c1 c2 ->
    no_pending n ->
    query_rec stock v0 fuel tgt dlt n r1 c1 r2 c2 res
    = Ok (n, peek v0 tgt n r1 c1 r2 c2 res).
Proof.
  induction k as [| k IH]; intros fuel n r1 c1 r2 c2 res Hk Wr Wc Fr Fc K;
    (destruct fuel as [| fuel]; [lia |]); cbn [query_rec];
    (destruct n as [| v dl p ch0 ch1 ch2 ch3]; cbn [peek];
     [destruct (disjoint tgt r1 c1 r2 c2); reflexivity |]);
    (destruct (disjoint tgt r1 c1 r2 c2) eqn:D; [reflexivity |]);
    simpl in K; destruct K as (-> & K0 & K1 & K2 & K3);
    rewrite update_delta_not_pending; cbn [bind].
  - rewrite (small_rectangle_base_case tgt _ _ _ _ Wr Wc Fr Fc D). reflexivity.
  - destruct (contained tgt r1 c1 r2 c2); [reflexivity |]. cbv zeta.
    assert (k < fuel)%nat as Hk' by lia.
    pose proof (wf_low _ _ Wr) as Wr1. pose proof (wf_high _ _ Wr) as Wr2.
    pose proof (wf_low _ _ Wc) as Wc1. pose proof (wf_high _ _ Wc) as Wc2.
    pose proof (fits_low _ _ _ Wr Fr) as Fr1.
    pose proof (fits_high _ _ _ Wr Fr) as Fr2.
    pose proof (fits_low _ _ _ Wc Fc) as Fc1.
    pose proof (fits_high _ _ _ Wc Fc) as Fc2.
    rewrite (IH fuel ch0) by assumption. cbn [bind].
    rewrite (IH fuel ch1) by assumption. cbn [bind].
    rewrite (IH fuel ch2) by assumption. cbn [bind].
    rewrite (IH fuel ch3) by assumption. cbn [bind].
    reflexivity.
Qed.

Lemma accumulate_idem (res : option Z) (v : Z) :
  accumulate stock (accumulate stock res v) v = accumulate stock res v.
Proof.
  unfold accumulate. destruct res; simpl; f_equal; lia.
Qed.

Lemma thread_init (v0 : Z) (res : option Z) (j0 j1 j2 j3 : bool) :
  j0 = false \/ j1 = false \/ j2 = false \/ j3 = false ->
  let s0 := if j0 then res else accumulate stock res v0 in
  let s1 := if j1 then s0 else accumulate stock s0 v0 in
  let s2 := if j2 then s1 else accumulate stock s1 v0 in
  (if j3 then s2 else accumulate stock s2 v0) = accumulate stock res v0.
Proof.
  intros H. cbv zeta.
  destruct j0, j1, j2, j3; rewrite ?accumulate_idem; try reflexivity.
  destruct H as [H | [H | [H | H]]]; discriminate.
Qed.

Lemma peek_NULL (v0 : Z) (tgt : target) (r1 c1 r2 c2 : Z) (res : option Z) :
  peek v0 tgt NULL r1 c1 r2 c2 res
  = if disjoint tgt r1 c1 r2 c2 then res else accumulate stock res v0.
Proof. reflexivity. Qed.

(** A node just created reads like the absent node it replaces. *)
Lemma peek_new_node (v0 pr pc : Z) (r1 c1 r2 c2 : Z) (res : option Z) :
  wf_side r1 r2 -> wf_side c1 c2 ->
  peek v0 (point pr pc) (new_node_t v0) r1 c1 r2 c2 res
  = peek v0 (point pr pc) NULL r1 c1 r2 c2 res.
Proof.
  intros Wr Wc. unfold new_node_t. cbn [peek].
  destruct (disjoint (point pr pc) r1 c1 r2 c2) eqn:D; [reflexivity |].
  destruct (contained (point pr pc) r1 c1 r2 c2); [reflexivity |].
  exact (thread_init v0 res _ _ _ _
           (point_in_some_quadrant pr pc r1 c1 r2 c2 Wr Wc D)).
Qed.

(** A point update at another cell does not change what a cell reads. *)
Lemma peek_update_other (v0 : Z) (fuel : nat) :
  forall (qr qc pr pc d : Z) (n n' : node_t Z) (r1 c1 r2 c2 : Z)
         (res : option Z),
    pr <> qr \/ pc <> qc ->
    wf_side r1 r2 -> wf_side c1 c2 ->
    no_pending n ->
    update_rec stock v0 fuel (point qr qc) d n r1 c1 r2 c2 = Ok n' ->
    peek v0 (point pr pc) n' r1 c1 r2 c2 res
    = peek v0 (point pr pc) n r1 c1 r2 c2 res.
Proof.
  induction fuel as [| fuel IH];
    intros qr qc pr pc d n n' r1 c1 r2 c2 res Hne Wr Wc K H; [discriminate |].
  destruct (disjoint (point pr pc) r1 c1 r2 c2) eqn:Dp.
  { destruct n, n'; cbn [peek]; rewrite Dp; reflexivity. }
  cbn [update_rec] in H.
  set (n1 := match n with
             | NULL => new_node_t _
             | _ => n
             end) in H.
  assert (peek v0 (point pr pc) n1 r1 c1 r2 c2 res
          = peek v0 (point pr pc) n r1 c1 r2 c2 res) as <-.
  { subst n1. destruct n; [| reflexivity].
    simpl join_region. apply peek_new_node; assumption. }
  assert (exists v dl ch0 ch1 ch2 ch3,
             n1 = Node v dl false ch0 ch1 ch2 ch3
             /\ no_pending ch0 /\ no_pending ch1
             /\ no_pending ch2 /\ no_pending ch3)
    as (v & dl & ch0 & ch1 & ch2 & ch3 & -> & K0 & K1 & K2 & K3).
  { subst n1. destruct n as [| v dl p ch0 ch1 ch2 ch3].
    - do 6 eexists. split; [reflexivity |]. simpl. tauto.
    - simpl in K. destruct K as (-> & K). do 6 eexists.
      split; [reflexivity | exact K]. }
  rewrite update_delta_not_pending in H. cbn [bind] in H.
  destruct (disjoint (point qr qc) r1 c1 r2 c2) eqn:Dq.
  { injection H as <-. reflexivity. }
  assert (contained (point pr pc) r1 c1 r2 c2 = false) as Cp.
  { destruct (contained (point pr pc) r1 c1 r2 c2) eqn:Cp; [| reflexivity].
    destruct (point_contained_cell _ _ _ _ _ _ Dp Cp) as (-> & -> & -> & ->).
    apply point_disjoint_false in Dq. lia. }
  destruct (contained (point qr qc) r1 c1 r2 c2) eqn:Cq.
  { destruct (point_contained_cell _ _ _ _ _ _ Dq Cq) as (-> & -> & -> & ->).
    apply point_disjoint_false in Dp. lia. }
  cbv zeta in H.
  pose proof (wf_low _ _ Wr) as Wr1. pose proof (wf_high _ _ Wr) as Wr2.
  pose proof (wf_low _ _ Wc) as Wc1. pose proof (wf_high _ _ Wc) as Wc2.
  destruct (update_rec stock v0 fuel (point qr qc) d ch0 _ _ _ _) eqn:E0;
    cbn [bind] in H; try discriminate.
  destruct (update_rec stock v0 fuel (point qr qc) d ch1 _ _ _ _) eqn:E1;
    cbn [bind] in H; try discriminate.
  destruct (update_rec stock v0 fuel (point qr qc) d ch2 _ _ _ _) eqn:E2;
    cbn [bind] in H; try discriminate.
  destruct (update_rec stock v0 fuel (point qr qc) d ch3 _ _ _ _) eqn:E3;
    cbn [bind] in H; try discriminate.
  destruct (join_children stock false v _); cbn [bind] in H; try discriminate.
  injection H as <-.
  cbn [peek]. rewrite Dp, Cp. cbv zeta.
  rewrite (IH _ _ pr pc _ _ _ _ _ _ _ _ Hne Wr1 Wc1 K0 E0).
  rewrite (IH _ _ pr pc _ _ _ _ _ _ _ _ Hne Wr2 Wc1 K1 E1).
  rewrite (IH _ _ pr pc _ _ _ _ _ _ _ _ Hne Wr1 Wc2 K2 E2).
  rewrite (IH _ _ pr pc _ _ _ _ _ _ _ _ Hne Wr2 Wc2 K3 E3).
  reflexivity.
Qed.

Lemma quadtree_eta {T : Type} (t : quadtree T) :
  {| root := root t; init := init t; delta := delta t |} = t.
Proof. destruct t. reflexivity. Qed.

(** A history of point updates, from a tree without deferred deltas
    that reads as the array [m]. *)
Lemma run_point_updates (ws : list (Z * Z * Z)) :
  forall (t : quadtree Z) (m : Z -> Z -> Z),
    reachable stock t ->
    no_pending (root t) ->
    (forall r c, 0 <= r <= MAXR -> 0 <= c <= MAXC ->
                 peek (init t) (point r c) (root t) 0 0 MAXR MAXC None
                 = Some (m r c)) ->
    exists t',
      run stock t (point_updates ws) = Ok t'
      /\ reachable stock t' /\ no_pending (root t') /\ init t' = init t
      /\ forall r c, 0 <= r <= MAXR -> 0 <= c <= MAXC ->
                     peek (init t') (point r c) (root t') 0 0 MAXR MAXC None
                     = Some (written ws (m r c) r c).
Proof.
  induction ws as [| [[qr qc] d] ws IH]; intros t m R K M.
  - exists t. simpl. auto.
  - cbn [point_updates map run]. fold (point_updates ws).
    pose proof (reachable_ok stock t R) as Kt.
    destruct (returns_Ok _ _ (update_returns stock t qr qc qr qc d Kt))
      as (t1 & E & _).
    rewrite E. cbn [bind].
    pose proof (reach_update stock _ _ _ _ _ _ _ R E) as R1.
    pose proof (update_init _ _ _ _ _ _ _ _ E) as I1.
    rewrite update_eq in E. fold (point qr qc) in E.
    destruct (update_rec stock (init t) max_depth (point qr qc) d (root t)
                         0 0 MAXR MAXC) as [n | | |] eqn:E';
      cbn [bind] in E; try discriminate.
    injection E as <-. cbn [root init] in *.
    pose proof (update_rec_point_no_pending stock _ _ _ _ _ _ _ _ _ _ _ K E') as K1.
    destruct (IH {| root := n; init := init t; delta := Some d |}
                 (fun r c => if (r =? qr) && (c =? qc) then d else m r c)
                 R1 K1) as (t' & Er & R' & K' & I' & M').
    + cbn [root init]. intros r c Hr Hc.
      destruct ((r =? qr) && (c =? qc)) eqn:Eq.
      * apply andb_true_iff in Eq. destruct Eq as [Er Ec].
        apply Z.eqb_eq in Er, Ec. subst qr qc.
        assert (reads_to (init t) d r c max_depth n 0 0 MAXR MAXC) as X.
        { apply (update_rec_reads (init t) d r c max_depth 30 (point r c)
                   (root t) n 0 0 MAXR MAXC);
            try exact wf_side_root; try exact fits_root; try exact E'.
          - exact (proj1 Kt).
          - simpl. unfold Int.max_int. lia.
          - split; simpl; lia.
          - unfold max_depth. lia. }
        destruct (X None (or_introl eq_refl)) as (n' & Q).
        rewrite (query_rec_peek (init t) (point r c) (Some d) 30 max_depth n
                   0 0 MAXR MAXC None) in Q;
          try exact wf_side_root; try exact fits_root; try exact K1;
          [| unfold max_depth; lia].
        assert (disjoint (point r c) 0 0 MAXR MAXC = false) as D.
        { apply point_disjoint_false. lia. }
        rewrite D in Q. injection Q as _ Q. exact Q.
      * rewrite (peek_update_other (init t) max_depth qr qc r c d (root t) n
                   0 0 MAXR MAXC None);
          try exact wf_side_root; try exact K; try exact E'.
        -- apply M; assumption.
        -- apply andb_false_iff in Eq.
           destruct Eq as [Eq | Eq]; apply Z.eqb_neq in Eq; tauto.
    + exists t'. cbn [init] in I'. auto.
Qed.

Lemma peek_fresh (v0 r c : Z) :
  0 <= r <= MAXR -> 0 <= c <= MAXC ->
  peek v0 (point r c) NULL 0 0 MAXR MAXC None = Some v0.
Proof.
  intros Hr Hc. rewrite peek_NULL.
  replace (disjoint (point r c) 0 0 MAXR MAXC) with false; [reflexivity |].
  symmetry. apply point_disjoint_false. lia.
Qed.

(** X5: under the operations the class ships with, a tree that has only
    ever received point updates [update(r, c, d)] behaves as an array:
    the updates complete, no node is left with a deferred delta, and for
    every cell within the bounds [at(r, c)] returns the value last
    written to that cell, or [init] if none was, and leaves the tree
    exactly as it is. *)
Theorem point_updates_behave_as_array :
  forall (v0 : Z) (ws : list (Z * Z * Z)),
  exists t,
    run stock (construct v0) (point_updates ws) = Ok t
    /\ no_pending (root t)
    /\ forall r c, 0 <= r <= MAXR -> 0 <= c <= MAXC ->
                   at_ stock t r c = Ok (t, written ws v0 r c).
Proof.
  intros v0 ws.
  destruct (run_point_updates ws (construct v0) (fun _ _ => v0)
              (reach_construct stock v0) I
              (fun r c Hr Hc => peek_fresh v0 r c Hr Hc))
    as (t & E & R & K & In & M).
  exists t. split; [exact E |]. split; [exact K |].
  intros r c Hr Hc. unfold at_. rewrite query_eq. fold (point r c).
  rewrite (query_rec_peek (init t) (point r c) (delta t) 30 max_depth (root t)
             0 0 MAXR MAXC None);
    try exact wf_side_root; try exact fits_root; try exact K;
    [| unfold max_depth; lia].
  cbn [bind]. rewrite (M r c Hr Hc), quadtree_eta. reflexivity.
Qed.

Lemma point_updates_behave_as_array_witness :
  exists t,
    run stock (construct 0)
        (point_updates [(0, 0, 7); (2, 1, 1); (0, 0, 3)]) = Ok t
    /\ at_ stock t 0 0 = Ok (t, 3)
    /\ at_ stock t 2 1 = Ok (t, 1)
    /\ at_ stock t 1 1 = Ok (t, 0).
Proof.
  destruct (point_updates_behave_as_array 0 [(0, 0, 7); (2, 1, 1); (0, 0, 3)])
    as (t & E & _ & M).
  exists t. split; [exact E |].
  split; [exact (M 0 0 ltac:(unfold MAXR; lia) ltac:(unfold MAXC; lia)) |].
  split; [exact (M 2 1 ltac:(unfold MAXR; lia) ltac:(unfold MAXC; lia)) |].
  exact (M 1 1 ltac:(unfold MAXR; lia) ltac:(unfold MAXC; lia)).
Defined.

(** * Properties of the graph code *)

(** ** Arrays *)

Lemma and_then_Done {A B : Type} (m : outcome A) (k : A -> outcome B) (b : B) :
  and_then m k = Done b -> exists a, m = Done a /\ k a = Done b.
Proof. destruct m; simpl; try discriminate. eauto. Qed.

Lemma get_at_Done {A : Type} (l : list A) (i : Z) (a : A) :
  get_at l i = Done a <-> 0 <= i /\ nth_error l (Z.to_nat i) = Some a.
Proof.
  unfold get_at. destruct (i <? 0) eqn:E.
  - apply Z.ltb_lt in E. split; [discriminate | lia].
  - apply Z.ltb_ge in E. destruct (nth_error l (Z.to_nat i)).
    + split; [intros [= ->]; auto | intros [_ [= ->]]; reflexivity].
    + split; [discriminate | intros [_ [=]]].
Qed.

Lemma get_at_range {A : Type} (l : list A) (i : Z) (a : A) :
  get_at l i = Done a -> 0 <= i < Z.of_nat (length l).
Proof.
  intros H. apply get_at_Done in H. destruct H as [H0 H].
  assert (Z.to_nat i < length l)%nat by (apply nth_error_Some; congruence).
  lia.
Qed.

Lemma get_at_in_range {A : Type} (l : list A) (i : Z) :
  0 <= i < Z.of_nat (length l) -> exists a, get_at l i = Done a.
Proof.
  intros H. destruct (nth_error l (Z.to_nat i)) eqn:E.
  - exists a. apply get_at_Done. split; [lia | exact E].
  - apply nth_error_None in E. lia.
Qed.

Lemma set_nth_Some {A : Type} (l : list A) :
  forall n a, (n < length l)%nat -> exists l', set_nth l n a = Some l'.
Proof.
  induction l as [| x l IH]; intros n a H; simpl in *; [lia |].
  destruct n; [eauto |].
  destruct (IH n a ltac:(lia)) as (l' & ->). eauto.
Qed.

Lemma set_nth_spec {A : Type} (l : list A) :
  forall n a l', set_nth l n a = Some l' ->
                 length l' = length l
                 /\ nth_error l' n = Some a
                 /\ forall m, m <> n -> nth_error l' m = nth_error l m.
Proof.
  induction l as [| x l IH]; intros n a l' H; simpl in *; [discriminate |].
  destruct n.
  - injection H as <-. simpl. repeat split; auto.
    intros [| m] Hm; [congruence | reflexivity].
  - destruct (set_nth l n a) as [l'' |] eqn:E; [| discriminate].
    injection H as <-. destruct (IH _ _ _ E) as (L & S1 & S2).
    simpl. repeat split; auto.
    intros [| m] Hm; [reflexivity |]. simpl. apply S2. congruence.
Qed.

Lemma set_at_in_range {A : Type} (l : list A) (i : Z) (a : A) :
  0 <= i < Z.of_nat (length l) -> exists l', set_at l i a = Done l'.
Proof.
  intros H. unfold set_at.
  replace (i <? 0) with false by (symmetry; apply Z.ltb_ge; lia).
  destruct (set_nth_Some l (Z.to_nat i) a ltac:(lia)) as (l' & ->). eauto.
Qed.

Lemma set_at_spec {A : Type} (l l' : list A) (i : Z) (a : A) :
  set_at l i a = Done l' ->
  length l' = length l
  /\ get_at l' i = Done a
  /\ forall j, j <> i -> get_at l' j = get_at l j.
Proof.
  unfold set_at. destruct (i <? 0) eqn:E; [discriminate |].
  apply Z.ltb_ge in E.
  destruct (set_nth l (Z.to_nat i) a) as [l'' |] eqn:S; [| discriminate].
  intros [= <-]. destruct (set_nth_spec _ _ _ _ S) as (L & S1 & S2).
  split; [exact L |]. split.
  - apply get_at_Done. auto.
  - intros j Hj. unfold get_at. destruct (j <? 0) eqn:Ej; [reflexivity |].
    apply Z.ltb_ge in Ej. rewrite S2; [reflexivity | lia].
Qed.

Lemma set_nth_white_count (l : list bool) :
  forall n l', set_nth l n true = Some l' -> nth_error l n = Some false ->
               S (white_count l') = white_count l.
Proof.
  unfold white_count.
  induction l as [| x l IH]; intros n l' H W; simpl in *; [discriminate |].
  destruct n.
  - injection H as <-. injection W as ->. reflexivity.
  - destruct (set_nth l n true) as [l'' |] eqn:E; [| discriminate].
    injection H as <-. simpl in W. specialize (IH _ _ E W).
    simpl. destruct x; simpl; lia.
Qed.

Lemma set_at_white_count (vis vis' : list bool) (i : Z) :
  white vis i -> set_at vis i true = Done vis' ->
  S (white_count vis') = white_count vis.
Proof.
  unfold white, set_at. intros W.
  apply get_at_Done in W. destruct W as [H0 W].
  replace (i <? 0) with false by (symmetry; apply Z.ltb_ge; lia).
  destruct (set_nth vis (Z.to_nat i) true) as [l |] eqn:E; [| discriminate].
  intros [= <-]. exact (set_nth_white_count _ _ _ E W).
Qed.

Lemma white_count_le_length (vis : list bool) :
  (white_count vis <= length vis)%nat.
Proof. unfold white_count. apply filter_length_le. Qed.

Lemma visited_or_white (vis : list bool) (x : Z) :
  0 <= x < Z.of_nat (length vis) -> visited vis x \/ white vis x.
Proof.
  intros H. destruct (get_at_in_range vis x H) as ([|] & E); [left | right]; exact E.
Qed.

(** ** Paths *)

Lemma path_trans (E : Z -> Z -> Prop) (x y z : Z) :
  path E x y -> path E y z -> path E x z.
Proof.
  induction 1 as [x | x w y Hxw _ IH]; intros Hyz; [exact Hyz |].
  exact (path_step E x w z Hxw (IH Hyz)).
Qed.

Lemma path_one (E : Z -> Z -> Prop) (x y : Z) : E x y -> path E x y.
Proof. intros H. exact (path_step E x y y H (path_here E y)). Qed.

Lemma path_snoc (E : Z -> Z -> Prop) (x y z : Z) :
  path E x y -> E y z -> path E x z.
Proof. intros H1 H2. exact (path_trans E x y z H1 (path_one E y z H2)). Qed.

Lemma path_impl (E F : Z -> Z -> Prop) (x y : Z) :
  (forall a b, E a b -> F a b) -> path E x y -> path F x y.
Proof.
  intros H. induction 1 as [x | x w y Hxw _ IH]; [apply path_here |].
  exact (path_step F x w y (H _ _ Hxw) IH).
Qed.

Lemma path_flip (E F : Z -> Z -> Prop) (x y : Z) :
  (forall a b, E a b -> F b a) -> path E x y -> path F y x.
Proof.
  intros H. induction 1 as [x | x w y Hxw _ IH]; [apply path_here |].
  exact (path_snoc F y w x IH (H _ _ Hxw)).
Qed.

Lemma mutual_refl (E : Z -> Z -> Prop) (x : Z) : mutual E x x.
Proof. split; apply path_here. Qed.

Lemma mutual_sym (E : Z -> Z -> Prop) (x y : Z) : mutual E x y -> mutual E y x.
Proof. intros [A B]. split; assumption. Qed.

Lemma mutual_trans (E : Z -> Z -> Prop) (x y z : Z) :
  mutual E x y -> mutual E y z -> mutual E x z.
Proof. intros [A B] [C D]. split; eapply path_trans; eassumption. Qed.

(** A path that starts in a set closed under the arcs stays in it. *)
Lemma path_closed (E : Z -> Z -> Prop) (S : Z -> Prop) (x y : Z) :
  (forall a b, S a -> E a b -> S b) -> path E x y -> S x -> S y.
Proof.
  intros H. induction 1 as [x | x w y Hxw _ IH]; intros Sx; [exact Sx |].
  apply IH. exact (H _ _ Sx Hxw).
Qed.

(** ** Places in a list *)

Lemma le_pos_app (l m : list Z) (y z : Z) :
  le_pos l y z -> le_pos (l ++ m) y z.
Proof.
  intros (l1 & l2 & -> & H). exists l1, (l2 ++ m).
  split; [rewrite <- app_assoc; reflexivity | exact H].
Qed.

Lemma le_pos_last (l : list Z) (y z : Z) :
  In y (l ++ [z]) -> le_pos (l ++ [z]) y z.
Proof.
  intros H. exists l, []. split; [reflexivity |].
  apply in_app_or in H. destruct H as [H | [H | []]]; auto.
Qed.

Lemma le_pos_In (l : list Z) (y z : Z) :
  le_pos l y z -> In y l /\ In z l.
Proof.
  intros (l1 & l2 & -> & H). split.
  - destruct H as [H | ->]; apply in_or_app; [left; exact H | right; left; reflexivity].
  - apply in_or_app. right. left. reflexivity.
Qed.

Lemma path_exit (E : Z -> Z -> Prop) (S T : Z -> Prop) (x y : Z) :
  (forall a b, S a -> E a b -> S b \/ T b) ->
  path E x y -> S x -> S y \/ exists g, T g /\ path E x g.
Proof.
  intros H. induction 1 as [x | x w y Hxw _ IH]; intros Sx; [left; exact Sx |].
  destruct (H _ _ Sx Hxw) as [Sw | Tw].
  - destruct (IH Sw) as [Sy | (g & Tg & P)]; [left; exact Sy |].
    right. exists g. split; [exact Tg | exact (path_step E x w g Hxw P)].
  - right. exists w. split; [exact Tw | exact (path_one E x w Hxw)].
Qed.

(** ** The depth-first traversal *)

Lemma visited_not_white (vis : list bool) (x : Z) :
  visited vis x -> white vis x -> False.
Proof. unfold visited, white. congruence. Qed.

Lemma dfs_inv_mono (graph : list (list Z)) (vis vis' : list bool)
      (blk L stack : list Z) (x : Z) :
  dfs_inv graph vis blk stack -> dfs_inv graph vis' (blk ++ L) stack ->
  visited vis x -> visited vis' x.
Proof.
  intros I I' V. apply (inv_marked _ _ _ _ I'). apply (inv_marked _ _ _ _ I) in V.
  destruct V as [V | V]; [left; apply in_or_app; left; exact V | right; exact V].
Qed.

Section Traversal.

Variable graph : list (list Z).
Hypothesis WF : wf_graph graph (length graph).

Lemma dfs_inv_enter (vis vis1 : list bool) (blk stack : list Z) (i : Z) :
  dfs_inv graph vis blk stack -> white vis i -> set_at vis i true = Done vis1 ->
  dfs_inv graph vis1 blk (stack ++ [i]).
Proof.
  intros I W S1. destruct (set_at_spec _ _ _ _ S1) as (L1 & G1 & O1).
  assert (M : forall x, visited vis1 x <-> x = i \/ visited vis x).
  { intros x. unfold visited. destruct (Z.eq_dec x i) as [-> | N].
    - split; [left; reflexivity | intros _; exact G1].
    - rewrite (O1 x N). split; [right; assumption | intros [? | ?]; [contradiction | assumption]]. }
  assert (Ni : ~ visited vis i) by (intros V; exact (visited_not_white _ _ V W)).
  constructor.
  - rewrite L1. exact (inv_length _ _ _ _ I).
  - intros x. rewrite M, (inv_marked _ _ _ _ I x), in_app_iff. simpl. intuition.
  - exact (inv_nodup _ _ _ _ I).
  - apply NoDup_app; [exact (inv_stack_nodup _ _ _ _ I) | repeat constructor; intros [] |].
    intros x Hx [<- | []]. apply Ni. apply (inv_marked _ _ _ _ I). right. exact Hx.
  - intros x Hx Hs. apply in_app_or in Hs. destruct Hs as [Hs | [<- | []]].
    + exact (inv_apart _ _ _ _ I x Hx Hs).
    + apply Ni. apply (inv_marked _ _ _ _ I). left. exact Hx.
  - intros x y Hx A. apply M. right. exact (inv_closed _ _ _ _ I x y Hx A).
  - intros x y Hx P. destruct (inv_order _ _ _ _ I x y Hx P) as [H | (g & Hg & Mg)].
    + left. exact H.
    + right. exists g. split; [apply in_or_app; left; exact Hg | exact Mg].
Qed.

Lemma dfs_inv_leave (vis : list bool) (blk stack : list Z) (i : Z) :
  dfs_inv graph vis blk (stack ++ [i]) ->
  (forall g, In g stack -> path (arc graph) g i) ->
  (forall y, arc graph i y -> visited vis y) ->
  dfs_inv graph vis (blk ++ [i]) stack.
Proof.
  intros I PS C.
  pose proof (inv_stack_nodup _ _ _ _ I) as ND.
  assert (Nb : ~ In i blk).
  { intros Hb. apply (inv_apart _ _ _ _ I i Hb). apply in_or_app. right. left. reflexivity. }
  assert (Ns : ~ In i stack).
  { apply NoDup_remove_2 in ND. rewrite app_nil_r in ND. exact ND. }
  assert (X : forall x y, In x (blk ++ [i]) -> mutual (arc graph) x i ->
                          path (arc graph) x y ->
                          (exists z, mutual (arc graph) x z /\ le_pos (blk ++ [i]) y z)
                          \/ (exists g, In g stack /\ mutual (arc graph) x g)).
  { intros x y Hx Mx P.
    destruct (path_exit (arc graph) (fun a => In a (blk ++ [i])) (fun a => In a stack) x y)
      as [Hy | (g & Hg & Pg)].
    - intros a b Ha A.
      assert (V : visited vis b).
      { apply in_app_or in Ha. destruct Ha as [Ha | [<- | []]].
        - exact (inv_closed _ _ _ _ I a b Ha A).
        - exact (C b A). }
      apply (inv_marked _ _ _ _ I) in V. rewrite !in_app_iff in *. tauto.
    - exact P.
    - exact Hx.
    - left. exists i. split; [exact Mx | exact (le_pos_last blk y i Hy)].
    - right. exists g. split; [exact Hg |].
      split; [exact Pg |].
      exact (path_trans _ g i x (PS g Hg) (proj2 Mx)). }
  constructor.
  - exact (inv_length _ _ _ _ I).
  - intros x. rewrite (inv_marked _ _ _ _ I x), !in_app_iff. simpl. tauto.
  - apply NoDup_app; [exact (inv_nodup _ _ _ _ I) | repeat constructor; intros [] |].
    intros x Hx [<- | []]. exact (Nb Hx).
  - apply NoDup_remove_1 in ND. rewrite app_nil_r in ND. exact ND.
  - intros x Hx Hs. apply in_app_or in Hx. destruct Hx as [Hx | [<- | []]].
    + apply (inv_apart _ _ _ _ I x Hx). apply in_or_app. left. exact Hs.
    + exact (Ns Hs).
  - intros x y Hx A. apply in_app_or in Hx. destruct Hx as [Hx | [<- | []]].
    + exact (inv_closed _ _ _ _ I x y Hx A).
    + exact (C y A).
  - intros x y Hx P. pose proof Hx as Hx'.
    apply in_app_or in Hx. destruct Hx as [Hx | [<- | []]].
    + destruct (inv_order _ _ _ _ I x y Hx P) as [(z & Mz & Lz) | (g & Hg & Mg)].
      * left. exists z. split; [exact Mz | exact (le_pos_app blk [i] y z Lz)].
      * apply in_app_or in Hg. destruct Hg as [Hg | [<- | []]].
        -- right. exists g. split; assumption.
        -- exact (X x y Hx' Mg P).
    + exact (X i y Hx' (mutual_refl _ i) P).
Qed.

Lemma visit_all_spec (fuel : nat) (stack : list Z) (i : Z)
      (IH : forall vis res j blk,
          dfs_inv graph vis blk (stack ++ [i]) -> white vis j ->
          (forall g, In g (stack ++ [i]) -> path (arc graph) g j) ->
          (white_count vis < fuel)%nat ->
          dfs_post graph vis res blk (stack ++ [i]) j (DFS fuel graph vis res j)) :
  (forall g, In g stack -> path (arc graph) g i) ->
  forall js vis res blk,
    dfs_inv graph vis blk (stack ++ [i]) ->
    (forall j, In j js -> arc graph i j) ->
    (white_count vis < fuel)%nat ->
    exists vis' L,
      visit_all (DFS fuel graph) js vis res = Done (vis', res ++ L)
      /\ dfs_inv graph vis' (blk ++ L) (stack ++ [i])
      /\ (forall x, In x L -> path (arc graph) i x)
      /\ (white_count vis' <= white_count vis)%nat
      /\ (forall j, In j js -> visited vis' j).
Proof.
  intros PS. induction js as [| j js IHjs]; intros vis res blk I A F.
  - exists vis, []. rewrite !app_nil_r. simpl.
    split; [reflexivity |]. split; [exact I |]. split; [intros x [] |].
    split; [lia | intros x []].
  - assert (Aj : arc graph i j) by (apply A; left; reflexivity).
    assert (Rj : 0 <= j < Z.of_nat (length vis)).
    { destruct Aj as (l & Gl & Hl). rewrite (inv_length _ _ _ _ I).
      exact (proj2 WF i l j Gl Hl). }
    cbn [visit_all].
    destruct (visited_or_white vis j Rj) as [V | W].
    + unfold visited in V. rewrite V. cbn [and_then fst snd].
      destruct (IHjs vis res blk I (fun x Hx => A x (or_intror Hx)) F)
        as (vis' & L & EQ & I' & PL & WC & VJ).
      exists vis', L. split; [exact EQ |]. split; [exact I' |].
      split; [exact PL |]. split; [exact WC |].
      intros x [<- | Hx]; [| exact (VJ x Hx)].
      exact (dfs_inv_mono graph vis vis' blk L _ j I I' V).
    + pose proof W as W'. unfold white in W'. rewrite W'. cbn [and_then].
      destruct (IH vis res j blk I W) as (vis1 & L1 & EQ1 & I1 & PL1 & WC1); [| exact F |].
      { intros g Hg. apply in_app_or in Hg. destruct Hg as [Hg | [<- | []]].
        - exact (path_snoc _ g i j (PS g Hg) Aj).
        - exact (path_one _ i j Aj). }
      rewrite EQ1. cbn [and_then fst snd].
      destruct (IHjs vis1 (res ++ L1 ++ [j]) (blk ++ L1 ++ [j]) I1
                     (fun x Hx => A x (or_intror Hx)) ltac:(lia))
        as (vis' & L & EQ & I' & PL & WC & VJ).
      exists vis', ((L1 ++ [j]) ++ L).
      assert (R1 : forall l : list Z, l ++ (L1 ++ [j]) ++ L = (l ++ L1 ++ [j]) ++ L).
      { intros l. rewrite !app_assoc. reflexivity. }
      rewrite !R1. split; [exact EQ |]. split; [exact I' |]. split; [| split; [lia |]].
      * intros x Hx. apply in_app_or in Hx. destruct Hx as [Hx | Hx]; [| exact (PL x Hx)].
        apply in_app_or in Hx. destruct Hx as [Hx | [<- | []]].
        -- exact (path_step _ i j x Aj (PL1 x Hx)).
        -- exact (path_one _ i j Aj).
      * intros x [<- | Hx]; [| exact (VJ x Hx)].
        apply (dfs_inv_mono graph vis1 vis' (blk ++ L1 ++ [j]) L _ j I1 I').
        apply (inv_marked _ _ _ _ I1). left. rewrite !in_app_iff. simpl. tauto.
Qed.

Lemma DFS_spec :
  forall (fuel : nat) (vis : list bool) (res : list Z) (i : Z) (blk stack : list Z),
    dfs_inv graph vis blk stack -> white vis i ->
    (forall g, In g stack -> path (arc graph) g i) ->
    (white_count vis < fuel)%nat ->
    dfs_post graph vis res blk stack i (DFS fuel graph vis res i).
Proof.
  induction fuel as [| fuel IH]; intros vis res i blk stack I W PS F; [lia |].
  pose proof (get_at_range _ _ _ W) as Ri.
  destruct (set_at_in_range vis i true Ri) as (vis1 & S1).
  assert (Rg : 0 <= i < Z.of_nat (length graph)).
  { rewrite <- (inv_length _ _ _ _ I). exact Ri. }
  destruct (get_at_in_range graph i Rg) as (gi & G1).
  pose proof (dfs_inv_enter vis vis1 blk stack i I W S1) as I1.
  pose proof (set_at_white_count vis vis1 i W S1) as WC1.
  destruct (visit_all_spec fuel stack i
              (fun vis res j blk => IH vis res j blk (stack ++ [i])) PS
              gi vis1 res blk I1) as (vis' & L & EQ & I' & PL & WC & VJ).
  { intros j Hj. exists gi. split; assumption. }
  { lia. }
  cbn [DFS]. rewrite S1. cbn [and_then]. rewrite G1. cbn [and_then].
  rewrite EQ. cbn [and_then fst snd].
  exists vis', L. rewrite !app_assoc.
  split; [reflexivity |]. split; [| split; [exact PL | lia]].
  apply dfs_inv_leave; [exact I' | exact PS |].
  intros y (l & Gl & Hl). rewrite G1 in Gl. injection Gl as <-. exact (VJ y Hl).
Qed.

End Traversal.

(** ** The loops of [main] *)

Lemma push_back_arc (adj adj1 : list (list Z)) (a b : Z) (l : list Z) :
  get_at adj a = Done l -> set_at adj a (l ++ [b]) = Done adj1 ->
  length adj1 = length adj
  /\ forall u v, arc adj1 u v <-> arc adj u v \/ (u = a /\ v = b).
Proof.
  intros G S1. destruct (set_at_spec _ _ _ _ S1) as (L1 & G1 & O1).
  split; [exact L1 |]. intros u v. unfold arc.
  destruct (Z.eq_dec u a) as [-> | N].
  - split.
    + intros (l' & Gl & Hl). rewrite G1 in Gl. injection Gl as <-.
      apply in_app_or in Hl. destruct Hl as [Hl | [<- | []]]; [left | right; auto].
      exists l. auto.
    + intros [(l' & Gl & Hl) | [_ ->]]; exists (l ++ [b]); (split; [exact G1 |]).
      * rewrite G in Gl. injection Gl as <-. apply in_or_app. left. exact Hl.
      * apply in_or_app. right. left. reflexivity.
  - rewrite (O1 u N). split; [intros H; left; exact H |].
    intros [H | [H _]]; [exact H | contradiction].
Qed.

Lemma read_edges_spec :
  forall (es : list (Z * Z)) (adj : list (list Z)),
    (forall a b, In (a, b) es -> 0 <= a < Z.of_nat (length adj)) ->
    exists adj', read_edges es adj = Done adj'
                 /\ length adj' = length adj
                 /\ forall a b, arc adj' a b <-> arc adj a b \/ In (a, b) es.
Proof.
  induction es as [| [a b] es IH]; intros adj R.
  - exists adj. simpl. split; [reflexivity |]. split; [reflexivity |]. tauto.
  - destruct (get_at_in_range adj a (R a b (or_introl eq_refl))) as (l & G).
    destruct (set_at_in_range adj a (l ++ [b]) (R a b (or_introl eq_refl))) as (adj1 & S1).
    destruct (push_back_arc _ _ _ _ _ G S1) as (L1 & A1).
    destruct (IH adj1) as (adj' & EQ & L' & A').
    { intros a' b' H. rewrite L1. exact (R a' b' (or_intror H)). }
    exists adj'. cbn [read_edges]. rewrite G. cbn [and_then]. rewrite S1. cbn [and_then].
    split; [exact EQ |]. split; [congruence |].
    intros u v. rewrite A', A1. simpl. split.
    + intros [[H | [-> ->]] | H]; auto.
    + intros [H | [[= -> ->] | H]]; auto.
Qed.

Lemma reverse_from_spec (i : Z) :
  forall (js : list Z) (rev : list (list Z)),
    (forall j, In j js -> 0 <= j < Z.of_nat (length rev)) ->
    exists rev', reverse_from i js rev = Done rev'
                 /\ length rev' = length rev
                 /\ forall u v, arc rev' u v <-> arc rev u v \/ (In u js /\ v = i).
Proof.
  induction js as [| j js IH]; intros rev R.
  - exists rev. simpl. split; [reflexivity |]. split; [reflexivity |]. tauto.
  - destruct (get_at_in_range rev j (R j (or_introl eq_refl))) as (l & G).
    destruct (set_at_in_range rev j (l ++ [i]) (R j (or_introl eq_refl))) as (rev1 & S1).
    destruct (push_back_arc _ _ _ _ _ G S1) as (L1 & A1).
    destruct (IH rev1) as (rev' & EQ & L' & A').
    { intros j' H. rewrite L1. exact (R j' (or_intror H)). }
    exists rev'. cbn [reverse_from]. rewrite G. cbn [and_then]. rewrite S1. cbn [and_then].
    split; [exact EQ |]. split; [congruence |].
    intros u v. rewrite A', A1. simpl. split.
    + intros [[H | [-> ->]] | [H ->]]; auto.
    + intros [H | [[-> | H] ->]]; auto.
Qed.

Lemma reverse_graph_spec (adj : list (list Z)) :
  forall (vs : list Z) (rev : list (list Z)),
    (forall i, In i vs -> 0 <= i < Z.of_nat (length adj)) ->
    (forall u v, arc adj u v -> 0 <= v < Z.of_nat (length rev)) ->
    exists rev', reverse_graph vs adj rev = Done rev'
                 /\ length rev' = length rev
                 /\ forall u v, arc rev' u v <-> arc rev u v \/ (In v vs /\ arc adj v u).
Proof.
  induction vs as [| i vs IH]; intros rev R T.
  - exists rev. simpl. split; [reflexivity |]. split; [reflexivity |]. tauto.
  - destruct (get_at_in_range adj i (R i (or_introl eq_refl))) as (js & G).
    destruct (reverse_from_spec i js rev) as (rev1 & EQ1 & L1 & A1).
    { intros j Hj. apply (T i j). exists js. auto. }
    destruct (IH rev1) as (rev' & EQ & L' & A').
    { intros i' H. exact (R i' (or_intror H)). }
    { intros u v H. rewrite L1. exact (T u v H). }
    exists rev'. cbn [reverse_graph]. rewrite G. cbn [and_then]. rewrite EQ1. cbn [and_then].
    split; [exact EQ |]. split; [congruence |].
    intros u v. rewrite A', A1. simpl. split.
    + intros [[H | [H ->]] | [H1 H2]]; auto.
      right. split; [left; reflexivity | exists js; auto].
    + intros [H | [[<- | H1] H2]]; auto.
      left. right. destruct H2 as (l & Gl & Hl). rewrite G in Gl.
      injection Gl as <-. auto.
Qed.

Lemma reset_vis_spec :
  forall (vs : list Z) (vis : list bool),
    (forall i, In i vs -> 0 <= i < Z.of_nat (length vis)) ->
    exists vis', reset_vis vs vis = Done vis'
                 /\ length vis' = length vis
                 /\ (forall x, In x vs -> white vis' x)
                 /\ (forall x, ~ In x vs -> get_at vis' x = get_at vis x).
Proof.
  induction vs as [| i vs IH]; intros vis R.
  - exists vis. simpl. split; [reflexivity |]. split; [reflexivity |].
    split; [intros x [] | reflexivity].
  - destruct (set_at_in_range vis i false (R i (or_introl eq_refl))) as (vis1 & S1).
    destruct (set_at_spec _ _ _ _ S1) as (L1 & G1 & O1).
    destruct (IH vis1) as (vis' & EQ & L' & W' & K').
    { intros i' H. rewrite L1. exact (R i' (or_intror H)). }
    exists vis'. cbn [reset_vis]. rewrite S1. cbn [and_then].
    split; [exact EQ |]. split; [congruence |]. split.
    + intros x Hx. destruct (in_dec Z.eq_dec x vs) as [Hv | Hv]; [exact (W' x Hv) |].
      destruct Hx as [<- | Hx]; [| contradiction].
      unfold white. rewrite (K' i Hv). exact G1.
    + intros x Hx. rewrite (K' x (fun H => Hx (or_intror H))).
      apply O1. intros ->. apply Hx. left. reflexivity.
Qed.

Lemma dfs_fuel_enough (graph : list (list Z)) (vis : list bool) (blk stack : list Z) :
  dfs_inv graph vis blk stack -> length graph = Z.to_nat MAXN ->
  (white_count vis < dfs_fuel)%nat.
Proof.
  intros I L. pose proof (white_count_le_length vis) as H.
  rewrite (inv_length _ _ _ _ I), L in H. unfold dfs_fuel. lia.
Qed.

Lemma first_pass_spec (adj : list (list Z)) :
  wf_graph adj (length adj) -> length adj = Z.to_nat MAXN ->
  forall (vs : list Z) (vis : list bool) (order : list Z),
    dfs_inv adj vis order [] ->
    (forall i, In i vs -> 0 <= i < Z.of_nat (length adj)) ->
    exists vis' L,
      first_pass vs adj vis order = Done (vis', order ++ L)
      /\ dfs_inv adj vis' (order ++ L) []
      /\ (forall i, In i vs -> visited vis' i)
      /\ (forall x, In x L -> exists i, In i vs /\ path (arc adj) i x).
Proof.
  intros WF LN. induction vs as [| i vs IH]; intros vis order I R.
  - exists vis, []. rewrite !app_nil_r. simpl.
    split; [reflexivity |]. split; [exact I |]. split; intros x [].
  - assert (Ri : 0 <= i < Z.of_nat (length vis)).
    { rewrite (inv_length _ _ _ _ I). apply R. left. reflexivity. }
    cbn [first_pass].
    destruct (visited_or_white vis i Ri) as [V | W].
    + unfold visited in V. rewrite V. cbn [and_then fst snd].
      destruct (IH vis order I (fun x Hx => R x (or_intror Hx)))
        as (vis' & L & EQ & I' & VJ & PL).
      exists vis', L. split; [exact EQ |]. split; [exact I' |]. split.
      * intros x [<- | Hx]; [| exact (VJ x Hx)].
        exact (dfs_inv_mono adj vis vis' order L _ i I I' V).
      * intros x Hx. destruct (PL x Hx) as (r & Hr & Pr).
        exists r. split; [right; exact Hr | exact Pr].
    + pose proof W as W'. unfold white in W'. rewrite W'. cbn [and_then].
      destruct (DFS_spec adj WF dfs_fuel vis order i order [] I W)
        as (vis1 & L1 & EQ1 & I1 & PL1 & WC1).
      { intros g []. }
      { exact (dfs_fuel_enough _ _ _ _ I LN). }
      rewrite EQ1. cbn [and_then fst snd].
      destruct (IH vis1 (order ++ L1 ++ [i]) I1 (fun x Hx => R x (or_intror Hx)))
        as (vis' & L & EQ & I' & VJ & PL).
      exists vis', ((L1 ++ [i]) ++ L).
      assert (R1 : forall l : list Z, l ++ (L1 ++ [i]) ++ L = (l ++ L1 ++ [i]) ++ L).
      { intros l. rewrite !app_assoc. reflexivity. }
      rewrite !R1. split; [exact EQ |]. split; [exact I' |]. split.
      * intros x [<- | Hx]; [| exact (VJ x Hx)].
        apply (dfs_inv_mono adj vis1 vis' (order ++ L1 ++ [i]) L _ i I1 I').
        apply (inv_marked _ _ _ _ I1). left. rewrite !in_app_iff. simpl. tauto.
      * intros x Hx. apply in_app_or in Hx. destruct Hx as [Hx | Hx].
        -- exists i. split; [left; reflexivity |].
           apply in_app_or in Hx. destruct Hx as [Hx | [<- | []]];
             [exact (PL1 x Hx) | apply path_here].
        -- destruct (PL x Hx) as (r & Hr & Pr).
           exists r. split; [right; exact Hr | exact Pr].
Qed.

Lemma le_pos_split (o z : Z) :
  forall pre suf : list Z,
    NoDup (pre ++ o :: suf) -> le_pos (pre ++ o :: suf) o z -> z = o \/ In z suf.
Proof.
  induction pre as [| p pre IH]; intros suf ND (l1 & l2 & EQ & H).
  - destruct l1 as [| a l1]; simpl in EQ; injection EQ as -> ->.
    + left. reflexivity.
    + right. apply in_or_app. right. left. reflexivity.
  - simpl in ND. inversion ND as [| ? ? Np ND']; subst.
    destruct l1 as [| a l1]; simpl in EQ; injection EQ as -> EQ.
    + exfalso. destruct H as [[] | ->]. apply Np. apply in_or_app. right. left. reflexivity.
    + apply (IH suf ND'). exists l1, l2. split; [exact EQ |].
      destruct H as [[-> | H] | H]; auto.
      exfalso. apply Np. apply in_or_app. right. left. reflexivity.
Qed.

Lemma NoDup_app_apart {A : Type} (l1 l2 : list A) (a : A) :
  NoDup (l1 ++ l2) -> In a l1 -> In a l2 -> False.
Proof.
  induction l1 as [| x l1 IH]; intros N H1 H2; [exact H1 |].
  simpl in N. inversion N as [| ? ? Nx N']; subst.
  destruct H1 as [-> | H1]; [| exact (IH N' H1 H2)].
  apply Nx. apply in_or_app. right. exact H2.
Qed.

Lemma app_snoc_split {A : Type} (l : list A) (c : A) (l1 l2 : list A) :
  l ++ [c] = l1 ++ l2 ->
  (l2 = [] /\ l1 = l ++ [c]) \/ exists l2', l2 = l2' ++ [c] /\ l = l1 ++ l2'.
Proof.
  destruct l2 as [| x l2 _] using rev_ind; intros H.
  - left. rewrite app_nil_r in H. auto.
  - right. rewrite app_assoc in H. apply app_inj_tail in H. destruct H as [-> ->].
    exists l2. auto.
Qed.

Lemma dfs_inv_visited_closed (graph : list (list Z)) (vis : list bool)
      (blk : list Z) (a b : Z) :
  dfs_inv graph vis blk [] -> path (arc graph) a b ->
  visited vis a -> visited vis b.
Proof.
  intros I. apply path_closed. intros x y V A.
  apply (inv_marked _ _ _ _ I) in V. destruct V as [V | []].
  exact (inv_closed _ _ _ _ I x y V A).
Qed.

Lemma path_source (E : Z -> Z -> Prop) (x y : Z) :
  path E x y -> x = y \/ exists w, E x w.
Proof. destruct 1 as [x | x w y H _]; [left; reflexivity | right; eauto]. Qed.

Section SecondPass.

Variables (adj radj : list (list Z)) (order : list Z).
Hypothesis WFR : wf_graph radj (length radj).
Hypothesis LR : length radj = Z.to_nat MAXN.
Hypothesis REV : forall u v, arc radj u v <-> arc adj v u.
Hypothesis ND : NoDup order.
Hypothesis RNG : forall x, In x order -> 0 <= x < Z.of_nat (length radj).
Hypothesis SRC : forall u v, arc adj u v -> In u order.
Hypothesis STAR :
  forall x y, In x order -> path (arc adj) x y ->
              exists z, mutual (arc adj) x z /\ le_pos order y z.

Lemma radj_path (x y : Z) : path (arc radj) x y <-> path (arc adj) y x.
Proof.
  split; apply path_flip; intros a b H; apply REV; exact H.
Qed.

Lemma component_class (pre suf : list Z) (o : Z) (vis vis' : list bool)
      (SCC : list (list Z)) (L : list Z) :
  order = pre ++ o :: suf ->
  scc_inv (arc adj) radj order vis SCC suf ->
  white vis o ->
  dfs_inv radj vis' (concat SCC ++ L ++ [o]) [] ->
  (forall x, In x L -> path (arc radj) o x) ->
  forall x, In x (L ++ [o]) <-> mutual (arc adj) o x.
Proof.
  intros EQ K W I' PL x.
  pose proof (sinv_dfs _ _ _ _ _ _ K) as I.
  split.
  - intros Hx. apply in_app_or in Hx. destruct Hx as [Hx | [<- | []]]; [| apply mutual_refl].
    pose proof (proj1 (radj_path o x) (PL x Hx)) as Pxo.
    split; [| exact Pxo].
    assert (Nx : ~ visited vis x).
    { intros V. apply (inv_marked _ _ _ _ I) in V. destruct V as [V | []].
      apply (NoDup_app_apart _ _ x (inv_nodup _ _ _ _ I') V).
      apply in_or_app. left. exact Hx. }
    assert (Ox : In x order).
    { destruct (path_source _ _ _ Pxo) as [-> | (w & Hw)].
      - rewrite EQ. apply in_or_app. right. left. reflexivity.
      - exact (SRC x w Hw). }
    destruct (STAR x o Ox Pxo) as (z & Mz & Lz).
    rewrite EQ in Lz, ND. destruct (le_pos_split o z pre suf ND Lz) as [-> | Hz].
    + exact (proj2 Mz).
    + exfalso. apply Nx.
      apply (dfs_inv_visited_closed radj vis (concat SCC) z x I).
      * apply radj_path. exact (proj1 Mz).
      * exact (sinv_done _ _ _ _ _ _ K z Hz).
  - intros [Pox Pxo].
    assert (V : visited vis' x).
    { apply (dfs_inv_visited_closed radj vis' _ o x I').
      - apply radj_path. exact Pxo.
      - apply (inv_marked _ _ _ _ I'). left. rewrite !in_app_iff. simpl. tauto. }
    apply (inv_marked _ _ _ _ I') in V. destruct V as [V | []].
    apply in_app_or in V. destruct V as [V | V]; [| exact V].
    exfalso. apply (visited_not_white vis o); [| exact W].
    apply (dfs_inv_visited_closed radj vis (concat SCC) x o I).
    + apply radj_path. exact Pox.
    + apply (inv_marked _ _ _ _ I). left. exact V.
Qed.

Lemma second_pass_spec :
  forall (pre suf : list Z) (vis : list bool) (SCC : list (list Z)),
    order = pre ++ suf ->
    scc_inv (arc adj) radj order vis SCC suf ->
    exists vis' SCC',
      second_pass (rev pre) radj vis SCC = Done (vis', SCC')
      /\ scc_inv (arc adj) radj order vis' SCC' order.
Proof.
  induction pre as [| o pre IH] using rev_ind; intros suf vis SCC EQ K.
  - simpl in EQ. subst suf. exists vis, SCC. split; [reflexivity | exact K].
  - rewrite <- app_assoc in EQ. simpl in EQ.
    pose proof (sinv_dfs _ _ _ _ _ _ K) as I.
    assert (Oo : In o order).
    { rewrite EQ. apply in_or_app. right. left. reflexivity. }
    assert (Ro : 0 <= o < Z.of_nat (length vis)).
    { rewrite (inv_length _ _ _ _ I). exact (RNG o Oo). }
    rewrite rev_unit. cbn [second_pass].
    destruct (visited_or_white vis o Ro) as [V | W].
    + unfold visited in V. rewrite V. cbn [and_then].
      apply (IH (o :: suf) vis SCC EQ).
      destruct K as [K1 K2 K3 K4 K5 K6]. constructor; try assumption.
      intros z [<- | Hz]; [exact V | exact (K2 z Hz)].
    + pose proof W as W'. unfold white in W'. rewrite W'. cbn [and_then].
      destruct (DFS_spec radj WFR dfs_fuel vis [] o (concat SCC) [] I W)
        as (vis1 & L & EQ1 & I1 & PL & WC).
      { intros g []. }
      { exact (dfs_fuel_enough _ _ _ _ I LR). }
      rewrite EQ1. cbn [and_then fst snd app].
      pose proof (component_class pre suf o vis vis1 SCC L EQ K W I1 PL) as CL.
      assert (CC : concat (SCC ++ [L ++ [o]]) = concat SCC ++ L ++ [o]).
      { rewrite concat_app. simpl. rewrite app_nil_r. reflexivity. }
      apply (IH (o :: suf) vis1 (SCC ++ [L ++ [o]]) EQ).
      destruct K as [K1 K2 K3 K4 K5 K6]. constructor.
      * rewrite CC. exact I1.
      * intros z Hz. apply (inv_marked _ _ _ _ I1). left.
        destruct Hz as [<- | Hz]; [rewrite !in_app_iff; simpl; tauto |].
        apply in_or_app. left.
        pose proof (K2 z Hz) as Vz. apply (inv_marked _ _ _ _ I) in Vz.
        destruct Vz as [Vz | []]. exact Vz.
      * intros x Hx. rewrite CC in Hx. apply in_app_or in Hx.
        destruct Hx as [Hx | Hx]; [exact (K3 x Hx) |].
        apply CL in Hx. destruct (path_source _ _ _ (proj2 Hx)) as [-> | (w & Hw)];
          [exact Oo | exact (SRC x w Hw)].
      * intros C HC. apply in_app_or in HC. destruct HC as [HC | [<- | []]];
          [exact (K4 C HC) |].
        intros E. symmetry in E. exact (app_cons_not_nil _ _ _ E).
      * intros C x y HC Hx. apply in_app_or in HC. destruct HC as [HC | [<- | []]];
          [exact (K5 C x y HC Hx) |].
        apply CL in Hx. rewrite (CL y). split; intros H.
        -- exact (mutual_trans _ x o y (mutual_sym _ o x Hx) H).
        -- exact (mutual_trans _ o x y Hx H).
      * intros l1 l2 x y E Hy A.
        destruct (app_snoc_split _ _ _ _ E) as [[-> ->] | (l2' & -> & ->)].
        -- rewrite CC in *.
           assert (Vy : visited vis1 y) by (apply (inv_marked _ _ _ _ I1); left; exact Hy).
           assert (Vx : visited vis1 x).
           { apply (dfs_inv_visited_closed radj vis1 _ y x I1); [| exact Vy].
             apply path_one. apply REV. exact A. }
           apply (inv_marked _ _ _ _ I1) in Vx. destruct Vx as [Vx | []]. exact Vx.
        -- exact (K6 l1 l2' x y eq_refl Hy A).
Qed.

End SecondPass.

(** ** The whole of [main] *)

Lemma In_range (n x : Z) : In x (range n) <-> 0 <= x < n.
Proof.
  unfold range. rewrite in_map_iff. split.
  - intros (k & <- & Hk). apply in_seq in Hk. lia.
  - intros H. exists (Z.to_nat x). split; [lia |]. apply in_seq. lia.
Qed.

Lemma get_at_repeat {A : Type} (a b : A) (n : nat) (i : Z) :
  get_at (repeat a n) i = Done b -> b = a.
Proof.
  intros H. apply get_at_Done in H. destruct H as [_ H].
  apply nth_error_In in H. exact (repeat_spec _ _ _ H).
Qed.

Lemma arc_empty (n : nat) (u v : Z) : ~ arc (repeat (@nil Z) n) u v.
Proof.
  intros (l & G & H). apply get_at_repeat in G. subst l. exact H.
Qed.

Lemma fresh_not_visited (n : nat) (x : Z) : ~ visited (repeat false n) x.
Proof. intros V. apply get_at_repeat in V. discriminate. Qed.

Lemma dfs_inv_init (graph : list (list Z)) (vis : list bool) :
  length vis = length graph -> (forall x, ~ visited vis x) ->
  dfs_inv graph vis [] [].
Proof.
  intros L N. constructor.
  - exact L.
  - intros x. split; [intros V; destruct (N x V) | intros [[] | []]].
  - constructor.
  - constructor.
  - intros x [].
  - intros x y [].
  - intros x y [].
Qed.

Lemma mutual_iff (E F : Z -> Z -> Prop) (x y : Z) :
  (forall a b, E a b <-> F a b) -> mutual E x y <-> mutual F x y.
Proof.
  intros H. split; intros [A B]; split;
    (eapply path_impl; [| eassumption]); intros a b; apply H.
Qed.

Lemma kosaraju_spec (nodes : Z) (es : list (Z * Z)) :
  0 <= nodes <= MAXN -> edges_in_range nodes es ->
  exists sccs,
    kosaraju nodes es = Done sccs
    /\ NoDup (concat sccs)
    /\ (forall x, In x (concat sccs) <-> 0 <= x < nodes)
    /\ (forall C, In C sccs -> C <> [])
    /\ (forall C x y, In C sccs -> In x C -> (In y C <-> mutual (edge es) x y))
    /\ (forall l1 l2 x y, sccs = l1 ++ l2 -> In y (concat l1) -> edge es x y ->
                          In x (concat l1)).
Proof.
  intros HN HE. unfold kosaraju.
  set (n := Z.to_nat MAXN).
  assert (Zn : Z.of_nat n = MAXN) by (unfold n, MAXN; lia).
  (* reading the edges *)
  destruct (read_edges_spec es (repeat [] n)) as (adj & EQa & La & Aa).
  { intros a b H. rewrite repeat_length, Zn. destruct (HE a b H). lia. }
  rewrite repeat_length in La.
  assert (AE : forall a b, arc adj a b <-> edge es a b).
  { intros a b. rewrite Aa. unfold edge. split; [| auto].
    intros [H | H]; [destruct (arc_empty _ _ _ H) | exact H]. }
  assert (WFa : wf_graph adj (length adj)).
  { split; [reflexivity |]. intros u l v G H.
    assert (A : arc adj u v) by (exists l; auto).
    apply AE in A. destruct (HE u v A). rewrite La, Zn. lia. }
  rewrite EQa. cbn [and_then].
  (* first pass *)
  destruct (first_pass_spec adj WFa La (range nodes) (repeat false n) [])
    as (vis1 & order & EQ1 & I1 & V1 & P1).
  { apply dfs_inv_init; [rewrite repeat_length, La; reflexivity |].
    apply fresh_not_visited. }
  { intros i Hi. apply In_range in Hi. rewrite La, Zn. lia. }
  cbn [app] in EQ1, I1. rewrite EQ1. cbn [and_then fst snd].
  assert (O1 : forall x, In x order <-> 0 <= x < nodes).
  { intros x. split.
    - intros Hx. destruct (P1 x Hx) as (i & Hi & Pi). apply In_range in Hi.
      apply (path_closed (arc adj) (fun v => 0 <= v < nodes) i x); [| exact Pi | exact Hi].
      intros a b _ A. apply AE in A. exact (proj2 (HE a b A)).
    - intros Hx. apply In_range in Hx. apply V1 in Hx.
      apply (inv_marked _ _ _ _ I1) in Hx. destruct Hx as [Hx | []]. exact Hx. }
  (* reversing the arcs *)
  destruct (reverse_graph_spec adj (range nodes) (repeat [] n)) as (radj & EQr & Lr & Ar).
  { intros i Hi. apply In_range in Hi. rewrite La, Zn. lia. }
  { intros u v A. apply AE in A. destruct (HE u v A). rewrite repeat_length, Zn. lia. }
  rewrite repeat_length in Lr.
  assert (RV : forall u v, arc radj u v <-> arc adj v u).
  { intros u v. rewrite Ar. split.
    - intros [H | [_ H]]; [destruct (arc_empty _ _ _ H) | exact H].
    - intros H. right. split; [| exact H]. apply In_range.
      apply AE in H. exact (proj1 (HE v u H)). }
  assert (WFr : wf_graph radj (length radj)).
  { split; [reflexivity |]. intros u l v G H.
    assert (A : arc radj u v) by (exists l; auto).
    apply RV, AE in A. destruct (HE v u A). rewrite Lr, Zn. lia. }
  rewrite EQr. cbn [and_then].
  (* clearing the marks *)
  destruct (reset_vis_spec (range nodes) vis1) as (vis2 & EQv & Lv & Wv & Kv).
  { intros i Hi. apply In_range in Hi.
    rewrite (inv_length _ _ _ _ I1), La, Zn. lia. }
  rewrite EQv. cbn [and_then].
  assert (N2 : forall x, ~ visited vis2 x).
  { intros x V. destruct (in_dec Z.eq_dec x (range nodes)) as [Hx | Hx].
    - exact (visited_not_white _ _ V (Wv x Hx)).
    - unfold visited in V. rewrite (Kv x Hx) in V.
      apply (inv_marked _ _ _ _ I1) in V. destruct V as [V | []].
      apply Hx. apply In_range. apply O1. exact V. }
  (* second pass *)
  destruct (second_pass_spec adj radj order WFr Lr RV (inv_nodup _ _ _ _ I1))
    with (pre := order) (suf := @nil Z) (vis := vis2) (SCC := @nil (list Z))
    as (vis3 & sccs & EQ2 & K).
  { intros x Hx. apply O1 in Hx. rewrite Lr, Zn. lia. }
  { intros u v A. apply O1. apply AE in A. exact (proj1 (HE u v A)). }
  { intros x y Hx P.
    destruct (inv_order _ _ _ _ I1 x y Hx P) as [H | (g & [] & _)]. exact H. }
  { rewrite app_nil_r. reflexivity. }
  { constructor.
    - apply dfs_inv_init; [| exact N2].
      rewrite Lv, (inv_length _ _ _ _ I1), La, Lr. reflexivity.
    - intros z [].
    - intros x [].
    - intros C [].
    - intros C x y [].
    - intros l1 l2 x y E Hy. symmetry in E. apply app_eq_nil in E.
      destruct E as [-> _]. destruct Hy. }
  rewrite EQ2. cbn [and_then snd].
  destruct K as [K1 K2 K3 K4 K5 K6].
  exists sccs. split; [reflexivity |].
  split; [exact (inv_nodup _ _ _ _ K1) |].
  split; [| split; [exact K4 | split]].
  - intros x. split.
    + intros Hx. apply O1. exact (K3 x Hx).
    + intros Hx. apply O1 in Hx. apply K2 in Hx.
      apply (inv_marked _ _ _ _ K1) in Hx. destruct Hx as [Hx | []]. exact Hx.
  - intros C x y HC Hx. rewrite (K5 C x y HC Hx). apply mutual_iff. exact AE.
  - intros l1 l2 x y E Hy A. apply AE in A. exact (K6 l1 l2 x y E Hy A).
Qed.

Lemma cycle_and_tail_in_range : edges_in_range 4 cycle_and_tail.
Proof.
  intros a b H. simpl in H.
  repeat (destruct H as [H | H]; [injection H as <- <-; lia |]). destruct H.
Defined.

Lemma four_nodes_fit : 0 <= 4 <= MAXN.
Proof. unfold MAXN. lia. Defined.

(** ** The recursion budget *)

Lemma ends_with_bind {A B : Type} (P : A -> Prop) (Q : B -> Prop)
      (m : outcome A) (k : A -> outcome B) :
  ends_with P m -> (forall a, m = Done a -> P a -> ends_with Q (k a)) ->
  ends_with Q (and_then m k).
Proof.
  destruct m as [a | |]; simpl; intros H K; [exact (K a eq_refl H) | exact I | exact H].
Qed.

Lemma ends_with_impl {A : Type} (P Q : A -> Prop) (r : outcome A) :
  (forall a, P a -> Q a) -> ends_with P r -> ends_with Q r.
Proof. destruct r; simpl; auto. Qed.

Lemma get_at_ends {A : Type} (l : list A) (i : Z) :
  ends_with (fun _ => True) (get_at l i).
Proof.
  unfold get_at. destruct (i <? 0); [exact I |].
  destruct (nth_error l (Z.to_nat i)); exact I.
Qed.

Lemma set_at_ends {A : Type} (l : list A) (i : Z) (a : A) :
  ends_with (fun l' => length l' = length l) (set_at l i a).
Proof.
  destruct (set_at l i a) as [l' | |] eqn:E; simpl.
  - exact (proj1 (set_at_spec _ _ _ _ E)).
  - exact I.
  - unfold set_at in E. destruct (i <? 0); [discriminate |].
    destruct (set_nth l (Z.to_nat i) a); discriminate.
Qed.

Lemma get_at_out_of_range {A : Type} (l : list A) (i : Z) :
  ~ 0 <= i < Z.of_nat (length l) -> get_at l i = OutOfBounds.
Proof.
  intros H. pose proof (get_at_ends l i) as N.
  destruct (get_at l i) as [a | |] eqn:E; [| reflexivity | destruct N].
  destruct (H (get_at_range _ _ _ E)).
Qed.

Section Budget.

Variable graph : list (list Z).

Lemma visit_all_progress (fuel : nat)
      (IH : forall vis res j,
          white vis j -> (white_count vis < fuel)%nat ->
          ends_with (fun st => length (fst st) = length vis
                               /\ (white_count (fst st) < white_count vis)%nat)
                    (DFS fuel graph vis res j)) :
  forall js vis res,
    (white_count vis < fuel)%nat ->
    ends_with (fun st => length (fst st) = length vis
                         /\ (white_count (fst st) <= white_count vis)%nat)
              (visit_all (DFS fuel graph) js vis res).
Proof.
  induction js as [| j js IHjs]; intros vis res F; cbn [visit_all].
  - simpl. split; [reflexivity | lia].
  - apply (ends_with_bind (fun _ => True)); [apply get_at_ends |].
    intros v G _. destruct v.
    + cbn [and_then fst snd]. exact (IHjs vis res F).
    + apply (ends_with_bind _ _ _ _ (IH vis res j G F)).
      intros st _ [L W]. specialize (IHjs (fst st) (snd st) ltac:(lia)).
      revert IHjs. apply ends_with_impl. intros st' [L' W']. split; [congruence | lia].
Qed.

Lemma DFS_progress :
  forall (fuel : nat) (vis : list bool) (res : list Z) (i : Z),
    white vis i -> (white_count vis < fuel)%nat ->
    ends_with (fun st => length (fst st) = length vis
                         /\ (white_count (fst st) < white_count vis)%nat)
              (DFS fuel graph vis res i).
Proof.
  induction fuel as [| fuel IH]; intros vis res i W F; [lia |].
  cbn [DFS].
  destruct (set_at_in_range vis i true (get_at_range _ _ _ W)) as (vis1 & S1).
  pose proof (set_at_white_count vis vis1 i W S1) as WC1.
  pose proof (proj1 (set_at_spec _ _ _ _ S1)) as L1.
  rewrite S1. cbn [and_then].
  apply (ends_with_bind (fun _ => True)); [apply get_at_ends |].
  intros gi _ _.
  apply (ends_with_bind _ _ _ _ (visit_all_progress fuel IH gi vis1 res ltac:(lia))).
  intros st _ [L W']. simpl. split; [congruence | lia].
Qed.

End Budget.

Lemma read_edges_ends :
  forall (es : list (Z * Z)) (adj : list (list Z)),
    ends_with (fun adj' => length adj' = length adj) (read_edges es adj).
Proof.
  induction es as [| [a b] es IH]; intros adj; cbn [read_edges]; [reflexivity |].
  apply (ends_with_bind (fun _ => True)); [apply get_at_ends |]. intros l _ _.
  apply (ends_with_bind _ _ _ _ (set_at_ends adj a (l ++ [b]))). intros adj1 _ L1.
  generalize (IH adj1). apply ends_with_impl. intros adj' L'. congruence.
Qed.

Lemma first_pass_ends (adj : list (list Z)) :
  forall (vs : list Z) (vis : list bool) (order : list Z),
    (length vis < dfs_fuel)%nat ->
    ends_with (fun st => length (fst st) = length vis) (first_pass vs adj vis order).
Proof.
  induction vs as [| i vs IH]; intros vis order F; cbn [first_pass]; [reflexivity |].
  apply (ends_with_bind (fun _ => True)); [apply get_at_ends |]. intros v G _.
  destruct v.
  - cbn [and_then fst snd]. exact (IH vis order F).
  - pose proof (white_count_le_length vis) as WL.
    apply (ends_with_bind _ _ _ _ (DFS_progress adj dfs_fuel vis order i G ltac:(lia))).
    intros st _ [L _]. generalize (IH (fst st) (snd st) ltac:(lia)).
    apply ends_with_impl. intros st' L'. congruence.
Qed.

Lemma reverse_from_ends (i : Z) :
  forall (js : list Z) (radj : list (list Z)),
    ends_with (fun _ => True) (reverse_from i js radj).
Proof.
  induction js as [| j js IH]; intros radj; cbn [reverse_from]; [exact I |].
  apply (ends_with_bind (fun _ => True)); [apply get_at_ends |]. intros l _ _.
  apply (ends_with_bind _ _ _ _ (set_at_ends radj j (l ++ [i]))). intros radj1 _ _.
  exact (IH radj1).
Qed.

Lemma reverse_graph_ends (adj : list (list Z)) :
  forall (vs : list Z) (radj : list (list Z)),
    ends_with (fun _ => True) (reverse_graph vs adj radj).
Proof.
  induction vs as [| i vs IH]; intros radj; cbn [reverse_graph]; [exact I |].
  apply (ends_with_bind (fun _ => True)); [apply get_at_ends |]. intros js _ _.
  apply (ends_with_bind _ _ _ _ (reverse_from_ends i js radj)). intros radj1 _ _.
  exact (IH radj1).
Qed.

Lemma reset_vis_ends :
  forall (vs : list Z) (vis : list bool),
    ends_with (fun vis' => length vis' = length vis) (reset_vis vs vis).
Proof.
  induction vs as [| i vs IH]; intros vis; cbn [reset_vis]; [reflexivity |].
  apply (ends_with_bind _ _ _ _ (set_at_ends vis i false)). intros vis1 _ L1.
  generalize (IH vis1). apply ends_with_impl. intros vis' L'. congruence.
Qed.

Lemma second_pass_ends (radj : list (list Z)) :
  forall (os : list Z) (vis : list bool) (SCC : list (list Z)),
    (length vis < dfs_fuel)%nat ->
    ends_with (fun _ => True) (second_pass os radj vis SCC).
Proof.
  induction os as [| o os IH]; intros vis SCC F; cbn [second_pass]; [exact I |].
  apply (ends_with_bind (fun _ => True)); [apply get_at_ends |]. intros v G _.
  destruct v.
  - exact (IH vis SCC F).
  - pose proof (white_count_le_length vis) as WL.
    apply (ends_with_bind _ _ _ _ (DFS_progress radj dfs_fuel vis [] o G ltac:(lia))).
    intros st _ [L _]. apply IH. lia.
Qed.

Lemma kosaraju_ends (nodes : Z) (es : list (Z * Z)) :
  ends_with (fun _ => True) (kosaraju nodes es).
Proof.
  unfold kosaraju.
  assert (F : (length (repeat false (Z.to_nat MAXN)) < dfs_fuel)%nat).
  { rewrite repeat_length. unfold dfs_fuel. lia. }
  apply (ends_with_bind _ _ _ _ (read_edges_ends es _)). intros adj _ _.
  apply (ends_with_bind _ _ _ _ (first_pass_ends adj (range nodes) _ [] F)).
  intros st _ L1.
  apply (ends_with_bind _ _ _ _ (reverse_graph_ends adj (range nodes) _)).
  intros radj _ _.
  apply (ends_with_bind _ _ _ _ (reset_vis_ends (range nodes) (fst st))).
  intros vis2 _ L2.
  apply (ends_with_bind _ _ _ _ (second_pass_ends radj _ vis2 [] ltac:(lia))).
  intros st2 _ _. exact I.
Qed.

Lemma read_edges_out_of_range :
  forall (es : list (Z * Z)) (adj : list (list Z)) (a b : Z),
    In (a, b) es -> ~ 0 <= a < Z.of_nat (length adj) ->
    read_edges es adj = OutOfBounds.
Proof.
  induction es as [| [a0 b0] es IH]; intros adj a b H R; [destruct H |].
  cbn [read_edges].
  destruct (get_at adj a0) as [l | |] eqn:G; cbn [and_then]; [| reflexivity |].
  - destruct (set_at_in_range adj a0 (l ++ [b0]) (get_at_range _ _ _ G)) as (adj1 & S1).
    rewrite S1. cbn [and_then].
    destruct H as [[= -> ->] | H]; [destruct (R (get_at_range _ _ _ G)) |].
    apply (IH adj1 a b H). rewrite (proj1 (set_at_spec _ _ _ _ S1)). exact R.
  - pose proof (get_at_ends adj a0) as N. rewrite G in N. destruct N.
Qed.

Lemma first_pass_out_of_range (adj : list (list Z)) :
  forall (vs : list Z) (vis : list bool) (order : list Z) (i : Z),
    In i vs -> ~ 0 <= i < Z.of_nat (length vis) ->
    (length vis < dfs_fuel)%nat ->
    first_pass vs adj vis order = OutOfBounds.
Proof.
  induction vs as [| i0 vs IH]; intros vis order i H R F; [destruct H |].
  cbn [first_pass].
  destruct (get_at vis i0) as [v | |] eqn:G; cbn [and_then]; [| reflexivity |].
  - assert (H' : In i vs).
    { destruct H as [-> | H]; [destruct (R (get_at_range _ _ _ G)) | exact H]. }
    destruct v.
    + cbn [and_then fst snd]. exact (IH vis order i H' R F).
    + pose proof (white_count_le_length vis) as WL.
      pose proof (DFS_progress adj dfs_fuel vis order i0 G ltac:(lia)) as P.
      destruct (DFS dfs_fuel adj vis order i0) as [st | |]; cbn [and_then];
        [| reflexivity | destruct P].
      destruct P as [L _]. apply (IH (fst st) (snd st) i H'); rewrite L; assumption.
  - pose proof (get_at_ends vis i0) as N. rewrite G in N. destruct N.
Qed.

Lemma cycle_and_tail_adj_wf :
  wf_graph cycle_and_tail_adj (length cycle_and_tail_adj).
Proof.
  split; [reflexivity |]. intros u l v G H.
  pose proof (get_at_range _ _ _ G) as R. simpl in R.
  assert (C : u = 0 \/ u = 1 \/ u = 2 \/ u = 3) by lia.
  destruct C as [-> | [-> | [-> | ->]]]; vm_compute in G; injection G as <-;
    simpl in H; simpl; intuition lia.
Defined.

(** ** What the program computes *)

(** X6: For [0 <= nodes <= MAXN] and edges whose endpoints are all in
    [0, nodes), [main] runs to its end without indexing an array out of
    its range, and the components it prints are a partition of the
    vertices: every vertex [0 <= v < nodes] is in exactly one component,
    once, nothing else is in one, and no component is empty. *)
Theorem kosaraju_partitions_vertices (nodes : Z) (es : list (Z * Z)) :
  0 <= nodes <= MAXN -> edges_in_range nodes es ->
  exists sccs,
    kosaraju nodes es = Done sccs
    /\ NoDup (concat sccs)
    /\ (forall x, In x (concat sccs) <-> 0 <= x < nodes)
    /\ (forall C, In C sccs -> C <> []).
Proof.
  intros HN HE.
  destruct (kosaraju_spec nodes es HN HE) as (sccs & EQ & N & M & E & _).
  exists sccs. auto.
Qed.

Lemma kosaraju_partitions_vertices_witness :
  0 <= 4 <= MAXN /\ edges_in_range 4 cycle_and_tail
  /\ exists sccs,
      kosaraju 4 cycle_and_tail = Done sccs
      /\ NoDup (concat sccs)
      /\ (forall x, In x (concat sccs) <-> 0 <= x < 4)
      /\ (forall C, In C sccs -> C <> []).
Proof.
  split; [exact four_nodes_fit |]. split; [exact cycle_and_tail_in_range |].
  exact (kosaraju_partitions_vertices 4 cycle_and_tail
           four_nodes_fit cycle_and_tail_in_range).
Defined.

(** X7: Under the same conditions the components are the strongly
    connected components of the input graph: two vertices are printed
    in the same component exactly when each can be reached from the
    other along the edges read. *)
Theorem kosaraju_components_are_classes (nodes : Z) (es : list (Z * Z)) :
  0 <= nodes <= MAXN -> edges_in_range nodes es ->
  exists sccs,
    kosaraju nodes es = Done sccs
    /\ forall x y, 0 <= x < nodes ->
                   ((exists C, In C sccs /\ In x C /\ In y C)
                    <-> mutual (edge es) x y).
Proof.
  intros HN HE.
  destruct (kosaraju_spec nodes es HN HE) as (sccs & EQ & _ & M & _ & K & _).
  exists sccs. split; [exact EQ |]. intros x y Hx. split.
  - intros (C & HC & Cx & Cy). exact (proj1 (K C x y HC Cx) Cy).
  - intros Mxy. apply M in Hx. apply in_concat in Hx. destruct Hx as (C & HC & Cx).
    exists C. split; [exact HC |]. split; [exact Cx |].
    exact (proj2 (K C x y HC Cx) Mxy).
Qed.

Lemma kosaraju_components_are_classes_witness :
  0 <= 4 <= MAXN /\ edges_in_range 4 cycle_and_tail
  /\ exists sccs,
      kosaraju 4 cycle_and_tail = Done sccs
      /\ forall x y, 0 <= x < 4 ->
                     ((exists C, In C sccs /\ In x C /\ In y C)
                      <-> mutual (edge cycle_and_tail) x y).
Proof.
  split; [exact four_nodes_fit |]. split; [exact cycle_and_tail_in_range |].
  exact (kosaraju_components_are_classes 4 cycle_and_tail
           four_nodes_fit cycle_and_tail_in_range).
Defined.

(** X8: Under the same conditions the components are printed in a
    topological order of the condensed graph: an edge that ends in a
    component starts in that component or in one printed before it. *)
Theorem kosaraju_components_in_topological_order (nodes : Z) (es : list (Z * Z)) :
  0 <= nodes <= MAXN -> edges_in_range nodes es ->
  exists sccs,
    kosaraju nodes es = Done sccs
    /\ forall l1 C l2 x y,
        sccs = l1 ++ C :: l2 -> In y C -> edge es x y ->
        In x C \/ In x (concat l1).
Proof.
  intros HN HE.
  destruct (kosaraju_spec nodes es HN HE) as (sccs & EQ & _ & _ & _ & _ & T).
  exists sccs. split; [exact EQ |]. intros l1 C l2 x y E Hy A.
  assert (H : In x (concat (l1 ++ [C]))).
  { apply (T (l1 ++ [C]) l2 x y).
    - rewrite <- app_assoc. exact E.
    - rewrite concat_app. apply in_or_app. right. simpl. rewrite app_nil_r. exact Hy.
    - exact A. }
  rewrite concat_app in H. apply in_app_or in H. simpl in H. rewrite app_nil_r in H.
  tauto.
Qed.

Lemma kosaraju_components_in_topological_order_witness :
  0 <= 4 <= MAXN /\ edges_in_range 4 cycle_and_tail
  /\ exists sccs,
      kosaraju 4 cycle_and_tail = Done sccs
      /\ forall l1 C l2 x y,
          sccs = l1 ++ C :: l2 -> In y C -> edge cycle_and_tail x y ->
          In x C \/ In x (concat l1).
Proof.
  split; [exact four_nodes_fit |]. split; [exact cycle_and_tail_in_range |].
  exact (kosaraju_components_in_topological_order 4 cycle_and_tail
           four_nodes_fit cycle_and_tail_in_range).
Defined.

(** X9: [DFS] on an array of adjacency vectors whose entries are
    indices of the array, with no vertex marked and a recursion budget
    above the number of vertices: the call returns, it appends to [res]
    exactly the vertices reachable from [i], each once and [i] last, and
    these are the vertices it leaves marked. *)
Theorem DFS_collects_reachable (graph : list (list Z)) (vis : list bool)
        (res : list Z) (i : Z) (fuel : nat) :
  wf_graph graph (length graph) ->
  length vis = length graph ->
  (forall x, ~ visited vis x) ->
  0 <= i < Z.of_nat (length graph) ->
  (length graph < fuel)%nat ->
  exists vis' L,
    DFS fuel graph vis res i = Done (vis', res ++ L ++ [i])
    /\ NoDup (L ++ [i])
    /\ (forall x, In x (L ++ [i]) <-> path (arc graph) i x)
    /\ (forall x, visited vis' x <-> path (arc graph) i x).
Proof.
  intros WF LN NV Ri F.
  pose proof (dfs_inv_init graph vis LN NV) as I.
  assert (W : white vis i).
  { destruct (visited_or_white vis i) as [V | W]; [rewrite LN; exact Ri | | exact W].
    destruct (NV i V). }
  destruct (DFS_spec graph WF fuel vis res i [] [] I W) as (vis' & L & EQ & I' & PL & _).
  { intros g []. }
  { pose proof (white_count_le_length vis). lia. }
  cbn [app] in I'.
  assert (M : forall x, In x (L ++ [i]) <-> path (arc graph) i x).
  { intros x. split.
    - intros Hx. apply in_app_or in Hx.
      destruct Hx as [Hx | [<- | []]]; [exact (PL x Hx) | apply path_here].
    - intros P.
      assert (V : visited vis' x).
      { apply (dfs_inv_visited_closed graph vis' _ i x I' P).
        apply (inv_marked _ _ _ _ I'). left. apply in_or_app. right. left. reflexivity. }
      apply (inv_marked _ _ _ _ I') in V. destruct V as [V | []]. exact V. }
  exists vis', L. split; [exact EQ |]. split; [exact (inv_nodup _ _ _ _ I') |].
  split; [exact M |].
  intros x. rewrite <- M, (inv_marked _ _ _ _ I' x). simpl. tauto.
Qed.

Lemma DFS_collects_reachable_witness :
  exists vis' L,
    DFS 5 cycle_and_tail_adj (repeat false 4) [] 1 = Done (vis', [] ++ L ++ [1])
    /\ NoDup (L ++ [1])
    /\ (forall x, In x (L ++ [1]) <-> path (arc cycle_and_tail_adj) 1 x)
    /\ (forall x, visited vis' x <-> path (arc cycle_and_tail_adj) 1 x).
Proof.
  apply (DFS_collects_reachable cycle_and_tail_adj (repeat false 4) [] 1 5).
  - exact cycle_and_tail_adj_wf.
  - reflexivity.
  - exact (fresh_not_visited 4).
  - simpl. lia.
  - simpl. lia.
Defined.

(** X10: Whatever the input, the calls of [DFS] made by [main] never
    nest deeper than [MAXN + 1]: [DFS] is entered only on a vertex that
    is not marked and marks it before anything else, and [vis] has
    [MAXN] entries. *)
Theorem kosaraju_never_exhausts (nodes : Z) (es : list (Z * Z)) :
  kosaraju nodes es <> Exhausted.
Proof.
  intros E. pose proof (kosaraju_ends nodes es) as H. rewrite E in H. exact H.
Qed.

(** X11: [MAXN] is a hard limit: with more than [MAXN] vertices, or
    with an edge whose first endpoint is not in [0, MAXN), the program
    indexes [vis] or [adj] outside its [MAXN] entries. *)
Theorem kosaraju_out_of_bounds (nodes : Z) (es : list (Z * Z)) :
  MAXN < nodes \/ (exists a b, In (a, b) es /\ (a < 0 \/ MAXN <= a)) ->
  kosaraju nodes es = OutOfBounds.
Proof.
  intros H. unfold kosaraju.
  assert (Zn : Z.of_nat (Z.to_nat MAXN) = MAXN) by (unfold MAXN; lia).
  destruct (read_edges es (repeat [] (Z.to_nat MAXN))) as [adj | |] eqn:EQ;
    cbn [and_then]; [| reflexivity |].
  - destruct H as [H | (a & b & Hab & R)].
    + rewrite (first_pass_out_of_range adj (range nodes) _ [] MAXN); [reflexivity | | |].
      * apply In_range. unfold MAXN in *. lia.
      * rewrite repeat_length, Zn. lia.
      * rewrite repeat_length. unfold dfs_fuel. lia.
    + rewrite (read_edges_out_of_range es _ a b Hab) in EQ; [discriminate |].
      rewrite repeat_length, Zn. lia.
  - pose proof (read_edges_ends es (repeat [] (Z.to_nat MAXN))) as N.
    rewrite EQ in N. destruct N.
Qed.

Lemma kosaraju_out_of_bounds_witness :
  kosaraju 101 [] = OutOfBounds /\ kosaraju 2 [(100, 1)] = OutOfBounds.
Proof.
  split.
  - apply (kosaraju_out_of_bounds 101 []). left. unfold MAXN. lia.
  - apply (kosaraju_out_of_bounds 2 [(100, 1)]). right. exists 100, 1.
    split; [left; reflexivity | right; unfold MAXN; lia].
Defined.

(** X12: The loops of lines 75-77, on adjacency vectors whose entries
    are indices of the array: they complete, and [rev[u]] then holds [v]
    exactly when [v < nodes] and [adj[v]] holds [u]; the arcs that leave
    a vertex [v >= nodes] are not reversed. *)
Theorem reverse_graph_transposes (nodes : Z) (adj : list (list Z)) :
  wf_graph adj (length adj) -> nodes <= Z.of_nat (length adj) ->
  exists radj,
    reverse_graph (range nodes) adj (repeat [] (length adj)) = Done radj
    /\ length radj = length adj
    /\ forall u v, arc radj u v <-> 0 <= v < nodes /\ arc adj v u.
Proof.
  intros [_ WF] HN.
  destruct (reverse_graph_spec adj (range nodes) (repeat [] (length adj)))
    as (radj & EQ & L & A).
  - intros i Hi. apply In_range in Hi. lia.
  - intros u v (l & G & H). rewrite repeat_length. exact (WF u l v G H).
  - exists radj. split; [exact EQ |]. rewrite repeat_length in L. split; [exact L |].
    intros u v. rewrite A, In_range. split; [| auto].
    intros [H | H]; [destruct (arc_empty _ _ _ H) | exact H].
Qed.

Lemma reverse_graph_transposes_witness :
  exists radj,
    reverse_graph (range 3) cycle_and_tail_adj
                  (repeat [] (length cycle_and_tail_adj)) = Done radj
    /\ length radj = length cycle_and_tail_adj
    /\ forall u v, arc radj u v <-> 0 <= v < 3 /\ arc cycle_and_tail_adj v u.
Proof.
  apply (reverse_graph_transposes 3 cycle_and_tail_adj).
  - exact cycle_and_tail_adj_wf.
  - simpl. lia.
Defined.

(** ** Inputs outside the intended range *)

Section Sound.

Variable graph : list (list Z).

Lemma set_at_true_mono (vis vis1 : list bool) (i x : Z) :
  set_at vis i true = Done vis1 ->
  visited vis1 i /\ (visited vis x -> visited vis1 x).
Proof.
  intros S1. destruct (set_at_spec _ _ _ _ S1) as (_ & G1 & O1).
  split; [exact G1 |]. unfold visited. intros V.
  destruct (Z.eq_dec x i) as [-> | N]; [exact G1 | rewrite (O1 x N); exact V].
Qed.

Lemma visit_all_sound (fuel : nat)
      (IH : forall vis res j vis' res',
          DFS fuel graph vis res j = Done (vis', res') ->
          exists L, res' = res ++ L
                    /\ (forall x, In x L ->
                                  (x = j \/ exists u, arc graph u x) /\ visited vis' x)
                    /\ (forall x, visited vis x -> visited vis' x)) :
  forall js vis res vis' res',
    visit_all (DFS fuel graph) js vis res = Done (vis', res') ->
    (forall j, In j js -> exists u, arc graph u j) ->
    exists L, res' = res ++ L
              /\ (forall x, In x L -> (exists u, arc graph u x) /\ visited vis' x)
              /\ (forall x, visited vis x -> visited vis' x).
Proof.
  induction js as [| j js IHjs]; intros vis res vis' res' EQ A.
  - simpl in EQ. injection EQ as <- <-. exists []. rewrite app_nil_r.
    split; [reflexivity |]. split; [intros x [] | auto].
  - cbn [visit_all] in EQ.
    apply and_then_Done in EQ. destruct EQ as (v & G & EQ).
    apply and_then_Done in EQ. destruct EQ as ([vis1 res1] & E1 & EQ).
    cbn [fst snd] in EQ.
    destruct (IHjs vis1 res1 vis' res' EQ (fun x Hx => A x (or_intror Hx)))
      as (L & -> & ML & MO).
    destruct v.
    + injection E1 as <- <-. exists L. auto.
    + destruct (IH vis res j vis1 res1 E1) as (L1 & -> & ML1 & MO1).
      exists (L1 ++ L). rewrite app_assoc. split; [reflexivity |]. split; [| auto].
      intros x Hx. apply in_app_or in Hx. destruct Hx as [Hx | Hx]; [| exact (ML x Hx)].
      destruct (ML1 x Hx) as [[-> | H] V]; (split; [| exact (MO _ V)]);
        [exact (A j (or_introl eq_refl)) | exact H].
Qed.

Lemma DFS_sound :
  forall (fuel : nat) (vis : list bool) (res : list Z) (i : Z)
         (vis' : list bool) (res' : list Z),
    DFS fuel graph vis res i = Done (vis', res') ->
    exists L, res' = res ++ L
              /\ (forall x, In x L ->
                            (x = i \/ exists u, arc graph u x) /\ visited vis' x)
              /\ (forall x, visited vis x -> visited vis' x).
Proof.
  induction fuel as [| fuel IH]; intros vis res i vis' res' EQ; [discriminate |].
  cbn [DFS] in EQ.
  apply and_then_Done in EQ. destruct EQ as (vis1 & S1 & EQ).
  apply and_then_Done in EQ. destruct EQ as (gi & G & EQ).
  apply and_then_Done in EQ. destruct EQ as ([vis2 res2] & E2 & EQ).
  cbn [fst snd] in EQ. injection EQ as <- <-.
  destruct (visit_all_sound fuel IH gi vis1 res vis2 res2 E2) as (L & -> & ML & MO).
  { intros j Hj. exists i, gi. auto. }
  exists (L ++ [i]). rewrite app_assoc. split; [reflexivity |]. split.
  - intros x Hx. apply in_app_or in Hx. destruct Hx as [Hx | [<- | []]].
    + destruct (ML x Hx) as [H V]. auto.
    + split; [left; reflexivity |].
      apply MO. exact (proj1 (set_at_true_mono vis vis1 i i S1)).
  - intros x V. apply MO. exact (proj2 (set_at_true_mono vis vis1 i x S1) V).
Qed.

End Sound.

Lemma first_pass_sound (adj : list (list Z)) :
  forall (vs : list Z) (vis : list bool) (order : list Z)
         (vis' : list bool) (order' : list Z),
    first_pass vs adj vis order = Done (vis', order') ->
    (forall x, In x order -> visited vis x) ->
    forall x, In x order' -> visited vis' x.
Proof.
  induction vs as [| i vs IH]; intros vis order vis' order' EQ H.
  - simpl in EQ. injection EQ as <- <-. exact H.
  - cbn [first_pass] in EQ.
    apply and_then_Done in EQ. destruct EQ as (v & G & EQ).
    apply and_then_Done in EQ. destruct EQ as ([vis1 order1] & E1 & EQ).
    cbn [fst snd] in EQ. apply (IH vis1 order1 vis' order' EQ).
    destruct v.
    + injection E1 as <- <-. exact H.
    + destruct (DFS_sound adj _ _ _ _ _ _ E1) as (L & -> & ML & MO).
      intros x Hx. apply in_app_or in Hx.
      destruct Hx as [Hx | Hx]; [exact (MO x (H x Hx)) | exact (proj2 (ML x Hx))].
Qed.

Lemma reverse_from_sound (i : Z) :
  forall (js : list Z) (radj radj' : list (list Z)),
    reverse_from i js radj = Done radj' ->
    forall u v, arc radj' u v -> arc radj u v \/ v = i.
Proof.
  induction js as [| j js IH]; intros radj radj' EQ u v A.
  - simpl in EQ. injection EQ as <-. left. exact A.
  - cbn [reverse_from] in EQ.
    apply and_then_Done in EQ. destruct EQ as (l & G & EQ).
    apply and_then_Done in EQ. destruct EQ as (radj1 & S1 & EQ).
    destruct (IH radj1 radj' EQ u v A) as [A1 | ->]; [| right; reflexivity].
    apply (proj2 (push_back_arc _ _ _ _ _ G S1)) in A1.
    destruct A1 as [A1 | [_ ->]]; auto.
Qed.

Lemma reverse_graph_sound (adj : list (list Z)) :
  forall (vs : list Z) (radj radj' : list (list Z)),
    reverse_graph vs adj radj = Done radj' ->
    forall u v, arc radj' u v -> arc radj u v \/ In v vs.
Proof.
  induction vs as [| i vs IH]; intros radj radj' EQ u v A.
  - simpl in EQ. injection EQ as <-. left. exact A.
  - cbn [reverse_graph] in EQ.
    apply and_then_Done in EQ. destruct EQ as (js & G & EQ).
    apply and_then_Done in EQ. destruct EQ as (radj1 & E1 & EQ).
    destruct (IH radj1 radj' EQ u v A) as [A1 | H]; [| right; right; exact H].
    destruct (reverse_from_sound i js radj radj1 E1 u v A1) as [A0 | ->];
      [left; exact A0 | right; left; reflexivity].
Qed.

Lemma reset_vis_outside :
  forall (vs : list Z) (vis vis' : list bool),
    reset_vis vs vis = Done vis' ->
    forall x, ~ In x vs -> get_at vis' x = get_at vis x.
Proof.
  induction vs as [| i vs IH]; intros vis vis' EQ x N.
  - simpl in EQ. injection EQ as <-. reflexivity.
  - cbn [reset_vis] in EQ.
    apply and_then_Done in EQ. destruct EQ as (vis1 & S1 & EQ).
    rewrite (IH vis1 vis' EQ x (fun H => N (or_intror H))).
    apply (set_at_spec _ _ _ _ S1). intros ->. apply N. left. reflexivity.
Qed.

Lemma second_pass_sound (radj : list (list Z)) (P : Z -> Prop) :
  (forall u v, arc radj u v -> P v) ->
  forall (os : list Z) (vis : list bool) (SCC : list (list Z))
         (vis' : list bool) (SCC' : list (list Z)),
    second_pass os radj vis SCC = Done (vis', SCC') ->
    (forall o, In o os -> visited vis o \/ P o) ->
    (forall x, In x (concat SCC) -> P x) ->
    forall x, In x (concat SCC') -> P x.
Proof.
  intros T. induction os as [| o os IH]; intros vis SCC vis' SCC' EQ R H.
  - simpl in EQ. injection EQ as <- <-. exact H.
  - cbn [second_pass] in EQ.
    apply and_then_Done in EQ. destruct EQ as (v & G & EQ).
    destruct v.
    + exact (IH vis SCC vis' SCC' EQ (fun x Hx => R x (or_intror Hx)) H).
    + apply and_then_Done in EQ. destruct EQ as ([vis1 comp] & E1 & EQ).
      cbn [fst snd] in EQ.
      destruct (DFS_sound radj _ _ _ _ _ _ E1) as (L & -> & ML & MO).
      apply (IH vis1 (SCC ++ [[] ++ L]) vis' SCC' EQ).
      * intros x Hx. destruct (R x (or_intror Hx)) as [V | Px]; auto.
      * intros x Hx. rewrite concat_app in Hx. apply in_app_or in Hx.
        destruct Hx as [Hx | Hx]; [exact (H x Hx) |].
        simpl in Hx. rewrite app_nil_r in Hx.
        destruct (ML x Hx) as [[-> | (u & A)] _]; [| exact (T u x A)].
        destruct (R o (or_introl eq_refl)) as [V | Po]; [| exact Po].
        unfold visited in V. congruence.
Qed.

(** X13: whatever the input, if [main] runs to its end then every vertex
    it prints is in [0, nodes): a vertex [v >= nodes] that the edges
    mention is never the root of a component, because [vis[v]] is not
    cleared after the first pass, and never a member, because the arcs
    out of [v] are not reversed.  On the sample input of the header,
    which numbers its eight vertices from 1, vertex 8 is therefore not
    printed. *)
Theorem kosaraju_prints_only_vertices (nodes : Z) (es : list (Z * Z))
        (sccs : list (list Z)) :
  kosaraju nodes es = Done sccs ->
  forall x, In x (concat sccs) -> 0 <= x < nodes.
Proof.
  unfold kosaraju. intros EQ.
  apply and_then_Done in EQ. destruct EQ as (adj & _ & EQ).
  apply and_then_Done in EQ. destruct EQ as ([vis1 order] & E1 & EQ).
  apply and_then_Done in EQ. destruct EQ as (radj & Er & EQ).
  apply and_then_Done in EQ. destruct EQ as (vis2 & Ev & EQ).
  apply and_then_Done in EQ. destruct EQ as ([vis3 sccs'] & E2 & EQ).
  cbn [fst snd] in *. injection EQ as <-.
  refine (second_pass_sound radj (fun x => 0 <= x < nodes) _ _ _ _ _ _ E2 _ _).
  - intros u v A. destruct (reverse_graph_sound adj _ _ _ Er u v A) as [A0 | H].
    + destruct (arc_empty _ _ _ A0).
    + apply In_range. exact H.
  - intros o Ho. rewrite <- in_rev in Ho.
    pose proof (first_pass_sound adj _ _ _ _ _ E1 (fun x (H : In x []) => match H with end)
                                 o Ho) as V1.
    destruct (in_dec Z.eq_dec o (range nodes)) as [Hr | Hr];
      [right; apply In_range; exact Hr |].
    left. unfold visited. rewrite (reset_vis_outside _ _ _ Ev o Hr). exact V1.
  - intros x [].
Qed.

Lemma kosaraju_prints_only_vertices_witness :
  kosaraju 8 sample_edges = Done [[2; 5; 1]; [4; 3]; [6; 7]; [0]]
  /\ forall x, In x (concat [[2; 5; 1]; [4; 3]; [6; 7]; [0]]) -> 0 <= x < 8.
Proof.
  assert (E : kosaraju 8 sample_edges = Done [[2; 5; 1]; [4; 3]; [6; 7]; [0]])
    by (vm_compute; reflexivity).
  split; [exact E |].
  exact (kosaraju_prints_only_vertices 8 sample_edges _ E).
Defined.
